(** * The question-bank importer: block parser and idempotent upsert engine

    A shallow embedding of [import_questions.py] (the stand-alone importer)
    and of the import path of [web_app.py] (the upload handler), followed by
    the properties of the parser, the chapter resolver, the normaliser and
    the upsert engine.

    Python [str] values are sequences of Unicode code points, so a string is a
    [list Z] here; the SQLite tables are lists of rows in insertion order. *)

From Stdlib.Strings Require Import String Byte.
From Stdlib Require Decimal.
From Stdlib Require Import ZArith List Bool Lia Permutation Sorted.
Import ListNotations.
Local Open Scope Z_scope.

(** ** Python strings *)

Module Py.

Definition char := Z.
Definition str := list char.

Definition str_eqb (a b : str) : bool :=
  if list_eq_dec Z.eq_dec a b then true else false.

(** Truthiness of a string: [if s:] holds for the non-empty ones. *)
Definition truthy (s : str) : bool :=
  match s with [] => false | _ :: _ => true end.

(** [Py_UNICODE_ISSPACE]: the characters that [str.strip], [str.isspace] and
    the regular expression class [\s] treat as white space. *)
Definition isspace (c : char) : bool :=
  ((0x09 <=? c) && (c <=? 0x0D)) || ((0x1C <=? c) && (c <=? 0x20))
  || (c =? 0x85) || (c =? 0xA0) || (c =? 0x1680)
  || ((0x2000 <=? c) && (c <=? 0x200A))
  || (c =? 0x2028) || (c =? 0x2029) || (c =? 0x202F) || (c =? 0x205F)
  || (c =? 0x3000).

(** The line boundaries of [str.splitlines]. *)
Definition islinebreak (c : char) : bool :=
  ((0x0A <=? c) && (c <=? 0x0D)) || ((0x1C <=? c) && (c <=? 0x1E))
  || (c =? 0x85) || (c =? 0x2028) || (c =? 0x2029).

Fixpoint dropwhile (p : char -> bool) (s : str) : str :=
  match s with
  | [] => []
  | c :: s' => if p c then dropwhile p s' else s
  end.

(** [s.lstrip()] *)
Definition lstrip (s : str) : str := dropwhile isspace s.

(** [s.rstrip(chars)]: the longest prefix of [s] whose last character is not
    in the stripped class. *)
Fixpoint rstrip_by (p : char -> bool) (s : str) : str :=
  match s with
  | [] => []
  | c :: s' =>
      match rstrip_by p s' with
      | [] => if p c then [] else [c]
      | r => c :: r
      end
  end.

(** [s.rstrip()] *)
Definition rstrip (s : str) : str := rstrip_by isspace s.

(** [s.strip()] *)
Definition strip (s : str) : str := rstrip (lstrip s).

(** [s.startswith(prefix)] *)
Fixpoint startswith (s prefix : str) : bool :=
  match prefix, s with
  | [], _ => true
  | p :: prefix', c :: s' => (c =? p) && startswith s' prefix'
  | _ :: _, [] => false
  end.

(** [s[n:]] for [n >= 0]. *)
Definition slice_from (n : nat) (s : str) : str := skipn n s.

(** [s.splitlines()]: [line] holds the characters of the line being read,
    last one first.  A line is emitted at each boundary ("\r\n" counts as
    one), and a last line without boundary is emitted when it is not empty. *)
Fixpoint splitlines_from (s : str) (line : str) : list str :=
  match s with
  | [] => match line with [] => [] | _ => [rev line] end
  | c :: s' =>
      if islinebreak c then
        rev line ::
          match s' with
          | c' :: s'' =>
              if (c =? 0x0D) && (c' =? 0x0A) then splitlines_from s'' []
              else splitlines_from s' []
          | [] => splitlines_from s' []
          end
      else splitlines_from s' (c :: line)
  end.

Definition splitlines (s : str) : list str := splitlines_from s [].

(** [s.split()]: the maximal runs of characters that are not white space.
    [word] holds the run being read, last character first. *)
Fixpoint split_from (s : str) (word : str) : list str :=
  match s with
  | [] => match word with [] => [] | _ => [rev word] end
  | c :: s' =>
      if isspace c then
        match word with
        | [] => split_from s' []
        | _ => rev word :: split_from s' []
        end
      else split_from s' (c :: word)
  end.

Definition split (s : str) : list str := split_from s [].

(** [sep.join(parts)] *)
Fixpoint join (sep : str) (parts : list str) : str :=
  match parts with
  | [] => []
  | [p] => p
  | p :: ps => p ++ sep ++ join sep ps
  end.

(** [s.rfind(".")] as an option. *)
Fixpoint rfind (ch : char) (s : str) : option nat :=
  match s with
  | [] => None
  | c :: s' =>
      match rfind ch s' with
      | Some i => Some (S i)
      | None => if c =? ch then Some O else None
      end
  end.

(** Decimal notation of a non-negative integer, as [str(n)] and the
    formatting of [f"{n}"] produce it. *)
Fixpoint str_of_uint (u : Decimal.uint) : str :=
  match u with
  | Decimal.Nil => []
  | Decimal.D0 u' => 0x30 :: str_of_uint u'
  | Decimal.D1 u' => 0x31 :: str_of_uint u'
  | Decimal.D2 u' => 0x32 :: str_of_uint u'
  | Decimal.D3 u' => 0x33 :: str_of_uint u'
  | Decimal.D4 u' => 0x34 :: str_of_uint u'
  | Decimal.D5 u' => 0x35 :: str_of_uint u'
  | Decimal.D6 u' => 0x36 :: str_of_uint u'
  | Decimal.D7 u' => 0x37 :: str_of_uint u'
  | Decimal.D8 u' => 0x38 :: str_of_uint u'
  | Decimal.D9 u' => 0x39 :: str_of_uint u'
  end.

Definition str_of_Z (n : Z) : str :=
  match Z.to_int n with
  | Decimal.Pos u => str_of_uint u
  | Decimal.Neg u => 0x2D :: str_of_uint u
  end.

(** *** UTF-8

    [bytes.decode("utf-8", errors="ignore")]: a well-formed sequence yields
    its code point; at any other byte the decoder drops that byte and goes
    on with the next one.  Bytes are integers in 0..255. *)
Definition is_cont (b : Z) : bool := (0x80 <=? b) && (b <=? 0xBF).

Definition lead2 (b1 : Z) : bool := (0xC2 <=? b1) && (b1 <=? 0xDF).

Definition lead3 (b1 b2 : Z) : bool :=
  ((b1 =? 0xE0) && (0xA0 <=? b2) && (b2 <=? 0xBF))
  || (((0xE1 <=? b1) && (b1 <=? 0xEC)) && is_cont b2)
  || ((b1 =? 0xED) && (0x80 <=? b2) && (b2 <=? 0x9F))
  || (((0xEE <=? b1) && (b1 <=? 0xEF)) && is_cont b2).

Definition lead4 (b1 b2 : Z) : bool :=
  ((b1 =? 0xF0) && (0x90 <=? b2) && (b2 <=? 0xBF))
  || (((0xF1 <=? b1) && (b1 <=? 0xF3)) && is_cont b2)
  || ((b1 =? 0xF4) && (0x80 <=? b2) && (b2 <=? 0x8F)).

Fixpoint utf8_decode (bs : list Z) : str :=
  match bs with
  | [] => []
  | b1 :: r1 =>
      if (0 <=? b1) && (b1 <? 0x80) then b1 :: utf8_decode r1
      else
        match r1 with
        | b2 :: r2 =>
            if lead2 b1 && is_cont b2
            then ((b1 - 0xC0) * 64 + (b2 - 0x80)) :: utf8_decode r2
            else
              match r2 with
              | b3 :: r3 =>
                  if lead3 b1 b2 && is_cont b3
                  then ((b1 - 0xE0) * 4096 + (b2 - 0x80) * 64 + (b3 - 0x80))
                         :: utf8_decode r3
                  else
                    match r3 with
                    | b4 :: r4 =>
                        if lead4 b1 b2 && is_cont b3 && is_cont b4
                        then ((b1 - 0xF0) * 262144 + (b2 - 0x80) * 4096
                              + (b3 - 0x80) * 64 + (b4 - 0x80))
                               :: utf8_decode r4
                        else utf8_decode r1
                    | [] => utf8_decode r1
                    end
              | [] => utf8_decode r1
              end
        | [] => utf8_decode r1
        end
  end.

(** [bytes.decode("utf-8-sig", errors="ignore")]: a byte-order mark at the
    very start is removed before decoding. *)
Definition utf8_sig_decode (bs : list Z) : str :=
  match bs with
  | 0xEF :: 0xBB :: 0xBF :: bs' => utf8_decode bs'
  | _ => utf8_decode bs
  end.

(** Universal newlines of a file opened in text mode: "\r\n" and "\r"
    are read as "\n". *)
Fixpoint translate_newlines (s : str) : str :=
  match s with
  | [] => []
  | c :: s' =>
      if c =? 0x0D then
        0x0A ::
          match s' with
          | c' :: s'' =>
              if c' =? 0x0A then translate_newlines s''
              else translate_newlines s'
          | [] => []
          end
      else c :: translate_newlines s'
  end.

Definition bytes_of_string (s : string) : list Z :=
  map (fun b => Z.of_N (Byte.to_N b)) (list_byte_of_string s).

(** A string literal of the source, written in UTF-8. *)
Definition lit (s : string) : str := utf8_decode (bytes_of_string s).

End Py.

Import Py.

(** ** The importer

    [web_app.py] repeats [normalize_text], [detect_type], [determine_chapter]
    and [parse_blocks] of [import_questions.py] word for word; they are
    embedded once.

    Three things the source takes from its runtime are parameters of the
    development: the Unicode tables behind the regular expression classes
    [\d] and [\w], and whether SQLite's AUTOINCREMENT counter advances on an
    insert that is ignored (its documentation leaves that open). *)

Section Importer.

(** [Py_UNICODE_TODECIMAL]: the value of a decimal digit, for the characters
    that [\d] matches and [int] reads. *)
Variable decimal_value : char -> option Z.

(** [Py_UNICODE_ISALNUM]: with the underscore, the characters of [\w]. *)
Variable isalnum : char -> bool.

(** Whether an ignored INSERT still advances the AUTOINCREMENT counter. *)
Variable burn_rowid : bool.

Local Set Default Proof Using "Type".

Definition LABEL_Q : str := Eval vm_compute in lit "題目：".
Definition LABEL_YOUR : str := Eval vm_compute in lit "你的答案：".
Definition LABEL_CORRECT : str := Eval vm_compute in lit "正確答案：".
Definition LABEL_SCORE : str := Eval vm_compute in lit "得分：".

(** The answer recorded when the transcript holds none: "未作答". *)
Definition UNANSWERED : str := Eval vm_compute in lit "未作答".

(** The two question types: "選擇題" (multiple choice), "填空題" (fill in). *)
Definition TYPE_CHOICE : str := Eval vm_compute in lit "選擇題".
Definition TYPE_BLANK : str := Eval vm_compute in lit "填空題".

Definition UNKNOWN : str := Eval vm_compute in lit "unknown".

(** *** Regular expressions *)

(** [re.sub(r"\s+", " ", s)]; [in_run] tells that the previous character
    belonged to a run of white space already replaced. *)
Fixpoint sub_spaces (in_run : bool) (s : str) : str :=
  match s with
  | [] => []
  | c :: s' =>
      if isspace c
      then if in_run then sub_spaces true s' else 0x20 :: sub_spaces true s'
      else c :: sub_spaces false s'
  end.

Definition is_decimal (c : char) : bool :=
  match decimal_value c with Some _ => true | None => false end.

(** After one digit of [\d+]: either the closing "__]" is here, or one more
    digit is taken. *)
Fixpoint slot_tail (s : str) : bool :=
  startswith s [0x5F; 0x5F; 0x5D]
  || match s with
     | c :: s' => is_decimal c && slot_tail s'
     | [] => false
     end.

(** A match of [\[__\d+__\]] that starts at the head of [s]. *)
Definition slot_here (s : str) : bool :=
  match s with
  | 0x5B :: 0x5F :: 0x5F :: d :: s' => is_decimal d && slot_tail s'
  | _ => false
  end.

(** [re.search(r"\[__\d+__\]", s)] as a truth value. *)
Fixpoint search_slot (s : str) : bool :=
  slot_here s
  || match s with
     | _ :: s' => search_slot s'
     | [] => false
     end.

Definition is_word (c : char) : bool := isalnum c || (c =? 0x5F).

Definition is_word_opt (c : option char) : bool :=
  match c with Some c => is_word c | None => false end.

(** [\b] between the character before and the character after a position;
    the ends of the string count as non-word characters. *)
Definition boundary (prev next : option char) : bool :=
  xorb (is_word_opt prev) (is_word_opt next).

(** A match of [\bch(\d{1,2})\b] (IGNORECASE) that starts at the head of
    [s], where [prev] is the character before it.  The result is group 1.
    The quantifier is greedy: two digits are tried first. *)
Definition match_ch (prev : option char) (s : str) : option str :=
  match s with
  | c :: h :: d1 :: rest =>
      if boundary prev (Some c)
         && ((c =? 0x63) || (c =? 0x43)) && ((h =? 0x68) || (h =? 0x48))
         && is_decimal d1
      then
        match rest with
        | d2 :: rest' =>
            if is_decimal d2 && boundary (Some d2) (hd_error rest')
            then Some [d1; d2]
            else if boundary (Some d1) (Some d2) then Some [d1] else None
        | [] => if boundary (Some d1) None then Some [d1] else None
        end
      else None
  | _ => None
  end.

(** [re.search(r"\bch(\d{1,2})\b", s, flags=re.IGNORECASE)]: the leftmost
    match, as its group 1. *)
Fixpoint search_ch_from (prev : option char) (s : str) : option str :=
  match match_ch prev s with
  | Some g => Some g
  | None =>
      match s with
      | c :: s' => search_ch_from (Some c) s'
      | [] => None
      end
  end.

Definition search_ch (s : str) : option str := search_ch_from None s.

(** [int(s)] for a string of decimal digits; [None] stands for the
    [ValueError] raised on anything else. *)
Fixpoint int_from (acc : Z) (s : str) : option Z :=
  match s with
  | [] => Some acc
  | c :: s' =>
      match decimal_value c with
      | Some v => int_from (10 * acc + v) s'
      | None => None
      end
  end.

Definition int_of_str (s : str) : option Z :=
  match s with
  | [] => None
  | _ => int_from 0 s
  end.

(** *** [normalize_text] and [detect_type] *)

Definition normalize_text (s : str) : str := sub_spaces false (strip s).

Definition detect_type (question : str) : str :=
  if search_slot question then TYPE_BLANK else TYPE_CHOICE.

(** *** Paths

    A [pathlib] path: the anchor (drive and root, possibly empty) and the
    components after it. *)
Record Path := { anchor : str; tail : list str }.

(** [path.parts] *)
Definition parts (p : Path) : list str :=
  (if truthy (anchor p) then [anchor p] else []) ++ tail p.

(** [path.name]: the last component, empty when there is none. *)
Definition name (p : Path) : str := last (tail p) [].

(** [path.stem]: the name without its last suffix. *)
Definition stem (p : Path) : str :=
  let n := name p in
  match rfind 0x2E n with
  | Some i =>
      if (0 <? i)%nat && (i <? length n - 1)%nat then firstn i n else n
  | None => n
  end.

(** *** [determine_chapter] *)

(** The [for] loop.  [None] is an exception ([int] failing); [Some None] is
    the end of the loop without a [return]. *)
Fixpoint chapter_of_parts (ps : list str) : option (option str) :=
  match ps with
  | [] => Some None
  | part :: ps' =>
      match search_ch part with
      | Some g =>
          match int_of_str g with
          | Some n =>
              if (0 <=? n) && (n <=? 10)
              then Some (Some ([0x63; 0x68] ++ str_of_Z n))
              else chapter_of_parts ps'
          | None => None
          end
      | None => chapter_of_parts ps'
      end
  end.

Definition determine_chapter (path : Path) (fallback : option str)
  : option str :=
  match chapter_of_parts (stem path :: rev (parts path)) with
  | Some (Some chapter) => Some chapter
  | Some None =>
      match fallback with
      | Some f => if truthy f then Some f else Some UNKNOWN
      | None => Some UNKNOWN
      end
  | None => None
  end.

(** *** [parse_blocks] *)

Record Entry := { question : str; your : list str; correct : list str }.

(** [flush()]: the open entry, if any, goes to the end of [entries]. *)
Definition flush (cur : option Entry) (entries : list Entry)
  : option Entry * list Entry :=
  match cur with
  | Some e => (None, entries ++ [e])
  | None => (None, entries)
  end.

Definition is_some {A : Type} (o : option A) : bool :=
  match o with Some _ => true | None => false end.

(** The [break] condition of the loop after a your-answer line. *)
Definition stop_your (peek : str) : bool :=
  startswith peek LABEL_CORRECT || startswith peek LABEL_Q
  || startswith peek LABEL_SCORE.

(** The [break] condition of the loop after a correct-answer line. *)
Definition stop_correct (peek : str) : bool :=
  startswith peek LABEL_Q || startswith peek LABEL_SCORE
  || startswith peek LABEL_YOUR.

(** The inner [while] loops.  [lines] is [lines[i:]]; the result is the
    answers collected and the lines left, from the line that stopped the
    loop on. *)
Fixpoint collect (stop : str -> bool) (lines : list str) (answers : list str)
  : list str * list str :=
  match lines with
  | [] => (answers, [])
  | l :: lines' =>
      let peek := strip l in
      if stop peek then (answers, lines)
      else collect stop lines'
             (if str_eqb peek [] then answers else answers ++ [peek])
  end.

(** The text after a label on its own line, as the first answer when it is
    not empty. *)
Definition first_answer (label line : str) : list str :=
  let rest := strip (slice_from (length label) line) in
  if truthy rest then [rest] else [].

Definition set_your (cur : option Entry) (answers : list str) : option Entry :=
  option_map (fun e => {| question := question e; your := answers;
                          correct := correct e |}) cur.

Definition set_correct (cur : option Entry) (answers : list str)
  : option Entry :=
  option_map (fun e => {| question := question e; your := your e;
                          correct := answers |}) cur.

(** The outer [while] loop.  Each round takes at least one line; [fuel]
    bounds the number of rounds, and [None] means that it ran out. *)
Fixpoint scan (fuel : nat) (lines : list str) (cur : option Entry)
  (entries : list Entry) : option (list Entry) :=
  match lines with
  | [] => Some (snd (flush cur entries))
  | raw :: rest =>
      match fuel with
      | O => None
      | S fuel' =>
          let line := strip raw in
          if startswith line LABEL_Q then
            let q := strip (slice_from (length LABEL_Q) line) in
            scan fuel' rest
              (Some {| question := q; your := []; correct := [] |})
              (snd (flush cur entries))
          else if startswith line LABEL_YOUR && is_some cur then
            let '(answers, rest') :=
              collect stop_your rest (first_answer LABEL_YOUR line) in
            scan fuel' rest' (set_your cur answers) entries
          else if startswith line LABEL_CORRECT && is_some cur then
            let '(answers, rest') :=
              collect stop_correct rest (first_answer LABEL_CORRECT line) in
            scan fuel' rest' (set_correct cur answers) entries
          else scan fuel' rest cur entries
      end
  end.

(** [lines = [l.rstrip("\n") for l in text.splitlines()]] *)
Definition lines_of (text : str) : list str :=
  map (rstrip_by (fun c => c =? 0x0A)) (splitlines text).

Definition parse_lines (lines : list str) : option (list Entry) :=
  scan (length lines) lines None [].

Definition parse_blocks (text : str) : option (list Entry) :=
  parse_lines (lines_of text).

(** *** The store: the two tables of [DDL]

    A table is the list of its rows in insertion order.  [created_at] is the
    reading of the clock, passed to the engine as [now]: the engine reads
    the clock for every INSERT, and one reading stands here for all the
    readings of a batch; nothing below asserts that two rows of a table
    carry the same [created_at].  [seq_questions] and [seq_answers] are the AUTOINCREMENT counters
    of [sqlite_sequence]. *)

Record QuestionRow := {
  q_id : Z;
  q_chapter : str;
  q_text : str;
  q_text_norm : str;
  q_type : str;
  q_source_file : str;
  q_created_at : Z
}.

Record AnswerRow := {
  a_id : Z;
  a_question_id : Z;
  a_position : Z;
  a_answer_text : str;
  a_created_at : Z
}.

Record Store := {
  questions : list QuestionRow;
  answers : list AnswerRow;
  seq_questions : Z;
  seq_answers : Z
}.

Definition empty_store : Store :=
  {| questions := []; answers := []; seq_questions := 0; seq_answers := 0 |}.

(** The row id of an AUTOINCREMENT table: one more than the largest id the
    table holds or has ever handed out. *)
Definition next_rowid (ids : list Z) (seq : Z) : Z :=
  Z.max seq (fold_right Z.max 0 ids) + 1.

(** [CHECK (q_type IN ('選擇題','填空題'))] *)
Definition check_q_type (t : str) : bool :=
  str_eqb t TYPE_CHOICE || str_eqb t TYPE_BLANK.

(** [UNIQUE(chapter, q_text_norm)] *)
Definition same_question (chapter q_norm : str) (r : QuestionRow) : bool :=
  str_eqb (q_chapter r) chapter && str_eqb (q_text_norm r) q_norm.

(** [UNIQUE(question_id, position, answer_text)] *)
Definition same_answer (qid idx : Z) (ans : str) (r : AnswerRow) : bool :=
  (a_question_id r =? qid) && (a_position r =? idx)
  && str_eqb (a_answer_text r) ans.

(** [INSERT OR IGNORE INTO questions (...) VALUES (...)]: the new store and
    [Some lastrowid] when [rowcount] is 1, [None] when the row was ignored. *)
Definition insert_question (now : Z) (s : Store)
  (chapter q q_norm qtype source_file : str) : Store * option Z :=
  let rowid := next_rowid (map q_id (questions s)) (seq_questions s) in
  if check_q_type qtype
     && negb (existsb (same_question chapter q_norm) (questions s))
  then
    ({| questions :=
          questions s ++
            [{| q_id := rowid; q_chapter := chapter; q_text := q;
                q_text_norm := q_norm; q_type := qtype;
                q_source_file := source_file; q_created_at := now |}];
        answers := answers s;
        seq_questions := rowid;
        seq_answers := seq_answers s |},
     Some rowid)
  else
    ({| questions := questions s;
        answers := answers s;
        seq_questions := if burn_rowid then rowid else seq_questions s;
        seq_answers := seq_answers s |},
     None).

(** [SELECT id FROM questions WHERE chapter=? AND q_text_norm=?] followed by
    [fetchone()]. *)
Definition select_question_id (s : Store) (chapter q_norm : str) : option Z :=
  option_map q_id (find (same_question chapter q_norm) (questions s)).

(** [INSERT OR IGNORE INTO answers (...) VALUES (...)]: the new store and
    whether [rowcount] is 1.  The foreign key is not checked here: the engine
    only passes ids of rows of [questions] (see [upsert_entries_keeps_store]). *)
Definition insert_answer (now : Z) (s : Store) (qid idx : Z) (ans : str)
  : Store * bool :=
  let rowid := next_rowid (map a_id (answers s)) (seq_answers s) in
  if negb (existsb (same_answer qid idx ans) (answers s))
  then
    ({| questions := questions s;
        answers :=
          answers s ++
            [{| a_id := rowid; a_question_id := qid; a_position := idx;
                a_answer_text := ans; a_created_at := now |}];
        seq_questions := seq_questions s;
        seq_answers := rowid |},
     true)
  else
    ({| questions := questions s;
        answers := answers s;
        seq_questions := seq_questions s;
        seq_answers := if burn_rowid then rowid else seq_answers s |},
     false).

(** *** [upsert_entries] *)

Record Stats := {
  inserted_questions : Z;
  duplicates_skipped : Z;
  skipped_unanswered : Z;
  inserted_answers : Z
}.

Definition no_stats : Stats :=
  {| inserted_questions := 0; duplicates_skipped := 0;
     skipped_unanswered := 0; inserted_answers := 0 |}.

Definition count_inserted_q (c : Stats) : Stats :=
  {| inserted_questions := inserted_questions c + 1;
     duplicates_skipped := duplicates_skipped c;
     skipped_unanswered := skipped_unanswered c;
     inserted_answers := inserted_answers c |}.

Definition count_skipped_q (c : Stats) : Stats :=
  {| inserted_questions := inserted_questions c;
     duplicates_skipped := duplicates_skipped c + 1;
     skipped_unanswered := skipped_unanswered c;
     inserted_answers := inserted_answers c |}.

Definition count_unanswered (c : Stats) : Stats :=
  {| inserted_questions := inserted_questions c;
     duplicates_skipped := duplicates_skipped c;
     skipped_unanswered := skipped_unanswered c + 1;
     inserted_answers := inserted_answers c |}.

Definition count_inserted_a (c : Stats) : Stats :=
  {| inserted_questions := inserted_questions c;
     duplicates_skipped := duplicates_skipped c;
     skipped_unanswered := skipped_unanswered c;
     inserted_answers := inserted_answers c + 1 |}.

(** [[a.strip() for a in e.get("correct", []) if a.strip() != ""]] *)
Definition clean_correct (e : Entry) : list str :=
  map strip (filter (fun a => negb (str_eqb (strip a) [])) (correct e)).

(** [len(correct) == 0 or (len(correct) == 1 and correct[0] == "未作答")] *)
Definition unanswered (correct : list str) : bool :=
  (length correct =? 0)%nat
  || ((length correct =? 1)%nat && str_eqb (nth 0 correct []) UNANSWERED).

(** [for idx, ans in enumerate(correct, start=1)], from position [idx] on. *)
Fixpoint insert_answers (now qid idx : Z) (correct : list str)
  (st : Store * Stats) : Store * Stats :=
  match correct with
  | [] => st
  | ans :: correct' =>
      let '(s, c) := st in
      let '(s', inserted) := insert_answer now s qid idx ans in
      insert_answers now qid (idx + 1) correct'
        (s', if inserted then count_inserted_a c else c)
  end.

(** One round of [for e in entries]. *)
Definition upsert_entry (now : Z) (chapter source_file : str)
  (st : Store * Stats) (e : Entry) : Store * Stats :=
  let '(s, c) := st in
  let q := strip (question e) in
  let correct := clean_correct e in
  if unanswered correct then (s, count_unanswered c)
  else
    let q_norm := normalize_text q in
    let qtype := detect_type q in
    match insert_question now s chapter q q_norm qtype source_file with
    | (s1, Some qid) =>
        insert_answers now qid 1 correct (s1, count_inserted_q c)
    | (s1, None) =>
        match select_question_id s1 chapter q_norm with
        | None => (s1, count_skipped_q c)
        | Some qid =>
            insert_answers now qid 1 correct (s1, count_skipped_q c)
        end
    end.

Definition upsert_entries (now : Z) (s : Store) (entries : list Entry)
  (chapter source_file : str) : Store * Stats :=
  fold_left (upsert_entry now chapter source_file) entries (s, no_stats).

(** *** [main]: one round of [for f in files]

    [content] is the file as bytes, [f_str] is [str(f)], [chapter_arg] and
    [encoding] are the command line options ([--encoding] is "utf-8" unless
    given).  [None] is an exception. *)
Inductive Encoding := UTF_8 | UTF_8_SIG.

Definition read_text (encoding : Encoding) (content : list Z) : str :=
  translate_newlines
    match encoding with
    | UTF_8 => utf8_decode content
    | UTF_8_SIG => utf8_sig_decode content
    end.

Definition import_file (now : Z) (encoding : Encoding)
  (chapter_arg : option str) (s : Store) (f : Path) (f_str : str)
  (content : list Z) : option (Store * Stats) :=
  match determine_chapter f chapter_arg with
  | Some chapter =>
      match parse_blocks (read_text encoding content) with
      | Some entries => Some (upsert_entries now s entries chapter f_str)
      | None => None
      end
  | None => None
  end.

(** [grand_totals[k] += v] for the four counters. *)
Definition add_stats (a b : Stats) : Stats :=
  {| inserted_questions := inserted_questions a + inserted_questions b;
     duplicates_skipped := duplicates_skipped a + duplicates_skipped b;
     skipped_unanswered := skipped_unanswered a + skipped_unanswered b;
     inserted_answers := inserted_answers a + inserted_answers b |}.

(** A file found by [gather_files]: its path, [str(f)] and its bytes. *)
Record InputFile := { f_path : Path; f_str : str; f_content : list Z }.

(** [for f in files]: [clock i] is the reading of the clock while the file
    of index [i] is imported.  [None] is an exception. *)
Fixpoint main_loop (clock : nat -> Z) (i : nat) (encoding : Encoding)
  (chapter_arg : option str) (files : list InputFile)
  (s : Store) (grand_totals : Stats) : option (Store * Stats) :=
  match files with
  | [] => Some (s, grand_totals)
  | f :: files' =>
      match import_file (clock i) encoding chapter_arg s
              (f_path f) (f_str f) (f_content f) with
      | Some (s', stats) =>
          main_loop clock (S i) encoding chapter_arg files' s'
            (add_stats grand_totals stats)
      | None => None
      end
  end.

(** How [main] ends: [sys.exit(1)] when no file was found, the store and the
    grand totals after the last file, or an exception. *)
Inductive Outcome :=
| Exit (code : Z)
| Done (s : Store) (grand_totals : Stats)
| Raised.

(** [main], after the command line is read and [gather_files] has listed
    [files]. *)
Definition main (clock : nat -> Z) (encoding : Encoding)
  (chapter_arg : option str) (s : Store) (files : list InputFile) : Outcome :=
  match files with
  | [] => Exit 1
  | _ =>
      match main_loop clock 0 encoding chapter_arg files s no_stats with
      | Some (s', grand_totals) => Done s' grand_totals
      | None => Raised
      end
  end.

(** ** The upload handler of [web_app.py] *)

(** [import_questions_from_entries]: the loop of [upsert_entries] again. *)
Definition import_questions_from_entries (now : Z) (s : Store)
  (entries : list Entry) (chapter source_file : str) : Store * Stats :=
  fold_left
    (fun (st : Store * Stats) (e : Entry) =>
       let '(s, c) := st in
       let q := strip (question e) in
       let correct := clean_correct e in
       if unanswered correct then (s, count_unanswered c)
       else
         let q_norm := normalize_text q in
         let qtype := detect_type q in
         match insert_question now s chapter q q_norm qtype source_file with
         | (s1, Some qid) =>
             insert_answers now qid 1 correct (s1, count_inserted_q c)
         | (s1, None) =>
             match select_question_id s1 chapter q_norm with
             | None => (s1, count_skipped_q c)
             | Some qid =>
                 insert_answers now qid 1 correct (s1, count_skipped_q c)
             end
         end)
    entries (s, no_stats).

(** The two ways content reaches [import_questions]: text pasted into the
    form, or an uploaded file (taken here to have passed [allowed_file]). *)
Inductive Submission :=
| PastedText (text_content : str)
| UploadedFile (data : list Z) (filename : str).

Definition DIRECT_TEXT : str := Eval vm_compute in lit "Direct Text Input".

(** [content] and [source_info]; [None] when the request is turned down. *)
Definition submitted_content (m : Submission) : option (str * str) :=
  match m with
  | PastedText text_content =>
      let content := strip text_content in
      if truthy content then Some (content, DIRECT_TEXT) else None
  | UploadedFile data filename => Some (utf8_sig_decode data, filename)
  end.

(** The POST branch of [import_questions], for a chapter tag that passed the
    format check and was lower-cased.  [None] is a request that ends without
    an import. *)
Definition import_questions (now : Z) (s : Store) (chapter : str)
  (m : Submission) : option (Store * Stats) :=
  match submitted_content m with
  | Some (content, source_info) =>
      if truthy content then
        match parse_blocks content with
        | Some [] => None
        | Some entries =>
            Some (import_questions_from_entries now s entries chapter
                    source_info)
        | None => None
        end
      else None
  | None => None
  end.

(** [api_import_preview]: one item of the preview. *)
Record PreviewItem := {
  p_question : str;
  p_type : str;
  p_answers : list str
}.

(** The content [api_import_preview] parses: pasted text is stripped and
    refused when empty; an uploaded file (taken to have passed
    [allowed_file]) is decoded.  [None] is an error answer. *)
Definition preview_content (m : Submission) : option str :=
  match m with
  | PastedText text_content =>
      let content := strip text_content in
      if truthy content then Some content else None
  | UploadedFile data filename => Some (utf8_sig_decode data)
  end.

(** [api_import_preview]: [total_questions] and [preview] of the answer;
    [None] is an error answer. *)
Definition api_import_preview (m : Submission)
  : option (nat * list PreviewItem) :=
  match preview_content m with
  | Some content =>
      match parse_blocks content with
      | Some entries =>
          Some (length entries,
                map (fun entry =>
                       {| p_question := question entry;
                          p_type := detect_type (question entry);
                          p_answers := correct entry |})
                    (firstn 5 entries))
      | None => None
      end
  | None => None
  end.

(** ** The read side of [web_app.py]

    The query functions of the pages, over the same two tables. *)

(** TEXT values compare byte by byte in UTF-8 (the BINARY collation); on
    strings of code points that is the lexicographic order of the code
    points, a proper prefix first. *)
Fixpoint str_leb (a b : str) : bool :=
  match a, b with
  | [], _ => true
  | _ :: _, [] => false
  | x :: a', y :: b' =>
      if x <? y then true else if y <? x then false else str_leb a' b'
  end.

Definition is_total {A : Type} (le : A -> A -> bool) : Prop :=
  forall a b, le a b = true \/ le b a = true.

Definition is_transitive {A : Type} (le : A -> A -> bool) : Prop :=
  forall a b c, le a b = true -> le b c = true -> le a c = true.

(** What SQL promises of a sort: the rows come back rearranged, and in
    order whenever [le] is a total preorder. *)
Definition sorts (sort : forall A : Type, (A -> A -> bool) -> list A -> list A)
  : Prop :=
  forall (A : Type) (le : A -> A -> bool) (l : list A),
    Permutation (sort A le l) l
    /\ (is_total le -> is_transitive le ->
        StronglySorted (fun a b => le a b = true) (sort A le l)).

(** [ORDER BY] leaves the order of rows with equal keys to the engine, and a
    query without it leaves the whole order to the engine; so the engine's
    sort is an argument of the queries. *)
Variable order_by : forall A : Type, (A -> A -> bool) -> list A -> list A.

Hypothesis order_by_sorts : sorts order_by.

(** The order of a query that has no [ORDER BY]. *)
Definition any_order {A : Type} (a b : A) : bool := true.

(** [SELECT DISTINCT] and [GROUP BY]: each value once. *)
Definition distinct (l : list str) : list str := nodup (list_eq_dec Z.eq_dec) l.

(** [SELECT DISTINCT chapter FROM questions ORDER BY chapter] *)
Definition get_chapters (s : Store) : list str :=
  order_by str str_leb (distinct (map q_chapter (questions s))).

(** [SELECT answer_text, position FROM answers WHERE question_id = ?
    ORDER BY position], and [answer_row[0]] of each row. *)
Definition by_position (a b : AnswerRow) : bool := a_position a <=? a_position b.

Definition answers_of (s : Store) (question_id : Z) : list str :=
  map a_answer_text
    (order_by AnswerRow by_position
       (filter (fun a => a_question_id a =? question_id) (answers s))).

(** The dict a page gets for a question; [get_questions_by_chapter] leaves
    the key ['chapter'] out. *)
Record QuestionView := {
  v_id : Z;
  v_chapter : option str;
  v_question : str;
  v_type : str;
  v_source_file : str;
  v_created_at : Z;
  v_answers : list str
}.

(** One round of [for row in cursor.fetchall()]. *)
Definition question_view (with_chapter : bool) (s : Store) (row : QuestionRow)
  : QuestionView :=
  {| v_id := q_id row;
     v_chapter := if with_chapter then Some (q_chapter row) else None;
     v_question := q_text row;
     v_type := q_type row;
     v_source_file := q_source_file row;
     v_created_at := q_created_at row;
     v_answers := answers_of s (q_id row) |}.

Definition by_id (a b : QuestionRow) : bool := q_id a <=? q_id b.

(** [... FROM questions WHERE chapter = ? ORDER BY id] *)
Definition get_questions_by_chapter (s : Store) (chapter : str)
  : list QuestionView :=
  map (question_view false s)
    (order_by QuestionRow by_id
       (filter (fun r => str_eqb (q_chapter r) chapter) (questions s))).

(** [ORDER BY q.chapter, q.id] *)
Definition by_chapter_and_id (a b : QuestionRow) : bool :=
  if str_eqb (q_chapter a) (q_chapter b) then q_id a <=? q_id b
  else str_leb (q_chapter a) (q_chapter b).

Definition get_all_questions (s : Store) : list QuestionView :=
  map (question_view true s)
    (order_by QuestionRow by_chapter_and_id (questions s)).

(** *** [LIKE]

    SQLite's [LIKE] without [ESCAPE]: [%] stands for any run of characters,
    [_] for any one character, the letters of ASCII match in either case and
    every other character matches itself.  Both operands are read as C
    strings, that is up to the first NUL.  A pattern of more than 50000
    bytes is refused with an error. *)
Definition LIKE_PATTERN_LENGTH : Z := 50000.

Definition utf8_length (s : str) : Z :=
  fold_right
    (fun c n =>
       (if c <? 0x80 then 1 else if c <? 0x800 then 2
        else if c <? 0x10000 then 3 else 4) + n)
    0 s.

Fixpoint until_nul (s : str) : str :=
  match s with
  | [] => []
  | c :: s' => if c =? 0 then [] else c :: until_nul s'
  end.

Definition lower_ascii (c : char) : char :=
  if (0x41 <=? c) && (c <=? 0x5A) then c + 0x20 else c.

Definition like_char (p c : char) : bool :=
  (p =? c)
  || ((p <? 0x80) && (c <? 0x80) && (lower_ascii p =? lower_ascii c)).

Fixpoint like_from (pattern text : str) {struct pattern} : bool :=
  match pattern with
  | [] => match text with [] => true | _ :: _ => false end
  | p :: pattern' =>
      if p =? 0x25 then
        (fix any (t : str) : bool :=
           like_from pattern' t
           || match t with [] => false | _ :: t' => any t' end) text
      else
        match text with
        | [] => false
        | c :: text' =>
            ((p =? 0x5F) || like_char p c) && like_from pattern' text'
        end
  end.

(** [text LIKE pattern] *)
Definition sql_like (text pattern : str) : bool :=
  like_from (until_nul pattern) (until_nul text).

(** [search_questions]; [None] is the [sqlite3.OperationalError] of a
    pattern that is too long, raised when the first row is examined. *)
Definition search_questions (s : Store) (keyword : str)
  : option (list QuestionView) :=
  let pattern := [0x25] ++ keyword ++ [0x25] in
  match questions s with
  | [] => Some []
  | _ :: _ =>
      if LIKE_PATTERN_LENGTH <? utf8_length pattern then None
      else
        Some
          (map (question_view true s)
             (order_by QuestionRow by_chapter_and_id
                (filter
                   (fun r => sql_like (q_text r) pattern
                             || sql_like (q_chapter r) pattern)
                   (questions s))))
  end.

(** *** [get_statistics]

    [dict(cursor.fetchall())] keeps the rows in the order of the query, one
    per key. *)
Record Statistics := {
  total_questions : Z;
  chapter_stats : list (str * Z);
  type_stats : list (str * Z)
}.

(** [COUNT( * )] of the group of [key]. *)
Definition group_count (column : QuestionRow -> str) (s : Store) (key : str)
  : Z :=
  Z.of_nat (length (filter (fun r => str_eqb (column r) key) (questions s))).

Definition get_statistics (s : Store) : Statistics :=
  {| total_questions := Z.of_nat (length (questions s));
     chapter_stats :=
       map (fun chapter => (chapter, group_count q_chapter s chapter))
         (order_by str str_leb (distinct (map q_chapter (questions s))));
     type_stats :=
       map (fun t => (t, group_count q_type s t))
         (order_by str any_order (distinct (map q_type (questions s)))) |}.

(** ** Notions used to state the properties *)

(** The two Unicode tables on the ASCII characters. *)
Definition ascii_decimal (c : char) : option Z :=
  if (0x30 <=? c) && (c <=? 0x39) then Some (c - 0x30) else None.

Definition ascii_alnum (c : char) : bool :=
  ((0x30 <=? c) && (c <=? 0x39)) || ((0x41 <=? c) && (c <=? 0x5A))
  || ((0x61 <=? c) && (c <=? 0x7A)).

Definition ascii_like : Prop :=
  forall c, 0 <= c < 128 ->
    decimal_value c = ascii_decimal c /\ isalnum c = ascii_alnum c.

Definition is_ascii (s : str) : bool :=
  forallb (fun c => (0 <=? c) && (c <? 128)) s.

(** The accepted chapter numbers. *)
Definition in_range (n : Z) : bool := (0 <=? n) && (n <=? 10).

(** The segments of a path in the order they are examined: the stem of the
    file name, then the components from the innermost to the root. *)
Definition segments (path : Path) : list str := stem path :: rev (parts path).

(** What the loop computes for a segment: [int] of the group of
    [re.search]. *)
Definition segment_number (part : str) : option Z :=
  match search_ch part with
  | Some g => int_of_str g
  | None => None
  end.

Definition yields_chapter (part : str) : bool :=
  match segment_number part with
  | Some n => in_range n
  | None => false
  end.

Definition chapter_tag (n : Z) : str := [0x63; 0x68] ++ str_of_Z n.

(** The loop of [determine_chapter] as a search over the segments, still
    with the search of the code inside ([segment_number]); the specification
    in its own words is [resolves_to] below. *)
Definition chapter_by_find (path : Path) (override : option str) : str :=
  match find yields_chapter (segments path) with
  | Some part =>
      match segment_number part with
      | Some n => chapter_tag n
      | None => UNKNOWN
      end
  | None =>
      match override with
      | Some o => o
      | None => UNKNOWN
      end
  end.

(** An override counts when it is not the empty string. *)
Definition provided (override : option str) : option str :=
  match override with
  | Some o => if truthy o then Some o else None
  | None => None
  end.

Definition last_char (s : str) : option char :=
  match s with
  | [] => None
  | _ => Some (last s 0)
  end.

(** *** The chapter resolver in the words of the specification *)

(** The decimal digits are alphanumeric (as [str.isalnum] has it). *)
Definition digits_are_alnum : Prop :=
  forall c, is_decimal c = true -> isalnum c = true.

(** No word character stands at this place: it is an end of the string, or
    a character that is neither alphanumeric nor "_". *)
Definition no_word_char (c : option char) : Prop :=
  match c with
  | Some c => isalnum c = false /\ c <> 0x5F
  | None => True
  end.

(** The character in front of a place that comes after [pre], in a string
    that follows the character [prev]. *)
Definition char_before (prev : option char) (pre : str) : option char :=
  match pre with
  | [] => prev
  | _ :: _ => last_char pre
  end.

(** "ch", in either case, followed by the one or two decimal digits [g],
    stands as a whole word in [s], after [pre] and before [post]. *)
Definition ch_token_in (prev : option char) (s pre g post : str) : Prop :=
  exists c h,
    s = pre ++ c :: h :: g ++ post
    /\ (c = 0x63 \/ c = 0x43) /\ (h = 0x68 \/ h = 0x48)
    /\ (length g = 1 \/ length g = 2)%nat
    /\ Forall (fun d => is_decimal d = true) g
    /\ no_word_char (char_before prev pre)
    /\ no_word_char (hd_error post).

Definition ch_token_at (part pre g post : str) : Prop :=
  ch_token_in None part pre g post.

(** The match of a segment: its leftmost token. *)
Definition first_ch_token (part g : str) : Prop :=
  exists pre post,
    ch_token_at part pre g post
    /\ forall pre' g' post',
         ch_token_at part pre' g' post' -> (length pre <= length pre')%nat.

(** The segment has a match, of value [n]. *)
Definition segment_matches (part : str) (n : Z) : Prop :=
  exists g, first_ch_token part g /\ int_of_str g = Some n.

Definition has_no_token (part : str) : Prop :=
  forall pre g post, ~ ch_token_at part pre g post.

(** A segment the resolver passes over: it has no match, or the value of
    its match is out of range. *)
Definition passed_over (part : str) : Prop :=
  has_no_token part \/ exists n, segment_matches part n /\ in_range n = false.

(** The chapter the specification gives for a path: the tag of the first
    segment, in the order of [segments], whose match has a value in range;
    [default] when every segment is passed over. *)
Definition resolves_to (path : Path) (default chapter : str) : Prop :=
  (exists before part after n,
      segments path = before ++ part :: after
      /\ Forall passed_over before
      /\ segment_matches part n
      /\ in_range n = true
      /\ chapter = chapter_tag n)
  \/ (Forall passed_over (segments path) /\ chapter = default).

(** "The override if provided, otherwise unknown". *)
Definition default_as_claimed (override : option str) : str :=
  match override with
  | Some o => o
  | None => UNKNOWN
  end.

(** A file name with two tokens, the first out of range. *)
Definition two_tokens_path : Path :=
  {| anchor := []; tail := [lit "ch99-ch3.txt"] |}.

(** A line that opens an entry, and the question it carries. *)
Definition is_question_line (l : str) : bool := startswith (strip l) LABEL_Q.

Definition question_of (l : str) : str :=
  strip (slice_from (length LABEL_Q) (strip l)).

(** A line that begins with one of the four markers. *)
Definition has_marker (l : str) : bool :=
  startswith (strip l) LABEL_Q || startswith (strip l) LABEL_YOUR
  || startswith (strip l) LABEL_CORRECT || startswith (strip l) LABEL_SCORE.

(** The questions of the entries the scan has in hand: those flushed, then
    the open one. *)
Definition questions_so_far (cur : option Entry) (entries : list Entry)
  : list str :=
  map question entries
  ++ match cur with Some e => [question e] | None => [] end.

(** The transcript of the end-to-end example. *)
Definition example_text : str := Eval vm_compute in lit
"題目：作業系統的主要功能是？
你的答案：A
正確答案：A
管理硬體資源

題目：[__1__]是分頁機制
正確答案：未作答".

(** *** Sample data *)

Definition sample_entry : Entry :=
  {| question := lit "What  is paging?";
     your := [];
     correct := [lit "A"; lit " a scheme "] |}.

(** The same words in another layout. *)
Definition sample_variant : Entry :=
  {| question := lit " What is	paging? ";
     your := [lit "B"];
     correct := [lit "A"; lit " a scheme "] |}.

(** The sample entry with other user answers. *)
Definition sample_variant_your : Entry :=
  {| question := lit "What  is paging?";
     your := [lit "B"; lit "C"];
     correct := [lit "A"; lit " a scheme "] |}.

Definition sample_unanswered : Entry :=
  {| question := lit "Q"; your := []; correct := [lit " 未作答 "] |}.

Definition sample_row : QuestionRow :=
  {| q_id := 1; q_chapter := lit "ch1"; q_text := lit "What  is paging?";
     q_text_norm := lit "What is paging?"; q_type := TYPE_CHOICE;
     q_source_file := lit "a.txt"; q_created_at := 0 |}.

Definition sample_store : Store :=
  {| questions := [sample_row]; answers := [];
     seq_questions := 1; seq_answers := 0 |}.

Definition notes_path : Path := {| anchor := []; tail := [lit "notes.txt"] |}.

(** A transcript of one entry, as bytes, and the same behind a byte-order
    mark. *)
Definition plain_file : list Z := Eval vm_compute in bytes_of_string
"題目：Q
正確答案：A".

Definition bom_file : list Z := 0xEF :: 0xBB :: 0xBF :: plain_file.

(** The transcript as a file that [gather_files] found. *)
Definition sample_file : InputFile :=
  {| f_path := notes_path; f_str := lit "notes.txt"; f_content := plain_file |}.

(** A word: a non-empty string without white space. *)
Definition is_word_str (w : str) : Prop :=
  w <> [] /\ Forall (fun c => isspace c = false) w.

(** An answer as the parser stores it: not empty, and trimmed. *)
Definition clean_answer (a : str) : Prop := a <> [] /\ strip a = a.

(** An entry whose question and answers are trimmed, with no empty answer. *)
Definition clean_entry (e : Entry) : Prop :=
  strip (question e) = question e
  /\ Forall clean_answer (your e)
  /\ Forall clean_answer (correct e).

(** The entry that a question line opens. *)
Definition opened_by (l : str) : Entry :=
  {| question := question_of l; your := []; correct := [] |}.

(** At most one answer row for a question, position and text (the unique
    index of [answers]). *)
Definition answer_keys (s : Store) : list (Z * Z * str) :=
  map (fun a => (a_question_id a, a_position a, a_answer_text a)) (answers s).

Definition answers_unique (s : Store) : Prop := NoDup (answer_keys s).

(** A question row as the engine writes it for a batch.  Nothing is said of
    [created_at]: the engine reads the clock for each row. *)
Definition question_row_written (chapter source_file : str)
  (r : QuestionRow) : Prop :=
  q_chapter r = chapter
  /\ q_source_file r = source_file
  /\ strip (q_text r) = q_text r
  /\ q_text_norm r = normalize_text (q_text r)
  /\ q_type r = detect_type (q_text r)
  /\ check_q_type (q_type r) = true.

(** An answer row as the engine writes it. *)
Definition answer_row_written (a : AnswerRow) : Prop :=
  1 <= a_position a
  /\ clean_answer (a_answer_text a).

(** A sort that does what [sorts] asks: insertion sort. *)
Fixpoint insert_sorted {A : Type} (le : A -> A -> bool) (x : A) (l : list A)
  : list A :=
  match l with
  | [] => [x]
  | y :: l' => if le x y then x :: l else y :: insert_sorted le x l'
  end.

Definition insertion_sort (A : Type) (le : A -> A -> bool) (l : list A)
  : list A :=
  fold_right (insert_sorted le) [] l.

(** [keyword] occurs in [text], the letters of ASCII in either case. *)
Definition occurs_in (keyword text : str) : Prop :=
  exists pre mid post : str,
    text = pre ++ mid ++ post
    /\ Forall2 (fun k c => like_char k c = true) keyword mid.

(** A keyword that [LIKE] reads letter by letter: no wildcard, no NUL. *)
Definition plain_keyword (keyword : str) : Prop :=
  Forall (fun c => c <> 0x25 /\ c <> 0x5F /\ c <> 0) keyword.

(** The pattern [search_questions] builds, and the items it matches. *)
Definition search_pattern (keyword : str) : str :=
  [0x25] ++ keyword ++ [0x25].

Definition hit (keyword : str) (v : QuestionView) : bool :=
  sql_like (v_question v) (search_pattern keyword)
  || match v_chapter v with
     | Some chapter => sql_like chapter (search_pattern keyword)
     | None => false
     end.

(** The counts of a dict of statistics, added up. *)
Definition sum_counts (stats : list (str * Z)) : Z :=
  fold_right Z.add 0 (map snd stats).

(** The dict [question_view] builds, with the key ['chapter'] added. *)
Definition with_chapter (chapter : str) (v : QuestionView) : QuestionView :=
  {| v_id := v_id v;
     v_chapter := Some chapter;
     v_question := v_question v;
     v_type := v_type v;
     v_source_file := v_source_file v;
     v_created_at := v_created_at v;
     v_answers := v_answers v |}.

(** A string that does not end in white space. *)
Fixpoint ends_tidy (s : str) : bool :=
  match s with
  | [] => true
  | c :: s' => match s' with [] => negb (isspace c) | _ => ends_tidy s' end
  end.

(** The surviving correct answers as the specification words them: every
    string trimmed, then the empty ones dropped. *)
Definition trimmed_answers (e : Entry) : list str :=
  filter (fun a => negb (str_eqb a [])) (map strip (correct e)).

(** The dedup key of an entry. *)
Definition entry_key (e : Entry) : str := normalize_text (strip (question e)).

(** An entry that the unanswered filter lets through. *)
Definition survives (e : Entry) : bool := negb (unanswered (clean_correct e)).

(** Every answer row belongs to a question row (the foreign key of [DDL]). *)
Definition answers_owned (s : Store) : Prop :=
  forall a, In a (answers s) ->
    exists q, In q (questions s) /\ q_id q = a_question_id a.

(** At most one question row for a chapter and key (the unique index). *)
Definition question_keys (s : Store) : list (str * str) :=
  map (fun r => (q_chapter r, q_text_norm r)) (questions s).

Definition questions_unique (s : Store) : Prop := NoDup (question_keys s).

(** No two question rows share an id (the primary key). *)
Definition question_ids_unique (s : Store) : Prop :=
  NoDup (map q_id (questions s)).

(** The question row of a chapter and key, if there is one. *)
Definition question_row (s : Store) (chapter key : str) : option QuestionRow :=
  find (same_question chapter key) (questions s).

(** Every answer of [correct], numbered from [idx], has its row for question
    [qid] among [rows]. *)
Fixpoint all_present (rows : list AnswerRow) (qid idx : Z) (correct : list str)
  : bool :=
  match correct with
  | [] => true
  | ans :: correct' =>
      existsb (same_answer qid idx ans) rows
      && all_present rows qid (idx + 1) correct'
  end.

(** The answers of [correct], numbered from [idx], that have no row for
    question [qid] among [rows], as (question, position, text). *)
Fixpoint missing_answers (rows : list AnswerRow) (qid idx : Z)
  (correct : list str) : list (Z * Z * str) :=
  match correct with
  | [] => []
  | ans :: correct' =>
      (if existsb (same_answer qid idx ans) rows then []
       else [(qid, idx, ans)])
      ++ missing_answers rows qid (idx + 1) correct'
  end.

Definition answer_key (a : AnswerRow) : Z * Z * str :=
  (a_question_id a, a_position a, a_answer_text a).

(** An entry on which the engine has nothing left to insert: the filter drops
    it, or its question row and all its answer rows are there. *)
Definition settled (chapter : str) (s : Store) (e : Entry) : Prop :=
  unanswered (clean_correct e) = true
  \/ exists row,
       question_row s chapter (entry_key e) = Some row
       /\ all_present (answers s) (q_id row) 1 (clean_correct e) = true.

(** The constraints of [DDL] that the properties below rely on. *)
Definition store_ok (s : Store) : Prop :=
  questions_unique s /\ question_ids_unique s /\ answers_owned s.

(** The tables of [s'] are those of [s] with rows added at the end. *)
Definition grows (s s' : Store) : Prop :=
  (exists qs, questions s' = questions s ++ qs)
  /\ (exists rows, answers s' = answers s ++ rows).

(** Two stores with the same rows in both tables. *)
Definition same_tables (s s' : Store) : Prop :=
  questions s' = questions s /\ answers s' = answers s.

(** The store after an INSERT into [questions] that went through. *)
Definition with_question (now : Z) (s : Store)
  (chapter q source_file : str) : Store :=
  let rowid := next_rowid (map q_id (questions s)) (seq_questions s) in
  {| questions :=
       questions s ++
         [{| q_id := rowid; q_chapter := chapter; q_text := q;
             q_text_norm := normalize_text q; q_type := detect_type q;
             q_source_file := source_file; q_created_at := now |}];
     answers := answers s;
     seq_questions := rowid;
     seq_answers := seq_answers s |}.

(** The store after an INSERT into [questions] that was ignored. *)
Definition after_ignored_question (s : Store) : Store :=
  {| questions := questions s;
     answers := answers s;
     seq_questions :=
       if burn_rowid
       then next_rowid (map q_id (questions s)) (seq_questions s)
       else seq_questions s;
     seq_answers := seq_answers s |}.

(** The entries [main] reads from a file, and their number over a list of
    files. *)
Definition file_entries (encoding : Encoding) (f : InputFile)
  : option (list Entry) :=
  parse_blocks (read_text encoding (f_content f)).

Definition total_entries (encoding : Encoding) (files : list InputFile) : nat :=
  fold_right
    (fun f n =>
       match file_entries encoding f with
       | Some entries => length entries + n
       | None => n
       end)%nat
    0%nat files.

(** A file on which [main] has nothing left to insert. *)
Definition file_settled (encoding : Encoding) (chapter_arg : option str)
  (s : Store) (f : InputFile) : Prop :=
  exists chapter entries,
    determine_chapter (f_path f) chapter_arg = Some chapter
    /\ file_entries encoding f = Some entries
    /\ Forall (settled chapter s) entries.

(** Two entries that differ at most in the user's answers. *)
Definition same_but_your (e1 e2 : Entry) : Prop :=
  question e1 = question e2 /\ correct e1 = correct e2.

(** ** Properties *)

(** *** Strings *)

Lemma str_eqb_eq (a b : str) : str_eqb a b = true <-> a = b.
Proof.
  unfold str_eqb. destruct (list_eq_dec Z.eq_dec a b); split; congruence.
Qed.

Lemma str_eqb_refl (a : str) : str_eqb a a = true.
Proof. now apply str_eqb_eq. Qed.

Lemma str_eqb_neq (a b : str) : str_eqb a b = false <-> a <> b.
Proof.
  unfold str_eqb. destruct (list_eq_dec Z.eq_dec a b); split; congruence.
Qed.

Example lit_labels :
  LABEL_Q = [0x984C; 0x76EE; 0xFF1A]
  /\ LABEL_YOUR = [0x4F60; 0x7684; 0x7B54; 0x6848; 0xFF1A]
  /\ LABEL_CORRECT = [0x6B63; 0x78BA; 0x7B54; 0x6848; 0xFF1A]
  /\ LABEL_SCORE = [0x5F97; 0x5206; 0xFF1A]
  /\ UNANSWERED = [0x672A; 0x4F5C; 0x7B54].
Proof. repeat split. Qed.

Example splitlines_samples :
  splitlines [] = []
  /\ splitlines (lit "a
") = [lit "a"]
  /\ splitlines (lit "a

b") = [lit "a"; []; lit "b"]
  /\ splitlines [0x61; 0x0D; 0x0A; 0x62; 0x0D; 0x63] = [lit "a"; lit "b"; lit "c"].
Proof. repeat split; vm_compute; reflexivity. Qed.

Example strip_sample : strip (lit "  	a b
") = lit "a b".
Proof. vm_compute. reflexivity. Qed.

Example normalize_text_sample :
  normalize_text (lit "  What   is
 paging? ") = lit "What is paging?".
Proof. vm_compute. reflexivity. Qed.

Lemma dropwhile_all (p : char -> bool) (l : str) :
  forallb p l = true -> dropwhile p l = [].
Proof.
  induction l as [|c l IH]; simpl; [reflexivity|].
  destruct (p c); simpl; [exact IH | discriminate].
Qed.

Lemma dropwhile_some (p : char -> bool) (l : str) :
  forallb p l = false -> dropwhile p l <> [].
Proof.
  induction l as [|c l IH]; simpl; [discriminate|].
  destruct (p c); simpl; [exact IH | discriminate].
Qed.

Lemma dropwhile_snoc (p : char -> bool) (l : str) (c : char) :
  dropwhile p (l ++ [c])
  = if forallb p l then (if p c then [] else [c]) else dropwhile p l ++ [c].
Proof.
  induction l as [|x l IH]; simpl; [reflexivity|].
  destruct (p x); simpl; [exact IH | reflexivity].
Qed.

(** [rstrip] drops from the right end what [lstrip] drops from the left. *)
Lemma rstrip_by_rev (p : char -> bool) (s : str) :
  rstrip_by p s = rev (dropwhile p (rev s)).
Proof.
  induction s as [|c s IH]; [reflexivity|].
  cbn [rstrip_by rev]. rewrite dropwhile_snoc, IH.
  destruct (forallb p (rev s)) eqn:F.
  - rewrite (dropwhile_all _ _ F). simpl. now destruct (p c).
  - pose proof (dropwhile_some _ _ F) as N.
    destruct (dropwhile p (rev s)) as [|x d] eqn:D; [congruence|].
    rewrite rev_app_distr. cbn [rev app].
    destruct (rev d ++ [x]) eqn:R; [|reflexivity].
    now apply app_eq_nil in R.
Qed.

Lemma clean_correct_trimmed (e : Entry) : clean_correct e = trimmed_answers e.
Proof.
  unfold clean_correct, trimmed_answers.
  induction (correct e) as [|a l IH]; simpl; [reflexivity|].
  destruct (str_eqb (strip a) []); simpl; now rewrite IH.
Qed.

(** *** White space and the dedup key *)

Lemma join_cons (sep p : str) (ps : list str) :
  ps <> [] -> join sep (p :: ps) = p ++ sep ++ join sep ps.
Proof. destruct ps; [congruence | reflexivity]. Qed.

Lemma split_from_word (s w : str) : w <> [] -> split_from s w <> [].
Proof.
  revert w. induction s as [|c s IH]; intros w Hw; simpl.
  - destruct w; congruence.
  - destruct (isspace c); [destruct w; congruence|].
    apply IH. discriminate.
Qed.

Lemma split_from_tidy (s : str) :
  s <> [] -> ends_tidy s = true -> split_from s [] <> [].
Proof.
  induction s as [|c s IH]; intros Hs He; [congruence|].
  simpl. simpl in He. destruct s as [|c' s'].
  - apply negb_true_iff in He. rewrite He. simpl. discriminate.
  - destruct (isspace c); [apply IH; [discriminate | exact He]|].
    apply split_from_word. discriminate.
Qed.

(** Replacing the runs of white space of a tidy string by one space each
    gives its words joined by single spaces. *)
Lemma sub_spaces_words :
  forall s,
    ends_tidy s = true ->
    (forall w, w <> [] ->
       rev w ++ sub_spaces false s = join [0x20] (split_from s w))
    /\ sub_spaces true s = join [0x20] (split_from s []).
Proof.
  induction s as [|c s IH]; intro He.
  - split; [|reflexivity]. intros w Hw. simpl. rewrite app_nil_r.
    destruct w; [congruence | reflexivity].
  - assert (isspace c = true -> s <> [] /\ ends_tidy s = true) as Hsp.
    { intro Hc. simpl in He. destruct s; [now rewrite Hc in He|].
      split; [discriminate | exact He]. }
    assert (ends_tidy s = true) as He'.
    { simpl in He. destruct s; [reflexivity | exact He]. }
    destruct (IH He') as [IHa IHb]. simpl.
    destruct (isspace c) eqn:Hc.
    + destruct (Hsp eq_refl) as [Hs _]. split; [|exact IHb].
      intros w Hw. destruct w as [|x w]; [congruence|].
      rewrite join_cons by now apply split_from_tidy.
      now rewrite IHb.
    + split.
      * intros w Hw. rewrite <- IHa by discriminate. simpl.
        now rewrite <- app_assoc.
      * rewrite <- IHa by discriminate. reflexivity.
Qed.

Lemma rstrip_nil_split (s w : str) :
  rstrip s = [] -> split_from s w = split_from [] w.
Proof.
  unfold rstrip. revert w. induction s as [|c s IH]; intros w H;
    [reflexivity|].
  simpl in H. destruct (rstrip_by isspace s) eqn:R; [|discriminate].
  destruct (isspace c) eqn:Hc; [|discriminate].
  simpl. rewrite Hc. destruct w; rewrite IH by reflexivity; reflexivity.
Qed.

Lemma split_from_same_tail (c : char) (a b : str) :
  (forall w, split_from a w = split_from b w) ->
  forall w, split_from (c :: a) w = split_from (c :: b) w.
Proof.
  intros H w. simpl. destruct (isspace c); [destruct w|]; now rewrite H.
Qed.

Lemma split_from_rstrip (s : str) :
  forall w, split_from (rstrip s) w = split_from s w.
Proof.
  unfold rstrip. induction s as [|c s IH]; intro w; [reflexivity|].
  cbn [rstrip_by]. destruct (rstrip_by isspace s) as [|r rs] eqn:R.
  - pose proof (rstrip_nil_split s) as N. unfold rstrip in N.
    destruct (isspace c) eqn:Hc; simpl; rewrite Hc.
    + destruct w; rewrite N by exact R; reflexivity.
    + now rewrite N by exact R.
  - apply split_from_same_tail. exact IH.
Qed.

Lemma split_from_lstrip (s : str) : split_from (lstrip s) [] = split_from s [].
Proof.
  unfold lstrip. induction s as [|c s IH]; [reflexivity|].
  simpl. destruct (isspace c) eqn:Hc; [exact IH|].
  simpl. now rewrite Hc.
Qed.

Lemma split_strip (s : str) : split (strip s) = split s.
Proof.
  unfold split, strip. now rewrite split_from_rstrip, split_from_lstrip.
Qed.

Lemma rstrip_tidy (s : str) : ends_tidy (rstrip s) = true.
Proof.
  unfold rstrip. induction s as [|c s IH]; [reflexivity|].
  cbn [rstrip_by]. destruct (rstrip_by isspace s) as [|r rs] eqn:R.
  - destruct (isspace c) eqn:Hc; simpl; [reflexivity | now rewrite Hc].
  - exact IH.
Qed.

Lemma rstrip_head (c : char) (s : str) :
  isspace c = false -> exists r, rstrip (c :: s) = c :: r.
Proof.
  intro Hc. unfold rstrip. cbn [rstrip_by].
  destruct (rstrip_by isspace s); rewrite ?Hc; eauto.
Qed.

Lemma lstrip_head (s : str) :
  lstrip s = [] \/ exists c r, lstrip s = c :: r /\ isspace c = false.
Proof.
  unfold lstrip. induction s as [|c s IH]; [now left|].
  simpl. destruct (isspace c) eqn:Hc; [exact IH|]. right. eauto.
Qed.

(** The dedup key is the words of the text joined by single spaces. *)
Lemma normalize_text_words (s : str) :
  normalize_text s = join [0x20] (split s).
Proof.
  unfold normalize_text. rewrite <- split_strip. unfold split.
  destruct (sub_spaces_words (strip s) (rstrip_tidy _)) as [_ <-].
  unfold strip. destruct (lstrip_head s) as [-> | (c & r & -> & Hc)];
    [reflexivity|].
  destruct (rstrip_head c r Hc) as [r' ->]. simpl. now rewrite Hc.
Qed.

Lemma entry_key_words (e : Entry) :
  entry_key e = join [0x20] (split (question e)).
Proof.
  unfold entry_key. now rewrite normalize_text_words, split_strip.
Qed.

(** *** The chapter resolver *)

(** A match is "ch" in either case, then one or two decimal digits, between
    two word boundaries. *)
Lemma match_ch_sound (prev : option char) (s g : str) :
  match_ch prev s = Some g ->
  exists c h post,
    s = c :: h :: g ++ post
    /\ (c = 0x63 \/ c = 0x43) /\ (h = 0x68 \/ h = 0x48)
    /\ (length g = 1 \/ length g = 2)%nat
    /\ Forall (fun d => is_decimal d = true) g
    /\ boundary prev (Some c) = true
    /\ boundary (last_char g) (hd_error post) = true.
Proof.
  unfold match_ch. destruct s as [|c [|h [|d1 rest]]]; try discriminate.
  destruct (boundary prev (Some c)) eqn:B; [|discriminate].
  destruct ((c =? 0x63) || (c =? 0x43)) eqn:C; [|discriminate].
  destruct ((h =? 0x68) || (h =? 0x48)) eqn:Hh; [|discriminate].
  destruct (is_decimal d1) eqn:D1; [|discriminate]. cbn [andb].
  apply orb_true_iff in C, Hh. rewrite !Z.eqb_eq in C, Hh.
  destruct rest as [|d2 rest'].
  - destruct (boundary (Some d1) None) eqn:B1; [|discriminate].
    intros [= <-]. exists c, h, []. simpl. auto 10.
  - destruct (is_decimal d2 && boundary (Some d2) (hd_error rest')) eqn:T.
    + intros [= <-]. apply andb_true_iff in T. destruct T as [D2 B2].
      exists c, h, rest'. simpl. auto 10.
    + destruct (boundary (Some d1) (Some d2)) eqn:B1; [|discriminate].
      intros [= <-]. exists c, h, (d2 :: rest'). simpl. auto 10.
Qed.

Lemma search_ch_from_sound :
  forall s prev g,
    search_ch_from prev s = Some g ->
    exists pre c h post,
      s = pre ++ c :: h :: g ++ post
      /\ (c = 0x63 \/ c = 0x43) /\ (h = 0x68 \/ h = 0x48)
      /\ (length g = 1 \/ length g = 2)%nat
      /\ Forall (fun d => is_decimal d = true) g
      /\ boundary (match pre with [] => prev | _ => last_char pre end)
           (Some c) = true
      /\ boundary (last_char g) (hd_error post) = true.
Proof.
  induction s as [|x s IH]; intros prev g; cbn [search_ch_from].
  - destruct (match_ch prev []) eqn:M; [|discriminate].
    intros [= <-]. apply match_ch_sound in M.
    destruct M as (c & h & post & E & _). discriminate.
  - destruct (match_ch prev (x :: s)) eqn:M.
    + intros [= <-]. apply match_ch_sound in M.
      destruct M as (c & h & post & E & M). exists [], c, h, post. auto.
    + intro H. apply IH in H.
      destruct H as (pre & c & h & post & E & Hc & Hh & L & D & B & B').
      exists (x :: pre), c, h, post. rewrite E. repeat split; auto.
      destruct pre; [exact B|]. exact B.
Qed.

Lemma int_from_digits :
  forall g acc,
    Forall (fun d => is_decimal d = true) g ->
    exists n, int_from acc g = Some n.
Proof.
  induction g as [|d g IH]; intros acc H; simpl; [eauto|].
  inversion H as [|? ? Hd Hg]; subst. unfold is_decimal in Hd.
  destruct (decimal_value d); [now apply IH | discriminate].
Qed.

(** [int] does not fail on the group of a match. *)
Lemma search_ch_number (part g : str) :
  search_ch part = Some g -> exists n, int_of_str g = Some n.
Proof.
  intro H. apply search_ch_from_sound in H.
  destruct H as (pre & c & h & post & _ & _ & _ & L & D & _).
  unfold int_of_str. destruct g; [simpl in L; lia|].
  now apply int_from_digits.
Qed.

(** The loop returns the tag of the first segment that yields a chapter, and
    raises nothing. *)
Lemma chapter_of_parts_find (ps : list str) :
  chapter_of_parts ps
  = Some match find yields_chapter ps with
         | Some part =>
             match segment_number part with
             | Some n => Some (chapter_tag n)
             | None => None
             end
         | None => None
         end.
Proof.
  induction ps as [|part ps IH]; [reflexivity|].
  cbn [chapter_of_parts find].
  destruct (search_ch part) as [g|] eqn:S.
  - destruct (search_ch_number part g S) as [n N]. rewrite N.
    assert (segment_number part = Some n) as E
        by (unfold segment_number; now rewrite S).
    unfold yields_chapter at 1. rewrite E. unfold in_range.
    destruct ((0 <=? n) && (n <=? 10)); [now rewrite E | exact IH].
  - assert (segment_number part = None) as E
        by (unfold segment_number; now rewrite S).
    unfold yields_chapter at 1. rewrite E. exact IH.
Qed.

(** The resolver returns on every path and override: the tag of the first
    segment that yields a number in range, otherwise the override when it
    is given and not empty, otherwise "unknown". *)
Lemma determine_chapter_resolved (path : Path) (fallback : option str) :
  determine_chapter path fallback
  = Some (chapter_by_find path (provided fallback)).
Proof.
  unfold determine_chapter, chapter_by_find. fold (segments path).
  rewrite chapter_of_parts_find.
  destruct (find yields_chapter (segments path)) as [part|] eqn:F.
  - apply find_some in F. destruct F as [_ Y]. unfold yields_chapter in Y.
    destruct (segment_number part); [reflexivity | discriminate].
  - destruct fallback as [f|]; [|reflexivity]. simpl.
    destruct (truthy f); reflexivity.
Qed.

(** *** The unanswered filter *)

(** C5. An entry whose trimmed, non-empty correct answers are none at all, or
    the single sentinel "未作答", leaves the store as it is and adds one to
    the unanswered-skip counter and to no other counter. *)
Theorem unanswered_entry_skipped :
  forall now chapter source_file s c e,
    trimmed_answers e = [] \/ trimmed_answers e = [UNANSWERED] ->
    let st' := upsert_entry now chapter source_file (s, c) e in
    fst st' = s
    /\ skipped_unanswered (snd st') = skipped_unanswered c + 1
    /\ inserted_questions (snd st') = inserted_questions c
    /\ inserted_answers (snd st') = inserted_answers c
    /\ duplicates_skipped (snd st') = duplicates_skipped c.
Proof.
  intros now chapter source_file s c e H.
  unfold upsert_entry. rewrite clean_correct_trimmed.
  destruct H as [-> | ->]; simpl; auto.
Qed.

(** *** The two INSERT statements *)

Lemma next_rowid_above (ids : list Z) (seq x : Z) :
  In x ids -> x < next_rowid ids seq.
Proof.
  clear isalnum decimal_value.
  unfold next_rowid. induction ids as [|y ids IH]; simpl; [tauto|].
  intros [-> | H]; [lia | specialize (IH H); lia].
Qed.

Lemma find_app_some {A} (p : A -> bool) (l l' : list A) (x : A) :
  find p l = Some x -> find p (l ++ l') = Some x.
Proof.
  induction l as [|y l IH]; simpl; [discriminate|].
  destruct (p y); auto.
Qed.

Lemma find_app_none {A} (p : A -> bool) (l l' : list A) :
  find p l = None -> find p (l ++ l') = find p l'.
Proof.
  induction l as [|y l IH]; simpl; [reflexivity|].
  destruct (p y); [discriminate | auto].
Qed.

Lemma existsb_find {A} (p : A -> bool) (l : list A) :
  existsb p l = is_some (find p l).
Proof.
  induction l as [|y l IH]; simpl; [reflexivity|].
  destruct (p y); simpl; auto.
Qed.

Lemma detect_type_checked (q : str) : check_q_type (detect_type q) = true.
Proof.
  unfold check_q_type, detect_type.
  destruct (search_slot q); rewrite str_eqb_refl; auto using orb_true_r.
Qed.

Lemma same_question_refl (chapter key : str) (r : QuestionRow) :
  q_chapter r = chapter -> q_text_norm r = key ->
  same_question chapter key r = true.
Proof.
  intros <- <-. unfold same_question. now rewrite !str_eqb_refl.
Qed.

Lemma same_question_true (chapter key : str) (r : QuestionRow) :
  same_question chapter key r = true ->
  q_chapter r = chapter /\ q_text_norm r = key.
Proof.
  unfold same_question. rewrite andb_true_iff, !str_eqb_eq. tauto.
Qed.

(** What [upsert_entry] does, by the three ways an entry can go. *)
Lemma upsert_entry_cases :
  forall now chapter source_file s c e,
    let q := strip (question e) in
    let cs := clean_correct e in
    (unanswered cs = true
     /\ upsert_entry now chapter source_file (s, c) e
        = (s, count_unanswered c))
    \/ (unanswered cs = false
        /\ question_row s chapter (entry_key e) = None
        /\ upsert_entry now chapter source_file (s, c) e
           = insert_answers now
               (next_rowid (map q_id (questions s)) (seq_questions s)) 1 cs
               (with_question now s chapter q source_file,
                count_inserted_q c))
    \/ (unanswered cs = false
        /\ exists row,
            question_row s chapter (entry_key e) = Some row
            /\ upsert_entry now chapter source_file (s, c) e
               = insert_answers now (q_id row) 1 cs
                   (after_ignored_question s, count_skipped_q c)).
Proof.
  intros now chapter source_file s c e q cs.
  unfold upsert_entry. fold q. fold cs.
  destruct (unanswered cs) eqn:U; [left; auto | right].
  unfold insert_question, select_question_id, question_row, entry_key.
  fold q. rewrite detect_type_checked, existsb_find. simpl.
  destruct (find (same_question chapter (normalize_text q)) (questions s))
    as [row|] eqn:F; simpl.
  - right. split; [reflexivity|]. exists row. split; [reflexivity|].
    rewrite F. reflexivity.
  - left. auto.
Qed.

(** *** The answer loop *)

Lemma insert_answers_cons :
  forall now qid idx ans cs s c,
    insert_answers now qid idx (ans :: cs) (s, c)
    = insert_answers now qid (idx + 1) cs
        (fst (insert_answer now s qid idx ans),
         if snd (insert_answer now s qid idx ans)
         then count_inserted_a c else c).
Proof.
  intros. cbn [insert_answers].
  destruct (insert_answer now s qid idx ans). reflexivity.
Qed.

(** The loop touches the answers table and the inserted-answer counter only;
    it adds rows of the question at hand, and counts exactly those. *)
Lemma insert_answers_frame :
  forall cs now qid idx s c,
    let st' := insert_answers now qid idx cs (s, c) in
    questions (fst st') = questions s
    /\ seq_questions (fst st') = seq_questions s
    /\ inserted_questions (snd st') = inserted_questions c
    /\ duplicates_skipped (snd st') = duplicates_skipped c
    /\ skipped_unanswered (snd st') = skipped_unanswered c
    /\ exists rows,
        answers (fst st') = answers s ++ rows
        /\ Forall (fun r => a_question_id r = qid) rows
        /\ inserted_answers (snd st')
           = inserted_answers c + Z.of_nat (length rows).
Proof.
  induction cs as [|ans cs IH]; intros now qid idx s c.
  - simpl. repeat split; auto. exists []. rewrite app_nil_r. simpl.
    repeat split; auto; lia.
  - rewrite insert_answers_cons. cbv zeta.
    specialize (IH now qid (idx + 1)).
    unfold insert_answer.
    destruct (existsb (same_answer qid idx ans) (answers s)); cbn [negb fst snd].
    + match goal with
      | |- context [insert_answers _ _ _ _ (?s1, ?c1)] =>
          specialize (IH s1 c1); cbv zeta in IH; cbn [questions answers seq_questions] in IH
      end.
      exact IH.
    + match goal with
      | |- context [insert_answers _ _ _ _ (?s1, ?c1)] =>
          specialize (IH s1 c1); cbv zeta in IH;
          cbn [questions answers seq_questions count_inserted_a
               inserted_questions duplicates_skipped skipped_unanswered
               inserted_answers] in IH
      end.
      destruct IH as (Hq & Hs & H1 & H2 & H3 & rows & Ha & Hf & Hn).
      repeat split; auto.
      eexists (_ :: rows). rewrite Ha, <- app_assoc. split; [reflexivity|].
      split; [constructor; [reflexivity | exact Hf]|].
      rewrite Hn. cbn [length]. lia.
Qed.

(** When every row of the question so far sits below position [idx], each
    answer gets its own new row, numbered from [idx] in the order given. *)
Lemma insert_answers_new :
  forall cs now qid idx s c,
    (forall r, In r (answers s) -> a_question_id r = qid ->
               a_position r < idx) ->
    exists rows,
      answers (fst (insert_answers now qid idx cs (s, c)))
      = answers s ++ rows
      /\ map a_answer_text rows = cs
      /\ map a_position rows
         = map (fun i => idx + Z.of_nat i) (seq 0 (length cs)).
Proof.
  induction cs as [|ans cs IH]; intros now qid idx s c Hlow.
  - exists []. simpl. now rewrite app_nil_r.
  - rewrite insert_answers_cons. unfold insert_answer.
    assert (existsb (same_answer qid idx ans) (answers s) = false) as ->.
    { apply not_true_is_false. intro E. apply existsb_exists in E.
      destruct E as (r & Hr & E). unfold same_answer in E.
      rewrite !andb_true_iff in E. destruct E as [[E1 E2] _].
      apply Z.eqb_eq in E1, E2. specialize (Hlow r Hr E1). lia. }
    cbn [negb fst snd].
    match goal with
    | |- context [insert_answers _ _ _ _ (?s1, ?c1)] =>
        destruct (IH now qid (idx + 1) s1 c1) as (rows & Ha & Ht & Hp)
    end.
    { cbn [answers]. intros r Hr Hq. apply in_app_or in Hr.
      destruct Hr as [Hr | [<- | []]]; [specialize (Hlow r Hr Hq); lia|].
      cbn [a_position]. lia. }
    cbn [answers] in Ha.
    eexists (_ :: rows). rewrite Ha, <- app_assoc. split; [reflexivity|].
    cbn [map a_answer_text a_position length seq]. rewrite Ht, Hp.
    split; [reflexivity|]. f_equal; [lia|].
    rewrite <- seq_shift, map_map. apply map_ext. intro i. lia.
Qed.

Lemma all_present_more (rows more : list AnswerRow) (qid : Z) :
  forall cs idx,
    all_present rows qid idx cs = true ->
    all_present (rows ++ more) qid idx cs = true.
Proof.
  induction cs as [|ans cs IH]; intros idx; simpl; [reflexivity|].
  rewrite !andb_true_iff, existsb_app, orb_true_iff. intros [H1 H2]. auto.
Qed.

(** Answers that all have their row make the loop a no-op on the tables and
    on the counters. *)
Lemma insert_answers_present :
  forall cs now qid idx s c,
    all_present (answers s) qid idx cs = true ->
    let st' := insert_answers now qid idx cs (s, c) in
    questions (fst st') = questions s
    /\ answers (fst st') = answers s
    /\ snd st' = c.
Proof.
  induction cs as [|ans cs IH]; intros now qid idx s c H; [simpl; auto|].
  simpl in H. apply andb_true_iff in H. destruct H as [H1 H2].
  cbv zeta. rewrite insert_answers_cons. unfold insert_answer.
  rewrite H1. cbn [negb fst snd].
  match goal with
  | |- context [insert_answers _ _ _ _ (?s1, ?c1)] =>
      specialize (IH now qid (idx + 1) s1 c1 H2)
  end.
  exact IH.
Qed.

(** After the loop, every answer has its row. *)
Lemma insert_answers_ensures :
  forall cs now qid idx s c,
    all_present (answers (fst (insert_answers now qid idx cs (s, c))))
      qid idx cs = true.
Proof.
  induction cs as [|ans cs IH]; intros now qid idx s c; [reflexivity|].
  rewrite insert_answers_cons. cbn [all_present].
  match goal with
  | |- context [insert_answers _ _ _ _ (?s1, ?c1)] =>
      pose proof (IH now qid (idx + 1) s1 c1) as H2;
      destruct (insert_answers_frame cs now qid (idx + 1) s1 c1)
        as (_ & _ & _ & _ & _ & rows & Ha & _)
  end.
  rewrite H2, andb_true_r, Ha, existsb_app.
  unfold insert_answer.
  destruct (existsb (same_answer qid idx ans) (answers s)) eqn:E;
    cbn [negb fst answers]; [now rewrite E|].
  rewrite existsb_app, E. cbn [existsb orb]. unfold same_answer.
  cbn [a_question_id a_position a_answer_text].
  now rewrite !Z.eqb_refl, str_eqb_refl.
Qed.

(** A row at a position the loop has passed is no answer to the tests that
    follow. *)
Lemma missing_answers_passed (rows : list AnswerRow) (new : AnswerRow)
  (qid : Z) :
  forall cs idx,
    a_position new < idx ->
    missing_answers (rows ++ [new]) qid idx cs = missing_answers rows qid idx cs.
Proof.
  induction cs as [|ans cs IH]; intros idx L; [reflexivity|].
  cbn [missing_answers]. rewrite IH by lia. f_equal.
  rewrite existsb_app. cbn [existsb]. unfold same_answer at 2.
  assert ((a_position new =? idx) = false) as -> by (apply Z.eqb_neq; lia).
  now rewrite andb_false_r, !orb_false_r.
Qed.

(** The loop writes one row for each answer that had none at its position,
    in the order of the answers, and nothing else. *)
Lemma insert_answers_exact :
  forall cs now qid idx s c,
    exists rows,
      answers (fst (insert_answers now qid idx cs (s, c)))
      = answers s ++ rows
      /\ map answer_key rows = missing_answers (answers s) qid idx cs.
Proof.
  induction cs as [|ans cs IH]; intros now qid idx s c.
  - exists []. cbn [insert_answers fst]. now rewrite app_nil_r.
  - rewrite insert_answers_cons. cbn [missing_answers].
    match goal with
    | |- context [insert_answers _ _ _ _ (?s1, ?c1)] =>
        destruct (IH now qid (idx + 1) s1 c1) as (rows & Ha & Hk)
    end.
    rewrite Ha. revert Hk. unfold insert_answer.
    destruct (existsb (same_answer qid idx ans) (answers s));
      cbn [negb fst answers]; intro Hk.
    + exists rows. auto.
    + eexists (_ :: rows). rewrite <- app_assoc. split; [reflexivity|].
      cbn [map app]. f_equal. rewrite Hk.
      apply missing_answers_passed. cbn [a_position]. lia.
Qed.

(** *** One entry *)

Lemma grows_refl (s : Store) : grows s s.
Proof. split; exists []; now rewrite app_nil_r. Qed.

Lemma grows_trans (s1 s2 s3 : Store) : grows s1 s2 -> grows s2 s3 -> grows s1 s3.
Proof.
  intros [[q1 H1] [a1 H2]] [[q2 H3] [a2 H4]]. split.
  - exists (q1 ++ q2). now rewrite H3, H1, app_assoc.
  - exists (a1 ++ a2). now rewrite H4, H2, app_assoc.
Qed.

Lemma upsert_entry_grows :
  forall now chapter source_file s c e,
    grows s (fst (upsert_entry now chapter source_file (s, c) e)).
Proof.
  intros now chapter source_file s c e.
  destruct (upsert_entry_cases now chapter source_file s c e)
    as [[_ ->] | [(_ & _ & ->) | (_ & row & _ & ->)]].
  - apply grows_refl.
  - match goal with
    | |- context [insert_answers ?n ?q ?i ?cs (?s1, ?c1)] =>
        destruct (insert_answers_frame cs n q i s1 c1)
          as (Hq & _ & _ & _ & _ & rows & Ha & _)
    end.
    split; [rewrite Hq; eexists; reflexivity | exists rows; exact Ha].
  - match goal with
    | |- context [insert_answers ?n ?q ?i ?cs (?s1, ?c1)] =>
        destruct (insert_answers_frame cs n q i s1 c1)
          as (Hq & _ & _ & _ & _ & rows & Ha & _)
    end.
    split; [rewrite Hq; exists []; now rewrite app_nil_r
           | exists rows; exact Ha].
Qed.

Lemma settled_grows (chapter : str) (s s' : Store) (e : Entry) :
  grows s s' -> settled chapter s e -> settled chapter s' e.
Proof.
  intros [[qs Hq] [rows Ha]] [U | (row & F & P)]; [now left | right].
  exists row. unfold question_row in *. rewrite Hq, Ha.
  split; [now apply find_app_some | now apply all_present_more].
Qed.

(** Whatever the store, an entry is settled once it went through. *)
Lemma upsert_entry_settles :
  forall now chapter source_file s c e,
    settled chapter (fst (upsert_entry now chapter source_file (s, c) e)) e.
Proof.
  intros now chapter source_file s c e.
  destruct (upsert_entry_cases now chapter source_file s c e)
    as [[U _] | [(_ & F & ->) | (_ & row & F & ->)]]; [now left | |];
    right;
    match goal with
    | |- context [insert_answers ?n ?q ?i ?cs (?s1, ?c1)] =>
        pose proof (insert_answers_ensures cs n q i s1 c1) as P;
        destruct (insert_answers_frame cs n q i s1 c1) as (Hq & _)
    end.
  - eexists. unfold question_row in *. rewrite Hq.
    cbn [with_question questions]. rewrite (find_app_none _ _ _ F).
    cbn [find]. rewrite same_question_refl by reflexivity.
    split; [reflexivity | exact P].
  - exists row. unfold question_row in *. rewrite Hq. auto.
Qed.

(** A settled entry changes neither table, and is counted once, as
    unanswered or as a duplicate. *)
Lemma upsert_entry_settled :
  forall now chapter source_file s c e,
    settled chapter s e ->
    let st' := upsert_entry now chapter source_file (s, c) e in
    questions (fst st') = questions s
    /\ answers (fst st') = answers s
    /\ snd st' = if survives e then count_skipped_q c
                 else count_unanswered c.
Proof.
  intros now chapter source_file s c e H. cbv zeta. unfold survives.
  destruct (upsert_entry_cases now chapter source_file s c e)
    as [[U ->] | [(U & F & _) | (U & row & F & ->)]]; rewrite U.
  - auto.
  - destruct H as [H | (row & F' & _)]; congruence.
  - destruct H as [H | (row' & F' & P)]; [congruence|].
    assert (row' = row) as -> by congruence.
    apply (insert_answers_present (clean_correct e) now (q_id row) 1
             (after_ignored_question s) (count_skipped_q c) P).
Qed.

(** *** The constraints of the schema are kept *)

Lemma fresh_question_id (s : Store) (a : AnswerRow) :
  answers_owned s -> In a (answers s) ->
  a_question_id a < next_rowid (map q_id (questions s)) (seq_questions s).
Proof.
  intros O Ha. destruct (O a Ha) as (q & Hq & <-).
  apply next_rowid_above, in_map, Hq.
Qed.

Lemma question_row_none_key (s : Store) (chapter key : str) :
  question_row s chapter key = None -> ~ In (chapter, key) (question_keys s).
Proof.
  unfold question_row, question_keys. intros F H.
  apply in_map_iff in H. destruct H as (r & E & Hr).
  pose proof (find_none _ _ F r Hr) as N.
  inversion E; subst. rewrite same_question_refl in N by reflexivity.
  discriminate.
Qed.

Lemma upsert_entry_keeps_store :
  forall now chapter source_file s c e,
    store_ok s ->
    store_ok (fst (upsert_entry now chapter source_file (s, c) e)).
Proof.
  clear isalnum.
  intros now chapter source_file s c e (K & I & O).
  destruct (upsert_entry_cases now chapter source_file s c e)
    as [[_ ->] | [(_ & F & ->) | (_ & row & F & ->)]];
    [now repeat split | |];
    match goal with
    | |- context [insert_answers ?n ?q ?i ?cs (?s1, ?c1)] =>
        destruct (insert_answers_frame cs n q i s1 c1)
          as (Hq & _ & _ & _ & _ & rows & Ha & Hf & _)
    end;
    unfold store_ok, questions_unique, question_ids_unique, question_keys,
      answers_owned in *;
    rewrite Hq, Ha; cbn [with_question after_ignored_question questions
                         answers] in *.
  - repeat split.
    + rewrite map_app. apply NoDup_app; [exact K | repeat constructor; simpl; tauto|].
      cbn [map q_chapter q_text_norm]. intros k Hk [<- | []].
      revert Hk. apply (question_row_none_key s). exact F.
    + rewrite map_app. apply NoDup_app; [exact I | repeat constructor; simpl; tauto|].
      cbn [map q_id]. intros k Hk [<- | []].
      apply (next_rowid_above _ (seq_questions s)) in Hk. lia.
    + intros a Ha'. apply in_app_or in Ha'. destruct Ha' as [Ha' | Ha'].
      * destruct (O a Ha') as (q & Hin & E). exists q. split; [|exact E].
        apply in_or_app. now left.
      * rewrite Forall_forall in Hf. rewrite (Hf a Ha').
        eexists. split; [apply in_or_app; right; left; reflexivity|].
        reflexivity.
  - repeat split; auto.
    intros a Ha'. apply in_app_or in Ha'. destruct Ha' as [Ha' | Ha'];
      [now apply O|].
    rewrite Forall_forall in Hf. rewrite (Hf a Ha').
    exists row. split; [|reflexivity].
    unfold question_row in F. now apply find_some in F.
Qed.

Lemma empty_store_ok : store_ok empty_store.
Proof.
  repeat split; try constructor. intros a [].
Qed.

(** *** A batch *)

Lemma fold_upsert_grows :
  forall now chapter source_file entries st,
    grows (fst st)
      (fst (fold_left (upsert_entry now chapter source_file) entries st)).
Proof.
  induction entries as [|e es IH]; intros [s c]; cbn [fold_left].
  - apply grows_refl.
  - eapply grows_trans; [apply upsert_entry_grows | apply IH].
Qed.

Lemma fold_upsert_keeps_store :
  forall now chapter source_file entries st,
    store_ok (fst st) ->
    store_ok (fst (fold_left (upsert_entry now chapter source_file) entries st)).
Proof.
  induction entries as [|e es IH]; intros [s c] H; cbn [fold_left];
    [exact H|].
  apply IH. now apply upsert_entry_keeps_store.
Qed.

(** The batch keeps the constraints of the schema; in particular every
    answer row it writes belongs to a question row. *)
Lemma upsert_entries_keeps_store :
  forall now s entries chapter source_file,
    store_ok s ->
    store_ok (fst (upsert_entries now s entries chapter source_file)).
Proof.
  intros. unfold upsert_entries. now apply fold_upsert_keeps_store.
Qed.

(** After a batch, each of its entries is settled. *)
Lemma fold_upsert_settles :
  forall now chapter source_file entries st,
    Forall (settled chapter
              (fst (fold_left (upsert_entry now chapter source_file)
                      entries st)))
      entries.
Proof.
  induction entries as [|e es IH]; intros [s c]; cbn [fold_left];
    constructor; [|apply IH].
  apply settled_grows
    with (s := fst (upsert_entry now chapter source_file (s, c) e));
    [apply fold_upsert_grows | apply upsert_entry_settles].
Qed.

Lemma settled_same_tables (chapter : str) (s s' : Store) (e : Entry) :
  same_tables s s' -> settled chapter s e -> settled chapter s' e.
Proof.
  intros [Hq Ha]. unfold settled, question_row. now rewrite Hq, Ha.
Qed.

(** A batch of settled entries changes no table; it counts the entries that
    pass the filter as duplicates and the others as unanswered. *)
Lemma fold_upsert_settled :
  forall now chapter source_file entries s c,
    Forall (settled chapter s) entries ->
    let st' := fold_left (upsert_entry now chapter source_file) entries (s, c) in
    same_tables s (fst st')
    /\ inserted_questions (snd st') = inserted_questions c
    /\ inserted_answers (snd st') = inserted_answers c
    /\ duplicates_skipped (snd st')
       = duplicates_skipped c + Z.of_nat (length (filter survives entries))
    /\ skipped_unanswered (snd st')
       = skipped_unanswered c
         + Z.of_nat (length (filter (fun e => negb (survives e)) entries)).
Proof.
  induction entries as [|e es IH]; intros s c H; cbv zeta; cbn [fold_left].
  - unfold same_tables. simpl. repeat split; lia.
  - inversion H as [|? ? He Hes]; subst.
    destruct (upsert_entry_settled now chapter source_file s c e He)
      as (Hq & Ha & Hc).
    destruct (upsert_entry now chapter source_file (s, c) e) as [s1 c1].
    cbn [fst snd] in Hq, Ha, Hc.
    assert (Forall (settled chapter s1) es) as Hes1.
    { eapply Forall_impl; [|exact Hes]. intro e'.
      apply settled_same_tables. now split. }
    specialize (IH s1 c1 Hes1). cbv zeta in IH.
    destruct IH as ([Hq' Ha'] & H1 & H2 & H3 & H4).
    unfold same_tables. rewrite Hq', Ha', H1, H2, H3, H4, Hc.
    cbn [filter]. destruct (survives e); cbn [negb length];
      cbn [count_skipped_q count_unanswered inserted_questions
           inserted_answers duplicates_skipped skipped_unanswered];
      repeat split; auto; lia.
Qed.

(** *** A question that is new *)

Lemma unanswered_false_length (cs : list str) :
  unanswered cs = false -> (1 <= length cs)%nat.
Proof. destruct cs; simpl; [discriminate | lia]. Qed.

Lemma filter_none {A} (p : A -> bool) (l : list A) :
  (forall x, In x l -> p x = false) -> filter p l = [].
Proof.
  induction l as [|x l IH]; intro H; simpl; [reflexivity|].
  rewrite (H x) by now left. apply IH. intros y Hy. apply H. now right.
Qed.

Lemma filter_all {A} (p : A -> bool) (l : list A) :
  (forall x, In x l -> p x = true) -> filter p l = l.
Proof.
  induction l as [|x l IH]; intro H; simpl; [reflexivity|].
  rewrite (H x) by now left. f_equal. apply IH. intros y Hy. apply H.
  now right.
Qed.

(** An entry that passes the filter and whose key is not in the chapter yet
    gets one question row and, when the answers are owned, one answer row per
    surviving answer, at positions 1, 2, ... in the order of the entry. *)
Lemma upsert_entry_new :
  forall now chapter source_file s c e,
    answers_owned s ->
    unanswered (clean_correct e) = false ->
    question_row s chapter (entry_key e) = None ->
    let st' := upsert_entry now chapter source_file (s, c) e in
    let k := length (clean_correct e) in
    exists qrow rows,
      questions (fst st') = questions s ++ [qrow]
      /\ q_chapter qrow = chapter
      /\ q_text_norm qrow = entry_key e
      /\ q_id qrow = next_rowid (map q_id (questions s)) (seq_questions s)
      /\ answers (fst st') = answers s ++ rows
      /\ Forall (fun r => a_question_id r = q_id qrow) rows
      /\ map a_answer_text rows = clean_correct e
      /\ map a_position rows = map Z.of_nat (seq 1 k)
      /\ inserted_answers (snd st') = inserted_answers c + Z.of_nat k
      /\ inserted_questions (snd st') = inserted_questions c + 1
      /\ duplicates_skipped (snd st') = duplicates_skipped c
      /\ skipped_unanswered (snd st') = skipped_unanswered c.
Proof.
  intros now chapter source_file s c e O U F. cbv zeta.
  destruct (upsert_entry_cases now chapter source_file s c e)
    as [[U' _] | [(_ & _ & ->) | (_ & row & F' & _)]]; try congruence.
  match goal with
  | |- context [insert_answers ?n ?q ?i ?cs (?s1, ?c1)] =>
      destruct (insert_answers_frame cs n q i s1 c1)
        as (Hq & _ & H1 & H2 & H3 & rows & Ha & Hf & Hn);
      destruct (insert_answers_new cs n q i s1 c1)
        as (rows' & Ha' & Ht & Hp)
  end.
  { cbn [with_question answers]. intros r Hr E.
    pose proof (fresh_question_id s r O Hr). lia. }
  rewrite Ha in Ha'. apply app_inv_head in Ha'. subst rows'.
  eexists; exists rows. rewrite Hq, Ha, H1, H2, H3, Hn.
  cbn [with_question questions answers q_chapter q_text_norm q_id
       count_inserted_q inserted_questions inserted_answers
       duplicates_skipped skipped_unanswered].
  repeat split; auto.
  - rewrite Hp, <- seq_shift, map_map. apply map_ext. intro i. lia.
  - f_equal. rewrite <- (length_map a_answer_text rows), Ht. reflexivity.
Qed.

(** In a store whose answers are owned, a step never adds more questions
    than answers. *)
Lemma upsert_entry_counts :
  forall now chapter source_file s c e,
    answers_owned s ->
    let st' := upsert_entry now chapter source_file (s, c) e in
    inserted_questions c <= inserted_questions (snd st')
    /\ inserted_questions (snd st') - inserted_questions c
       <= inserted_answers (snd st') - inserted_answers c.
Proof.
  intros now chapter source_file s c e O. cbv zeta.
  destruct (upsert_entry_cases now chapter source_file s c e)
    as [[U E] | [(U & F & E) | (U & row & F & E)]].
  - rewrite E. simpl. lia.
  - destruct (upsert_entry_new now chapter source_file s c e O U F)
      as (qrow & rows & _ & _ & _ & _ & _ & _ & _ & _ & Ha & Hq & _).
    rewrite Ha, Hq. apply unanswered_false_length in U. lia.
  - rewrite E.
    match goal with
    | |- context [insert_answers ?n ?q ?i ?cs (?s1, ?c1)] =>
        destruct (insert_answers_frame cs n q i s1 c1)
          as (_ & _ & H1 & _ & _ & rows & _ & _ & Hn)
    end.
    rewrite H1, Hn. simpl. lia.
Qed.

Lemma fold_upsert_counts :
  forall now chapter source_file entries s c,
    store_ok s ->
    let st' := fold_left (upsert_entry now chapter source_file) entries (s, c) in
    inserted_questions c <= inserted_questions (snd st')
    /\ inserted_questions (snd st') - inserted_questions c
       <= inserted_answers (snd st') - inserted_answers c.
Proof.
  induction entries as [|e es IH]; intros s c H; cbv zeta; cbn [fold_left].
  - simpl. lia.
  - pose proof (upsert_entry_keeps_store now chapter source_file s c e H) as H'.
    destruct H as (_ & _ & O).
    pose proof (upsert_entry_counts now chapter source_file s c e O) as C.
    destruct (upsert_entry now chapter source_file (s, c) e) as [s1 c1].
    cbn [fst snd] in *. specialize (IH s1 c1 H'). cbv zeta in IH. lia.
Qed.

(** C3. In a store whose answers are owned, an entry whose question insert
    creates a Question row gets exactly k Answer rows for that question,
    where k is the number of its trimmed, non-empty correct answers; their
    positions are 1..k and their texts are the answers in the order of the
    entry; the inserted-answer counter grows by the number of new rows. *)
Theorem answer_positions_follow_source :
  forall now chapter source_file s c e,
    answers_owned s ->
    let st' := upsert_entry now chapter source_file (s, c) e in
    let k := length (trimmed_answers e) in
    questions (fst st') <> questions s ->
    exists qrow rows,
      questions (fst st') = questions s ++ [qrow]
      /\ answers (fst st') = answers s ++ rows
      /\ filter (fun r => a_question_id r =? q_id qrow) (answers (fst st'))
         = rows
      /\ length rows = k
      /\ map a_position rows = map Z.of_nat (seq 1 k)
      /\ map a_answer_text rows = trimmed_answers e
      /\ inserted_answers (snd st')
         = inserted_answers c + Z.of_nat (length rows).
Proof.
  intros now chapter source_file s c e O. cbv zeta. intro N.
  rewrite <- clean_correct_trimmed.
  destruct (upsert_entry_cases now chapter source_file s c e)
    as [[U E] | [(U & F & _) | (U & row & F & E)]].
  - rewrite E in N. now elim N.
  - destruct (upsert_entry_new now chapter source_file s c e O U F)
      as (qrow & rows & Hq & _ & _ & Hid & Ha & Hf & Ht & Hp & Hn & _).
    assert (length rows = length (clean_correct e)) as L
        by now rewrite <- Ht, length_map.
    exists qrow, rows. rewrite Hq, Ha, Hp, Ht, Hn, L.
    repeat split; auto.
    rewrite filter_app, filter_none, filter_all; [reflexivity | |].
    + rewrite Forall_forall in Hf. intros r Hr. apply Z.eqb_eq. auto.
    + intros r Hr. apply Z.eqb_neq. rewrite Hid.
      pose proof (fresh_question_id s r O Hr). lia.
  - elim N. rewrite E.
    match goal with
    | |- context [insert_answers ?n ?q ?i ?cs (?s1, ?c1)] =>
        destruct (insert_answers_frame cs n q i s1 c1) as (Hq & _)
    end.
    exact Hq.
Qed.

(** For every entry, the inserted-answer counter grows by the number of
    rows added to the answers table. *)
Lemma inserted_answers_are_new_rows :
  forall now chapter source_file s c e,
    let st' := upsert_entry now chapter source_file (s, c) e in
    exists rows,
      answers (fst st') = answers s ++ rows
      /\ inserted_answers (snd st')
         = inserted_answers c + Z.of_nat (length rows).
Proof.
  intros now chapter source_file s c e. cbv zeta.
  destruct (upsert_entry_cases now chapter source_file s c e)
    as [[_ ->] | [(_ & _ & ->) | (_ & row & _ & ->)]].
  - exists []. simpl. rewrite app_nil_r. split; [reflexivity | lia].
  - match goal with
    | |- context [insert_answers ?n ?q ?i ?cs (?s1, ?c1)] =>
        destruct (insert_answers_frame cs n q i s1 c1)
          as (_ & _ & _ & _ & _ & rows & Ha & _ & Hn)
    end.
    exists rows. split; [exact Ha | exact Hn].
  - match goal with
    | |- context [insert_answers ?n ?q ?i ?cs (?s1, ?c1)] =>
        destruct (insert_answers_frame cs n q i s1 c1)
          as (_ & _ & _ & _ & _ & rows & Ha & _ & Hn)
    end.
    exists rows. split; [exact Ha | exact Hn].
Qed.

(** *** A question that is there already *)

Lemma NoDup_map_same {A B} (f : A -> B) (l : list A) (x y : A) :
  NoDup (map f l) -> In x l -> In y l -> f x = f y -> x = y.
Proof.
  induction l as [|z l IH]; simpl; [tauto|].
  intros N Hx Hy E. inversion N as [|? ? Hz N']; subst.
  destruct Hx as [-> | Hx], Hy as [-> | Hy]; auto.
  - elim Hz. rewrite E. now apply in_map.
  - elim Hz. rewrite <- E. now apply in_map.
Qed.

Lemma question_row_of_member (s : Store) (chapter key : str) (row : QuestionRow) :
  questions_unique s -> In row (questions s) ->
  q_chapter row = chapter -> q_text_norm row = key ->
  question_row s chapter key = Some row.
Proof.
  intros K Hr Hc Hk. unfold question_row.
  destruct (find (same_question chapter key) (questions s)) as [r|] eqn:F.
  - apply find_some in F. destruct F as [Hin F].
    apply same_question_true in F. destruct F as [F1 F2].
    f_equal.
    apply (NoDup_map_same (fun r => (q_chapter r, q_text_norm r))
             (questions s)); auto.
    cbv beta. congruence.
  - pose proof (find_none _ _ F row Hr) as N.
    rewrite same_question_refl in N by assumption. discriminate.
Qed.

Lemma question_row_facts (s : Store) (chapter key : str) (r : QuestionRow) :
  question_row s chapter key = Some r ->
  In r (questions s) /\ q_chapter r = chapter /\ q_text_norm r = key.
Proof.
  unfold question_row. intro F. apply find_some in F. destruct F as [Hin F].
  apply same_question_true in F. tauto.
Qed.

Lemma question_row_grows (s s' : Store) (chapter key : str) (r : QuestionRow) :
  grows s s' -> question_row s chapter key = Some r ->
  question_row s' chapter key = Some r.
Proof.
  intros [[qs Hq] _]. unfold question_row. rewrite Hq. apply find_app_some.
Qed.

(** What an entry does when its question row is there. *)
Lemma upsert_entry_existing :
  forall now chapter source_file s c e row,
    unanswered (clean_correct e) = false ->
    question_row s chapter (entry_key e) = Some row ->
    let st' := upsert_entry now chapter source_file (s, c) e in
    questions (fst st') = questions s
    /\ duplicates_skipped (snd st') = duplicates_skipped c + 1
    /\ inserted_questions (snd st') = inserted_questions c
    /\ skipped_unanswered (snd st') = skipped_unanswered c
    /\ (exists rows,
          answers (fst st') = answers s ++ rows
          /\ Forall (fun r => a_question_id r = q_id row) rows
          /\ inserted_answers (snd st')
             = inserted_answers c + Z.of_nat (length rows))
    /\ all_present (answers (fst st')) (q_id row) 1 (clean_correct e) = true.
Proof.
  intros now chapter source_file s c e row V F. cbv zeta.
  destruct (upsert_entry_cases now chapter source_file s c e)
    as [[U _] | [(_ & F' & _) | (_ & row' & F' & ->)]]; try congruence.
  assert (row' = row) as -> by congruence.
  match goal with
  | |- context [insert_answers ?n ?q ?i ?cs (?s1, ?c1)] =>
      pose proof (insert_answers_ensures cs n q i s1 c1) as P;
      destruct (insert_answers_frame cs n q i s1 c1)
        as (Hq & _ & H1 & H2 & H3 & rows & Ha & Hf & Hn)
  end.
  rewrite Hq, H1, H2, H3. repeat split; auto.
  exists rows. auto.
Qed.

(** C6. An entry that passes the filter and whose chapter and key are those
    of a row already in the table leaves the whole questions table as it is,
    adds one to the duplicate counter and to no other question counter.  Its
    INSERT into [questions] is ignored and the SELECT that follows returns
    the id of that row; under that id the answer loop writes one row for
    each trimmed answer that had none at its position, in the order of the
    answers, and nothing else, so that afterwards every answer of the entry
    has its row under the id of the existing question.  After any later
    batch, in any chapter, the questions table still starts with the same
    rows. *)
Theorem duplicate_question_untouched :
  forall now chapter source_file s c e row,
    questions_unique s ->
    In row (questions s) ->
    q_chapter row = chapter ->
    q_text_norm row = entry_key e ->
    survives e = true ->
    let st' := upsert_entry now chapter source_file (s, c) e in
    questions (fst st') = questions s
    /\ duplicates_skipped (snd st') = duplicates_skipped c + 1
    /\ inserted_questions (snd st') = inserted_questions c
    /\ skipped_unanswered (snd st') = skipped_unanswered c
    /\ insert_question now s chapter (strip (question e)) (entry_key e)
         (detect_type (strip (question e))) source_file
       = (after_ignored_question s, None)
    /\ select_question_id (after_ignored_question s) chapter (entry_key e)
       = Some (q_id row)
    /\ (exists rows,
          answers (fst st') = answers s ++ rows
          /\ map answer_key rows
             = missing_answers (answers s) (q_id row) 1 (trimmed_answers e)
          /\ Forall (fun r => a_question_id r = q_id row) rows
          /\ inserted_answers (snd st')
             = inserted_answers c + Z.of_nat (length rows))
    /\ all_present (answers (fst st')) (q_id row) 1 (trimmed_answers e) = true
    /\ forall now' chapter' source' entries,
         firstn (length (questions s))
           (questions
              (fst (upsert_entries now' (fst st') entries chapter' source')))
         = questions s.
Proof.
  intros now chapter source_file s c e row K Hr Hc Hk V. cbv zeta.
  pose proof (question_row_of_member s chapter (entry_key e) row K Hr Hc Hk)
    as F.
  unfold survives in V. apply negb_true_iff in V.
  destruct (upsert_entry_existing now chapter source_file s c e row V F)
    as (Q & H1 & H2 & H3 & (rows & Ha & Hf & Hn) & P).
  rewrite <- clean_correct_trimmed.
  split; [exact Q|]. split; [exact H1|]. split; [exact H2|].
  split; [exact H3|].
  split.
  { unfold insert_question, after_ignored_question.
    rewrite detect_type_checked, existsb_find.
    unfold question_row in F. rewrite F. reflexivity. }
  split.
  { unfold select_question_id. cbn [after_ignored_question questions].
    unfold question_row in F. now rewrite F. }
  split.
  { exists rows. split; [exact Ha|]. split; [|split; [exact Hf | exact Hn]].
    destruct (upsert_entry_cases now chapter source_file s c e)
      as [[U _] | [(_ & F' & _) | (_ & row' & F' & E)]]; try congruence.
    assert (row' = row) as -> by congruence.
    rewrite E in Ha.
    match type of Ha with
    | context [insert_answers ?n ?q ?i ?cs (?s1, ?c1)] =>
        destruct (insert_answers_exact cs n q i s1 c1) as (rows' & Ha' & Hk')
    end.
    rewrite Ha in Ha'. cbn [after_ignored_question answers] in Ha', Hk'.
    apply app_inv_head in Ha'. subst rows'. exact Hk'. }
  split; [exact P|].
  intros now' chapter' source' entries.
  destruct (fold_upsert_grows now' chapter' source' entries
              (fst (upsert_entry now chapter source_file (s, c) e), no_stats))
    as [[qs G] _].
  unfold upsert_entries. rewrite G. cbn [fst]. rewrite Q.
  rewrite firstn_app, firstn_all, Nat.sub_diag. simpl.
  now rewrite app_nil_r.
Qed.

(** *** The same text in another layout *)

Lemma question_row_only (s : Store) (chapter key : str) (r : QuestionRow) :
  questions_unique s -> question_row s chapter key = Some r ->
  filter (same_question chapter key) (questions s) = [r].
Proof.
  unfold questions_unique, question_keys, question_row.
  induction (questions s) as [|x l IH]; simpl; [discriminate|].
  intros N F. inversion N as [|? ? Hx N']; subst.
  destruct (same_question chapter key x) eqn:P.
  - inversion F; subst. f_equal. apply filter_none. intros y Hy.
    apply not_true_is_false. intro Py.
    apply same_question_true in P, Py. elim Hx.
    apply in_map_iff. exists y. split; [|exact Hy].
    destruct P as [-> ->], Py as [-> ->]. reflexivity.
  - now apply IH.
Qed.

Lemma settled_row (chapter : str) (s : Store) (e : Entry) :
  settled chapter s e -> survives e = true ->
  exists row, question_row s chapter (entry_key e) = Some row.
Proof.
  unfold survives. intros [U | (row & F & _)] V; [|eauto].
  rewrite U in V. discriminate.
Qed.

(** C4. Two question texts with the same words, whatever the white space
    between and around them, have the same dedup key.  Imported one after
    the other into one chapter of a store that satisfies the constraints of
    the schema, the second is counted as a duplicate and the chapter holds
    one row for the key; imported into two different chapters, each chapter
    holds its own row, with its own id, and both are new when neither
    chapter held the key. *)
Theorem layout_variants_collide :
  forall a b : str,
    split a = split b ->
    normalize_text a = normalize_text b
    /\ forall now chapter chapter' source_file s c e1 e2,
        question e1 = a ->
        question e2 = b ->
        survives e1 = true ->
        survives e2 = true ->
        store_ok s ->
        entry_key e1 = entry_key e2
        /\ (let st1 := upsert_entry now chapter source_file (s, c) e1 in
            let st2 := upsert_entry now chapter source_file st1 e2 in
            questions (fst st2) = questions (fst st1)
            /\ duplicates_skipped (snd st2) = duplicates_skipped (snd st1) + 1
            /\ inserted_questions (snd st2) = inserted_questions (snd st1)
            /\ length (filter (same_question chapter (entry_key e1))
                         (questions (fst st2))) = 1%nat)
        /\ (chapter <> chapter' ->
            let st1 := upsert_entry now chapter source_file (s, c) e1 in
            let st2 := upsert_entry now chapter' source_file st1 e2 in
            exists r1 r2,
              question_row (fst st2) chapter (entry_key e1) = Some r1
              /\ question_row (fst st2) chapter' (entry_key e1) = Some r2
              /\ q_id r1 <> q_id r2
              /\ (question_row s chapter (entry_key e1) = None ->
                  question_row s chapter' (entry_key e1) = None ->
                  questions (fst st2) = questions s ++ [r1; r2]
                  /\ inserted_questions (snd st2) = inserted_questions c + 2
                  /\ duplicates_skipped (snd st2) = duplicates_skipped c)).
Proof.
  intros a b W.
  split; [now rewrite !normalize_text_words, W|].
  intros now chapter chapter' source_file s c e1 e2 <- <- V1 V2 OK.
  assert (entry_key e1 = entry_key e2) as K
      by now rewrite !entry_key_words, W.
  split; [exact K|].
  pose proof (upsert_entry_settles now chapter source_file s c e1) as S1.
  pose proof (upsert_entry_keeps_store now chapter source_file s c e1 OK)
    as OK1.
  pose proof (upsert_entry_grows now chapter source_file s c e1) as G1.
  assert (unanswered (clean_correct e1) = false) as U1
      by (unfold survives in V1; now apply negb_true_iff in V1).
  assert (unanswered (clean_correct e2) = false) as U2
      by (unfold survives in V2; now apply negb_true_iff in V2).
  destruct (settled_row _ _ _ S1 V1) as [r1 F1].
  split.
  - cbv zeta.
    destruct (upsert_entry now chapter source_file (s, c) e1) as [s1 c1].
    cbn [fst snd] in *.
    rewrite K in F1.
    destruct (upsert_entry_existing now chapter source_file s1 c1 e2 r1 U2 F1)
      as (Q & H1 & H2 & _).
    rewrite Q, H1, H2. repeat split; auto.
    rewrite K, (question_row_only s1 chapter (entry_key e2) r1);
      [reflexivity | apply OK1 | exact F1].
  - intro D. cbv zeta.
    pose proof (fun O U F =>
                  upsert_entry_new now chapter source_file s c e1 O U F) as N1.
    cbv zeta in N1.
    destruct (upsert_entry now chapter source_file (s, c) e1) as [s1 c1].
    cbn [fst snd] in *.
    pose proof (upsert_entry_settles now chapter' source_file s1 c1 e2) as S2.
    pose proof (upsert_entry_keeps_store now chapter' source_file s1 c1 e2 OK1)
      as OK2.
    pose proof (upsert_entry_grows now chapter' source_file s1 c1 e2) as G2.
    pose proof (fun O U F =>
                  upsert_entry_new now chapter' source_file s1 c1 e2 O U F)
      as N2.
    cbv zeta in N2.
    destruct (upsert_entry now chapter' source_file (s1, c1) e2) as [s2 c2].
    cbn [fst snd] in *.
    destruct (settled_row _ _ _ S2 V2) as [r2 F2].
    rewrite <- K in F2, N2.
    pose proof (question_row_grows s1 s2 chapter (entry_key e1) r1 G2 F1)
      as F1'.
    exists r1, r2. split; [exact F1'|]. split; [exact F2|].
    destruct (question_row_facts s2 chapter (entry_key e1) r1 F1')
      as (In1 & C1 & _).
    destruct (question_row_facts s2 chapter' (entry_key e1) r2 F2)
      as (In2 & C2 & _).
    split.
    + intro E. destruct OK2 as (_ & I2 & _).
      assert (r1 = r2) by (eapply NoDup_map_same; eauto).
      subst r2. congruence.
    + intros A1 A2.
      destruct (N1 (proj2 (proj2 OK)) U1 A1)
        as (q1 & rows1 & Hq1 & Hc1 & Hk1 & _ & _ & _ & _ & _ & _ & Hi1 & Hd1 & _).
      assert (question_row s1 chapter' (entry_key e1) = None) as A2'.
      { unfold question_row in *. rewrite Hq1, (find_app_none _ _ _ A2).
        simpl. unfold same_question. rewrite Hc1.
        destruct (str_eqb chapter chapter') eqn:E; [|reflexivity].
        apply str_eqb_eq in E. contradiction. }
      destruct (N2 (proj2 (proj2 OK1)) U2 A2')
        as (q2 & rows2 & Hq2 & Hc2 & Hk2 & _ & _ & _ & _ & _ & _ & Hi2 & Hd2 & _).
      assert (question_row s1 chapter (entry_key e1) = Some q1) as E1.
      { unfold question_row in *. rewrite Hq1, (find_app_none _ _ _ A1).
        simpl. now rewrite same_question_refl. }
      assert (question_row s2 chapter' (entry_key e1) = Some q2) as E2.
      { unfold question_row in *. rewrite Hq2, (find_app_none _ _ _ A2').
        simpl. now rewrite same_question_refl. }
      assert (r1 = q1) as -> by congruence.
      assert (r2 = q2) as -> by congruence.
      rewrite Hq2, Hq1, <- app_assoc, Hi2, Hi1, Hd2, Hd1.
      repeat split; auto. lia.
Qed.

(** *** The parser returns *)

Lemma collect_length (stop : str -> bool) :
  forall lines answers,
    (length (snd (collect stop lines answers)) <= length lines)%nat.
Proof.
  induction lines as [|l lines IH]; intro answers; simpl; [lia|].
  destruct (stop (strip l)); simpl; [lia|].
  etransitivity; [apply IH | lia].
Qed.

Lemma scan_returns :
  forall fuel lines cur entries,
    (length lines <= fuel)%nat ->
    exists es, scan fuel lines cur entries = Some es.
Proof.
  induction fuel as [|fuel IH]; intros [|raw rest] cur entries H;
    simpl in H; try lia; cbn [scan]; eauto.
  destruct (startswith (strip raw) LABEL_Q); [apply IH; lia|].
  destruct (startswith (strip raw) LABEL_YOUR && is_some cur).
  { pose proof (collect_length stop_your rest
                  (first_answer LABEL_YOUR (strip raw))) as L.
    destruct (collect stop_your rest _) as [answers rest'].
    apply IH. simpl in L. lia. }
  destruct (startswith (strip raw) LABEL_CORRECT && is_some cur).
  { pose proof (collect_length stop_correct rest
                  (first_answer LABEL_CORRECT (strip raw))) as L.
    destruct (collect stop_correct rest _) as [answers rest'].
    apply IH. simpl in L. lia. }
  apply IH. lia.
Qed.

(** [parse_blocks] returns a list of entries on every text. *)
Lemma parse_blocks_returns (text : str) :
  exists entries, parse_blocks text = Some entries.
Proof. apply scan_returns. reflexivity. Qed.

(** *** The parser is permissive *)

Lemma scan_fuel :
  forall fuel fuel' lines cur entries,
    (length lines <= fuel)%nat -> (length lines <= fuel')%nat ->
    scan fuel lines cur entries = scan fuel' lines cur entries.
Proof.
  induction fuel as [|fuel IH]; intros [|fuel'] [|raw rest] cur entries H H';
    simpl in H, H'; try lia; try reflexivity.
  cbn [scan].
  destruct (startswith (strip raw) LABEL_Q); [apply IH; lia|].
  destruct (startswith (strip raw) LABEL_YOUR && is_some cur).
  { pose proof (collect_length stop_your rest
                  (first_answer LABEL_YOUR (strip raw))) as L.
    destruct (collect stop_your rest _) as [answers rest'].
    apply IH; simpl in L; lia. }
  destruct (startswith (strip raw) LABEL_CORRECT && is_some cur).
  { pose proof (collect_length stop_correct rest
                  (first_answer LABEL_CORRECT (strip raw))) as L.
    destruct (collect stop_correct rest _) as [answers rest'].
    apply IH; simpl in L; lia. }
  apply IH; lia.
Qed.

(** A line met by the outer loop that opens no entry is passed over when no
    entry is open, or when it is neither a your-answer nor a correct-answer
    line. *)
Lemma scan_skips :
  forall fuel l rest cur entries,
    is_question_line l = false ->
    cur = None
    \/ (startswith (strip l) LABEL_YOUR = false
        /\ startswith (strip l) LABEL_CORRECT = false) ->
    scan (S fuel) (l :: rest) cur entries = scan fuel rest cur entries.
Proof.
  intros fuel l rest cur entries Q H. cbn [scan].
  unfold is_question_line in Q. rewrite Q.
  destruct H as [-> | [-> ->]]; simpl; [|reflexivity].
  now rewrite !andb_false_r.
Qed.

(** The inner loops stop in front of a question line. *)
Lemma collect_keeps_question_lines (stop : str -> bool) :
  (forall peek, startswith peek LABEL_Q = true -> stop peek = true) ->
  forall lines answers,
    filter is_question_line (snd (collect stop lines answers))
    = filter is_question_line lines.
Proof.
  intros Hstop. induction lines as [|l lines IH]; intro answers;
    [reflexivity|].
  cbn [collect]. destruct (stop (strip l)) eqn:S; [reflexivity|].
  rewrite IH. cbn [filter]. unfold is_question_line at 2.
  destruct (startswith (strip l) LABEL_Q) eqn:Q; [|reflexivity].
  rewrite (Hstop _ Q) in S. discriminate.
Qed.

Lemma stop_your_at_question (peek : str) :
  startswith peek LABEL_Q = true -> stop_your peek = true.
Proof.
  intro Q. unfold stop_your. rewrite Q. now rewrite orb_true_r.
Qed.

Lemma stop_correct_at_question (peek : str) :
  startswith peek LABEL_Q = true -> stop_correct peek = true.
Proof. intro Q. unfold stop_correct. now rewrite Q. Qed.

Lemma questions_so_far_flush (cur : option Entry) (entries : list Entry) :
  map question (snd (flush cur entries)) = questions_so_far cur entries.
Proof.
  unfold questions_so_far. destruct cur; simpl;
    [now rewrite map_app | now rewrite app_nil_r].
Qed.

(** The entries of the result are those in hand followed by one entry per
    question line left, in order, each with the question of its line. *)
Lemma scan_questions :
  forall fuel lines cur entries es,
    scan fuel lines cur entries = Some es ->
    map question es
    = questions_so_far cur entries
      ++ map question_of (filter is_question_line lines).
Proof.
  induction fuel as [|fuel IH]; intros [|raw rest] cur entries es;
    cbn [scan]; try discriminate.
  - intros [= <-]. simpl. now rewrite app_nil_r, questions_so_far_flush.
  - intros [= <-]. simpl. now rewrite app_nil_r, questions_so_far_flush.
  - cbn [filter]. unfold is_question_line at 1.
    destruct (startswith (strip raw) LABEL_Q) eqn:Q.
    { intro H. apply IH in H. rewrite H. unfold questions_so_far at 1.
      rewrite questions_so_far_flush. cbn [map question].
      unfold question_of. now rewrite <- app_assoc. }
    destruct (startswith (strip raw) LABEL_YOUR && is_some cur).
    { pose proof (collect_keeps_question_lines stop_your
                    stop_your_at_question rest
                    (first_answer LABEL_YOUR (strip raw))) as C.
      destruct (collect stop_your rest _) as [answers rest'].
      intro H. apply IH in H. rewrite H. cbn [snd] in C. rewrite C.
      f_equal. unfold questions_so_far. now destruct cur. }
    destruct (startswith (strip raw) LABEL_CORRECT && is_some cur).
    { pose proof (collect_keeps_question_lines stop_correct
                    stop_correct_at_question rest
                    (first_answer LABEL_CORRECT (strip raw))) as C.
      destruct (collect stop_correct rest _) as [answers rest'].
      intro H. apply IH in H. rewrite H. cbn [snd] in C. rewrite C.
      f_equal. unfold questions_so_far. now destruct cur. }
    apply IH.
Qed.

(** Lines in front of the first question line leave no trace. *)
Lemma parse_lines_preamble :
  forall pre rest,
    Forall (fun l => is_question_line l = false) pre ->
    parse_lines (pre ++ rest) = parse_lines rest.
Proof.
  unfold parse_lines. induction pre as [|l pre IH]; intros rest H;
    [reflexivity|].
  inversion H as [|? ? Hl Hpre]; subst.
  cbn [app length]. rewrite scan_skips by auto. now apply IH.
Qed.

(** C9, as the code has it.  The parser returns a list of entries on every
    text.  A line that the outer scan meets (one that no answer block has
    taken) and that opens no entry has no effect on the result when it
    begins with no marker, or when no entry is open.  The entries of the
    result are, in order, one per question line, with the question of that
    line; so lines in front of the first question line leave no entry. *)
Theorem parser_is_permissive :
  (forall text, exists entries, parse_blocks text = Some entries)
  /\ (forall fuel l rest cur entries,
        (length (l :: rest) <= fuel)%nat ->
        is_question_line l = false ->
        has_marker l = false \/ cur = None ->
        scan fuel (l :: rest) cur entries = scan fuel rest cur entries)
  /\ (forall lines entries,
        parse_lines lines = Some entries ->
        map question entries
        = map question_of (filter is_question_line lines))
  /\ (forall pre rest,
        Forall (fun l => is_question_line l = false) pre ->
        parse_lines (pre ++ rest) = parse_lines rest).
Proof.
  split; [exact parse_blocks_returns|].
  split; [|split; [|exact parse_lines_preamble]].
  - intros fuel l rest cur entries L Q H.
    destruct fuel as [|fuel]; [simpl in L; lia|].
    rewrite scan_skips; [apply scan_fuel; simpl in L; lia | exact Q |].
    destruct H as [H | H]; [right | now left].
    unfold has_marker in H. rewrite !orb_false_iff in H. tauto.
  - intros lines entries H. apply scan_questions in H. exact H.
Qed.

(** *** The end-to-end example *)

(** C2. The example transcript parses to two entries in source order; the
    first has the correct answers "A" and "管理硬體資源", the second is
    dropped by the unanswered filter; on an empty store the batch inserts
    one question and two answers, skips one unanswered entry and no
    duplicate. *)
Theorem end_to_end_example :
  forall now chapter source_file,
    exists e1 e2,
      parse_blocks example_text = Some [e1; e2]
      /\ question e1 = lit "作業系統的主要功能是？"
      /\ correct e1 = [lit "A"; lit "管理硬體資源"]
      /\ question e2 = lit "[__1__]是分頁機制"
      /\ survives e1 = true
      /\ survives e2 = false
      /\ snd (upsert_entries now empty_store [e1; e2] chapter source_file)
         = {| inserted_questions := 1; duplicates_skipped := 0;
              skipped_unanswered := 1; inserted_answers := 2 |}.
Proof.
  intros now chapter source_file. do 2 eexists.
  split; [vm_compute; reflexivity|].
  repeat split; vm_compute; reflexivity.
Qed.

(** *** Importing twice *)

(** C1. For every text and chapter: the text parses; a second run of the
    engine on the parsed entries, against the store the first run left,
    adds no row to either table and reports no inserted question and no
    inserted answer; it counts every entry that passes the unanswered filter
    as a duplicate (and the others as unanswered); and in a store that
    satisfies the constraints of the schema, a first run that inserted a
    question also inserted an answer. *)
Theorem import_twice_inserts_nothing :
  forall text now1 now2 chapter source1 source2 s,
    exists entries,
      parse_blocks text = Some entries
      /\ let run1 := upsert_entries now1 s entries chapter source1 in
         let run2 := upsert_entries now2 (fst run1) entries chapter source2 in
         questions (fst run2) = questions (fst run1)
         /\ answers (fst run2) = answers (fst run1)
         /\ inserted_questions (snd run2) = 0
         /\ inserted_answers (snd run2) = 0
         /\ duplicates_skipped (snd run2)
            = Z.of_nat (length (filter survives entries))
         /\ skipped_unanswered (snd run2)
            = Z.of_nat (length (filter (fun e => negb (survives e)) entries))
         /\ (store_ok s ->
             0 < inserted_questions (snd run1) ->
             0 < inserted_questions (snd run1) <= inserted_answers (snd run1)).
Proof.
  intros text now1 now2 chapter source1 source2 s.
  destruct (parse_blocks_returns text) as [entries E].
  exists entries. split; [exact E|]. cbv zeta. unfold upsert_entries.
  pose proof (fold_upsert_settles now1 chapter source1 entries (s, no_stats))
    as S1.
  destruct (fold_upsert_settled now2 chapter source2 entries _ no_stats S1)
    as ([Hq Ha] & H1 & H2 & H3 & H4).
  repeat split; auto.
  destruct (fold_upsert_counts now1 chapter source1 entries s no_stats H)
    as [_ C].
  simpl in C. lia.
Qed.

(** *** The user's answers *)

Lemma upsert_entry_ignores_your :
  forall now chapter source_file st e1 e2,
    same_but_your e1 e2 ->
    upsert_entry now chapter source_file st e1
    = upsert_entry now chapter source_file st e2.
Proof.
  intros now chapter source_file [s c] e1 e2 [Hq Hc].
  unfold upsert_entry, clean_correct. now rewrite Hq, Hc.
Qed.

Lemma web_loop_is_upsert_entries :
  forall now s entries chapter source_file,
    import_questions_from_entries now s entries chapter source_file
    = upsert_entries now s entries chapter source_file.
Proof. reflexivity. Qed.

(** C10. Two batches that agree, entry by entry, on the question and on the
    correct answers leave the same store and the same four counters,
    whatever the user's answers are, in the importer and in the upload
    handler alike. *)
Theorem your_answers_do_not_matter :
  forall now s chapter source_file es1 es2,
    Forall2 same_but_your es1 es2 ->
    upsert_entries now s es1 chapter source_file
    = upsert_entries now s es2 chapter source_file
    /\ import_questions_from_entries now s es1 chapter source_file
       = import_questions_from_entries now s es2 chapter source_file.
Proof.
  intros now s chapter source_file es1 es2 H.
  enough (forall st,
             fold_left (upsert_entry now chapter source_file) es1 st
             = fold_left (upsert_entry now chapter source_file) es2 st) as E
    by (split; exact (E (s, no_stats))).
  induction H as [|e1 e2 l1 l2 He _ IH]; intro st; cbn [fold_left];
    [reflexivity|].
  rewrite (upsert_entry_ignores_your now chapter source_file st e1 e2 He).
  apply IH.
Qed.

(** ** More of the importer *)

(** *** [detect_type] *)

Lemma startswith_prefix (p s : str) :
  startswith s p = true <-> exists rest, s = p ++ rest.
Proof.
  revert s. induction p as [|x p IH]; intro s; cbn [app].
  - split; [eauto | now destruct s].
  - destruct s as [|c s].
    + split; [discriminate | intros [rest E]; discriminate].
    + cbn [startswith]. rewrite andb_true_iff, Z.eqb_eq, IH. split.
      * intros [-> [rest ->]]. eauto.
      * intros [rest E]. injection E as -> ->. eauto.
Qed.

Lemma slot_tail_unfold (s : str) :
  slot_tail s
  = startswith s [0x5F; 0x5F; 0x5D]
    || match s with
       | c :: s' => is_decimal c && slot_tail s'
       | [] => false
       end.
Proof. destruct s; reflexivity. Qed.

(** After the first digit: more digits, then "__]". *)
Lemma slot_tail_digits (s : str) :
  slot_tail s = true
  <-> exists ds rest,
      s = ds ++ [0x5F; 0x5F; 0x5D] ++ rest
      /\ Forall (fun d => is_decimal d = true) ds.
Proof.
  split.
  - induction s as [|c s IH]; rewrite slot_tail_unfold, orb_true_iff.
    + intros [H | H]; [|discriminate].
      apply startswith_prefix in H. destruct H as [rest E]. discriminate.
    + intros [H | H].
      * apply startswith_prefix in H. destruct H as [rest E].
        exists [], rest. split; [exact E | constructor].
      * apply andb_true_iff in H. destruct H as [D T].
        destruct (IH T) as (ds & rest & -> & F).
        exists (c :: ds), rest. split; [reflexivity | now constructor].
  - intros (ds & rest & -> & F). induction F as [|d ds D F IH].
    + rewrite slot_tail_unfold. apply orb_true_iff. left.
      apply startswith_prefix. exists rest. reflexivity.
    + rewrite <- app_comm_cons, slot_tail_unfold. cbv beta iota.
      apply orb_true_iff. right. apply andb_true_iff. split; assumption.
Qed.

Lemma slot_here_unfold (s : str) :
  slot_here s
  = startswith s [0x5B; 0x5F; 0x5F]
    && match skipn 3 s with
       | d :: s' => is_decimal d && slot_tail s'
       | [] => false
       end.
Proof.
  unfold slot_here.
  destruct s as [|a [|b [|c [|d s']]]]; cbn [startswith skipn];
    try reflexivity;
    repeat match goal with
           | |- context [match ?x with _ => _ end] =>
               is_var x; destruct x; try reflexivity
           end.
Qed.

Lemma slot_here_shape (s : str) :
  slot_here s = true
  <-> exists (ds rest : str),
      s = [0x5B; 0x5F; 0x5F] ++ ds ++ [0x5F; 0x5F; 0x5D] ++ rest
      /\ ds <> []
      /\ Forall (fun d => is_decimal d = true) ds.
Proof.
  rewrite slot_here_unfold, andb_true_iff, startswith_prefix. split.
  - intros [[s3 ->] H]. cbn [skipn app] in H.
    destruct s3 as [|d s']; [discriminate|].
    apply andb_true_iff in H. destruct H as [D T].
    apply slot_tail_digits in T. destruct T as (ds & rest & -> & F).
    exists (d :: ds), rest.
    split; [reflexivity | split; [discriminate | now constructor]].
  - intros (ds & rest & -> & N & F). split; [eauto|].
    cbn [skipn app]. destruct ds as [|d ds]; [congruence|].
    inversion F as [|? ? D F']; subst. rewrite <- app_comm_cons.
    apply andb_true_iff. split; [exact D|].
    apply slot_tail_digits. exists ds, rest. split; [reflexivity | exact F'].
Qed.

Lemma search_slot_unfold (s : str) :
  search_slot s
  = slot_here s
    || match s with
       | _ :: s' => search_slot s'
       | [] => false
       end.
Proof. destruct s; reflexivity. Qed.

Lemma search_slot_somewhere (s : str) :
  search_slot s = true
  <-> exists (pre suf : str), s = pre ++ suf /\ slot_here suf = true.
Proof.
  split.
  - induction s as [|c s IH]; rewrite search_slot_unfold, orb_true_iff.
    + intros [H | H]; [|discriminate]. exists [], []. auto.
    + intros [H | H]; [exists [], (c :: s); auto|].
      destruct (IH H) as (pre & suf & -> & S). exists (c :: pre), suf. auto.
  - intros (pre & suf & -> & S). induction pre as [|c pre IH].
    + rewrite search_slot_unfold, orb_true_iff. now left.
    + rewrite <- app_comm_cons, search_slot_unfold. cbv beta iota.
      apply orb_true_iff. now right.
Qed.

(** X1. [detect_type] answers "填空題" exactly for the questions that hold a
    blank slot: "[__", one or more decimal digits, "__]"; it answers "選擇題"
    for every other question. *)
Theorem detect_type_marks_blank_slots :
  forall q : str,
    (detect_type q = TYPE_BLANK \/ detect_type q = TYPE_CHOICE)
    /\ (detect_type q = TYPE_BLANK
        <-> exists (pre ds post : str),
            q = pre ++ [0x5B; 0x5F; 0x5F] ++ ds ++ [0x5F; 0x5F; 0x5D] ++ post
            /\ ds <> []
            /\ Forall (fun d => is_decimal d = true) ds).
Proof.
  intro q. unfold detect_type.
  destruct (search_slot q) eqn:S.
  - split; [now left|]. split; [|reflexivity]. intros _.
    apply search_slot_somewhere in S. destruct S as (pre & suf & -> & H).
    apply slot_here_shape in H. destruct H as (ds & rest & -> & N & F).
    exists pre, ds, rest. auto.
  - split; [now right|]. split; [intro H; vm_compute in H; discriminate|].
    intros (pre & ds & post & -> & N & F).
    assert (search_slot (pre ++ [0x5B; 0x5F; 0x5F] ++ ds
                         ++ [0x5F; 0x5F; 0x5D] ++ post) = true) as T.
    { apply search_slot_somewhere. eexists pre, _. split; [reflexivity|].
      apply slot_here_shape. exists ds, post. auto. }
    congruence.
Qed.

(** *** [strip] and [normalize_text] *)

Lemma rstrip_fixed (t : str) : ends_tidy t = true -> rstrip t = t.
Proof.
  unfold rstrip. induction t as [|c t IH]; [reflexivity|].
  cbn [ends_tidy rstrip_by]. destruct t as [|x t'].
  - cbn [rstrip_by]. intro H. apply negb_true_iff in H. now rewrite H.
  - intro H. rewrite (IH H). reflexivity.
Qed.

Lemma ends_tidy_app (a b : str) : b <> [] -> ends_tidy (a ++ b) = ends_tidy b.
Proof.
  clear isalnum decimal_value.
  intro N. induction a as [|c a IH]; [reflexivity|].
  rewrite <- app_comm_cons. cbn [ends_tidy].
  destruct (a ++ b) eqn:E; [|exact IH].
  apply app_eq_nil in E. tauto.
Qed.

(** A string that neither starts nor ends with white space is its own
    [strip]. *)
Lemma strip_fixed (t : str) :
  match t with c :: _ => isspace c = false | [] => True end ->
  ends_tidy t = true ->
  strip t = t.
Proof.
  intros H T. unfold strip, lstrip.
  destruct t as [|c t]; [reflexivity|].
  cbn [dropwhile]. rewrite H. now apply rstrip_fixed.
Qed.

Lemma strip_head (s : str) :
  match strip s with c :: _ => isspace c = false | [] => True end.
Proof.
  unfold strip. destruct (lstrip_head s) as [-> | (c & r & -> & Hc)];
    [exact I|].
  destruct (rstrip_head c r Hc) as [r' ->]. exact Hc.
Qed.

Lemma strip_idem (s : str) : strip (strip s) = strip s.
Proof.
  apply strip_fixed; [apply strip_head | apply rstrip_tidy].
Qed.

Lemma split_from_word_app (w : str) :
  Forall (fun c => isspace c = false) w ->
  forall rest acc, split_from (w ++ rest) acc = split_from rest (rev w ++ acc).
Proof.
  induction 1 as [|c w Hc _ IH]; intros rest acc; [reflexivity|].
  rewrite <- app_comm_cons. cbn [split_from rev]. rewrite Hc, IH.
  now rewrite <- app_assoc.
Qed.

Lemma split_join_words (ws : list str) :
  Forall is_word_str ws -> split (join [0x20] ws) = ws.
Proof.
  unfold split. induction 1 as [|w ws [N W] F IH]; [reflexivity|].
  destruct ws as [|w' ws].
  - cbn [join]. rewrite <- (app_nil_r w) at 1.
    rewrite split_from_word_app by exact W. cbn [split_from].
    rewrite app_nil_r.
    destruct (rev w) eqn:R; [|now rewrite <- R, rev_involutive].
    apply (f_equal (@rev char)) in R. rewrite rev_involutive in R.
    contradiction.
  - change (join [0x20] (w :: w' :: ws))
      with (w ++ [0x20] ++ join [0x20] (w' :: ws)).
    rewrite split_from_word_app by exact W. rewrite app_nil_r.
    cbn [app split_from]. change (isspace 0x20) with true. cbv iota.
    destruct (rev w) eqn:R.
    + apply (f_equal (@rev char)) in R. rewrite rev_involutive in R.
      contradiction.
    + rewrite <- R, rev_involutive, IH. reflexivity.
Qed.

Lemma split_from_words :
  forall s acc,
    Forall (fun c => isspace c = false) acc ->
    Forall is_word_str (split_from s acc).
Proof.
  assert (forall acc : str,
             acc <> [] -> Forall (fun c => isspace c = false) acc ->
             is_word_str (rev acc)) as W.
  { intros acc N F. split; [|now apply Forall_rev].
    intro R. apply (f_equal (@rev char)) in R.
    rewrite rev_involutive in R. contradiction. }
  induction s as [|c s IH]; intros acc F; cbn [split_from].
  - destruct acc; [constructor|].
    constructor; [apply W; [discriminate | exact F] | constructor].
  - destruct (isspace c) eqn:Hc.
    + destruct acc; [now apply IH|].
      constructor; [apply W; [discriminate | exact F] | now apply IH].
    + apply IH. now constructor.
Qed.

Lemma join_words_head (ws : list str) :
  Forall is_word_str ws ->
  match join [0x20] ws with c :: _ => isspace c = false | [] => True end.
Proof.
  intros F. destruct F as [|w ws [N W] F]; [exact I|].
  destruct w as [|c w]; [congruence|].
  inversion W; subst. destruct ws; cbn [join app]; assumption.
Qed.

Lemma word_tidy (w : str) :
  Forall (fun c => isspace c = false) w -> ends_tidy w = true.
Proof.
  induction 1 as [|c w Hc F IH]; [reflexivity|].
  cbn [ends_tidy]. destruct w; [now rewrite Hc | exact IH].
Qed.

Lemma join_words_tidy (ws : list str) :
  Forall is_word_str ws -> ends_tidy (join [0x20] ws) = true.
Proof.
  induction 1 as [|w ws [N W] F IH]; [reflexivity|].
  destruct ws as [|w' ws]; [now apply word_tidy|].
  change (join [0x20] (w :: w' :: ws))
    with (w ++ [0x20] ++ join [0x20] (w' :: ws)).
  rewrite app_assoc, ends_tidy_app; [exact IH|].
  inversion F as [|? ? [N' _] _]; subst.
  destruct w'; [congruence|]. destruct ws; discriminate.
Qed.

Lemma join_words_spaces (ws : list str) :
  Forall is_word_str ws ->
  Forall (fun c => isspace c = true -> c = 0x20) (join [0x20] ws).
Proof.
  induction 1 as [|w ws [N W] F IH]; [constructor|].
  assert (Forall (fun c => isspace c = true -> c = 0x20) w) as Hw.
  { eapply Forall_impl; [|exact W]. intros c H1 H2. congruence. }
  destruct ws as [|w' ws]; [exact Hw|].
  change (join [0x20] (w :: w' :: ws))
    with (w ++ [0x20] ++ join [0x20] (w' :: ws)).
  apply Forall_app. split; [exact Hw|].
  apply Forall_app. split; [repeat constructor | exact IH].
Qed.

(** X2. The dedup key keeps the words of the text and is stable: computing
    the key of a key changes nothing; the key neither starts nor ends with
    white space, and the only white space in it is the single space
    U+0020. *)
Theorem normalize_text_is_canonical :
  forall s : str,
    split (normalize_text s) = split s
    /\ normalize_text (normalize_text s) = normalize_text s
    /\ strip (normalize_text s) = normalize_text s
    /\ Forall (fun c => isspace c = true -> c = 0x20) (normalize_text s).
Proof.
  intro s.
  assert (Forall is_word_str (split s)) as W
      by (apply split_from_words; constructor).
  assert (split (normalize_text s) = split s) as E
      by (rewrite normalize_text_words; now apply split_join_words).
  split; [exact E|]. split.
  - rewrite (normalize_text_words (normalize_text s)), E.
    symmetry. apply normalize_text_words.
  - rewrite normalize_text_words. split.
    + apply strip_fixed; [now apply join_words_head | now apply join_words_tidy].
    + now apply join_words_spaces.
Qed.

(** *** [parse_blocks]: what the entries look like *)

Lemma collect_clean (stop : str -> bool) :
  forall lines answers,
    Forall clean_answer answers ->
    Forall clean_answer (fst (collect stop lines answers)).
Proof.
  induction lines as [|l lines IH]; intros answers F; cbn [collect];
    [exact F|].
  destruct (stop (strip l)); [exact F|]. apply IH.
  destruct (str_eqb (strip l) []) eqn:E; [exact F|].
  apply Forall_app. split; [exact F|]. constructor; [|constructor].
  split; [now apply str_eqb_neq | apply strip_idem].
Qed.

Lemma first_answer_clean (label line : str) :
  Forall clean_answer (first_answer label line).
Proof.
  unfold first_answer.
  destruct (strip (slice_from (length label) line)) as [|c r] eqn:E;
    [constructor|].
  cbn [truthy]. constructor; [|constructor].
  split; [discriminate|]. rewrite <- E. apply strip_idem.
Qed.

Lemma scan_clean :
  forall fuel lines cur entries es,
    Forall clean_entry entries ->
    match cur with Some e => clean_entry e | None => True end ->
    scan fuel lines cur entries = Some es ->
    Forall clean_entry es.
Proof.
  assert (forall cur entries,
             Forall clean_entry entries ->
             match cur with Some e => clean_entry e | None => True end ->
             Forall clean_entry (snd (flush cur entries))) as FL.
  { intros [e|] entries F C; cbn [flush snd]; [|exact F].
    apply Forall_app. split; [exact F | now constructor]. }
  induction fuel as [|fuel IH]; intros [|raw rest] cur entries es F C;
    cbn [scan]; try discriminate.
  - intros [= <-]. now apply FL.
  - intros [= <-]. now apply FL.
  - destruct (startswith (strip raw) LABEL_Q).
    { apply IH; [now apply FL|].
      split; [apply strip_idem | split; constructor]. }
    destruct (startswith (strip raw) LABEL_YOUR && is_some cur).
    { pose proof (collect_clean stop_your rest _
                    (first_answer_clean LABEL_YOUR (strip raw))) as A.
      destruct (collect stop_your rest _) as [answers rest'].
      apply IH; [exact F|]. destruct cur as [e|]; [|exact I].
      destruct C as (C1 & C2 & C3). repeat split; assumption. }
    destruct (startswith (strip raw) LABEL_CORRECT && is_some cur).
    { pose proof (collect_clean stop_correct rest _
                    (first_answer_clean LABEL_CORRECT (strip raw))) as A.
      destruct (collect stop_correct rest _) as [answers rest'].
      apply IH; [exact F|]. destruct cur as [e|]; [|exact I].
      destruct C as (C1 & C2 & C3). repeat split; assumption. }
    now apply IH.
Qed.

Lemma clean_correct_of_clean (e : Entry) :
  Forall clean_answer (correct e) -> clean_correct e = correct e.
Proof.
  unfold clean_correct. induction 1 as [|a l [N S] F IH]; [reflexivity|].
  cbn [filter]. rewrite S.
  destruct (str_eqb a []) eqn:E; [apply str_eqb_eq in E; contradiction|].
  cbn [negb map]. now rewrite S, IH.
Qed.

(** X3. Every entry the parser returns has a trimmed question and trimmed,
    non-empty answers in both lists; so the trimming and the dropping of
    empty answers at the start of the upsert loop change nothing on parsed
    entries. *)
Theorem parsed_entries_are_clean :
  forall text : str,
    exists entries,
      parse_blocks text = Some entries
      /\ Forall (fun e =>
                   strip (question e) = question e
                   /\ Forall clean_answer (your e)
                   /\ Forall clean_answer (correct e)
                   /\ clean_correct e = correct e)
           entries.
Proof.
  intro text. destruct (parse_blocks_returns text) as [entries E].
  exists entries. split; [exact E|].
  assert (Forall clean_entry entries) as C.
  { unfold parse_blocks, parse_lines in E.
    exact (scan_clean _ _ None [] entries (Forall_nil _) I E). }
  eapply Forall_impl; [|exact C].
  intros e (C1 & C2 & C3). repeat split; try assumption.
  now apply clean_correct_of_clean.
Qed.

(** *** [parse_blocks]: blank lines and concatenation *)

Lemma collect_blank (stop : str -> bool) (b : str) (l2 : list str) :
  stop [] = false -> strip b = [] ->
  forall rest answers,
    fst (collect stop (rest ++ b :: l2) answers)
    = fst (collect stop (rest ++ l2) answers)
    /\ (snd (collect stop (rest ++ b :: l2) answers)
        = snd (collect stop (rest ++ l2) answers)
        \/ exists r',
            snd (collect stop (rest ++ b :: l2) answers) = r' ++ b :: l2
            /\ snd (collect stop (rest ++ l2) answers) = r' ++ l2).
Proof.
  intros S B. induction rest as [|l rest IH]; intro answers.
  - cbn [app]. cbn [collect]. rewrite B, S. cbn [str_eqb].
    change (str_eqb [] []) with true. cbv iota. auto.
  - rewrite <- !app_comm_cons. cbn [collect].
    destruct (stop (strip l)).
    + cbn [fst snd]. split; [reflexivity|]. right. exists (l :: rest). auto.
    + apply IH.
Qed.

Lemma blank_has_no_label (b label : str) :
  strip b = [] -> label <> [] -> startswith (strip b) label = false.
Proof. intros -> N. destruct label; [congruence | reflexivity]. Qed.

Lemma scan_blank (b : str) (l2 : list str) :
  strip b = [] ->
  forall fuel l1 cur entries,
    (length (l1 ++ b :: l2) <= fuel)%nat ->
    scan fuel (l1 ++ b :: l2) cur entries = scan fuel (l1 ++ l2) cur entries.
Proof.
  intro B. induction fuel as [|fuel IH]; intros l1 cur entries L.
  { rewrite length_app in L. simpl in L. lia. }
  destruct l1 as [|raw rest].
  - cbn [app]. cbn [app length] in L.
    rewrite scan_skips.
    + apply scan_fuel; lia.
    + unfold is_question_line. now apply blank_has_no_label.
    + right. split; now apply blank_has_no_label.
  - rewrite <- !app_comm_cons. cbn [scan].
    rewrite <- app_comm_cons in L. cbn [length] in L.
    destruct (startswith (strip raw) LABEL_Q); [apply IH; lia|].
    destruct (startswith (strip raw) LABEL_YOUR && is_some cur).
    { pose proof (collect_length stop_your (rest ++ b :: l2)
                    (first_answer LABEL_YOUR (strip raw))) as CL.
      destruct (collect_blank stop_your b l2 eq_refl B rest
                  (first_answer LABEL_YOUR (strip raw))) as [A R].
      destruct (collect stop_your (rest ++ b :: l2) _) as [a1 r1].
      destruct (collect stop_your (rest ++ l2) _) as [a2 r2].
      cbn [fst snd] in *. subst a2.
      destruct R as [-> | (r' & -> & ->)]; [reflexivity|].
      apply IH. lia. }
    destruct (startswith (strip raw) LABEL_CORRECT && is_some cur).
    { pose proof (collect_length stop_correct (rest ++ b :: l2)
                    (first_answer LABEL_CORRECT (strip raw))) as CL.
      destruct (collect_blank stop_correct b l2 eq_refl B rest
                  (first_answer LABEL_CORRECT (strip raw))) as [A R].
      destruct (collect stop_correct (rest ++ b :: l2) _) as [a1 r1].
      destruct (collect stop_correct (rest ++ l2) _) as [a2 r2].
      cbn [fst snd] in *. subst a2.
      destruct R as [-> | (r' & -> & ->)]; [reflexivity|].
      apply IH. lia. }
    apply IH. lia.
Qed.

(** X4. A line that is empty or holds only white space can be added or
    removed anywhere among the lines without changing the entries. *)
Theorem blank_lines_do_not_matter :
  forall (b : str) (l1 l2 : list str),
    strip b = [] ->
    parse_lines (l1 ++ b :: l2) = parse_lines (l1 ++ l2).
Proof.
  intros b l1 l2 B. unfold parse_lines.
  rewrite (scan_blank b l2 B) by apply le_n.
  apply scan_fuel; [|apply le_n].
  rewrite !length_app. simpl. lia.
Qed.

Lemma scan_prefix :
  forall fuel lines cur pre entries,
    scan fuel lines cur (pre ++ entries)
    = option_map (app pre) (scan fuel lines cur entries).
Proof.
  assert (forall cur (pre entries : list Entry),
             snd (flush cur (pre ++ entries))
             = pre ++ snd (flush cur entries)) as FL.
  { intros [e|] pre entries; cbn [flush snd];
      [now rewrite app_assoc | reflexivity]. }
  induction fuel as [|fuel IH]; intros [|raw rest] cur pre entries;
    cbn [scan]; try reflexivity.
  - now rewrite FL.
  - now rewrite FL.
  - destruct (startswith (strip raw) LABEL_Q); [rewrite FL; apply IH|].
    destruct (startswith (strip raw) LABEL_YOUR && is_some cur).
    { destruct (collect stop_your rest _) as [answers rest']. apply IH. }
    destruct (startswith (strip raw) LABEL_CORRECT && is_some cur).
    { destruct (collect stop_correct rest _) as [answers rest']. apply IH. }
    apply IH.
Qed.

Lemma collect_app_stop (stop : str -> bool) (q : str) (l2 : list str) :
  stop (strip q) = true ->
  forall l answers,
    collect stop (l ++ q :: l2) answers
    = (fst (collect stop l answers), snd (collect stop l answers) ++ q :: l2).
Proof.
  intro S. induction l as [|x l IH]; intro answers.
  - cbn [app collect]. now rewrite S.
  - rewrite <- app_comm_cons. cbn [collect].
    destruct (stop (strip x)); [reflexivity | apply IH].
Qed.

Lemma scan_app_question (q : str) (l2 : list str) :
  is_question_line q = true ->
  forall fuel l1 cur entries,
    (length (l1 ++ q :: l2) <= fuel)%nat ->
    exists es1,
      scan fuel l1 cur entries = Some es1
      /\ forall fuel2,
          (length l2 <= fuel2)%nat ->
          scan fuel (l1 ++ q :: l2) cur entries
          = scan fuel2 l2 (Some (opened_by q)) es1.
Proof.
  intro Q. unfold is_question_line in Q.
  induction fuel as [|fuel IH]; intros l1 cur entries L.
  { rewrite length_app in L. simpl in L. lia. }
  destruct l1 as [|raw rest].
  - cbn [app]. cbn [app length] in L. exists (snd (flush cur entries)).
    split; [reflexivity|]. intros fuel2 L2. cbn [scan]. rewrite Q.
    apply scan_fuel; lia.
  - rewrite <- app_comm_cons in *. cbn [length] in L. cbn [scan].
    destruct (startswith (strip raw) LABEL_Q); [apply IH; lia|].
    destruct (startswith (strip raw) LABEL_YOUR && is_some cur).
    { rewrite (collect_app_stop stop_your q l2
                 (stop_your_at_question _ Q)).
      pose proof (collect_length stop_your rest
                    (first_answer LABEL_YOUR (strip raw))) as CL.
      destruct (collect stop_your rest _) as [answers rest'].
      cbn [fst snd] in *. apply IH.
      rewrite length_app in *. simpl in *. lia. }
    destruct (startswith (strip raw) LABEL_CORRECT && is_some cur).
    { rewrite (collect_app_stop stop_correct q l2
                 (stop_correct_at_question _ Q)).
      pose proof (collect_length stop_correct rest
                    (first_answer LABEL_CORRECT (strip raw))) as CL.
      destruct (collect stop_correct rest _) as [answers rest'].
      cbn [fst snd] in *. apply IH.
      rewrite length_app in *. simpl in *. lia. }
    apply IH. lia.
Qed.

(** X5. Cutting the lines in front of a question line splits the work: the
    entries of the whole are the entries of the part before the cut followed
    by the entries of the part from the question line on. *)
Theorem parse_splits_at_question_lines :
  forall (q : str) (l1 l2 : list str),
    is_question_line q = true ->
    exists es1 es2,
      parse_lines l1 = Some es1
      /\ parse_lines (q :: l2) = Some es2
      /\ parse_lines (l1 ++ q :: l2) = Some (es1 ++ es2).
Proof.
  intros q l1 l2 Q. unfold parse_lines.
  destruct (scan_app_question q l2 Q (length (l1 ++ q :: l2)) l1 None [])
    as (es1 & E1 & E2); [apply le_n|].
  destruct (scan_returns (length l2) l2 (Some (opened_by q)) [])
    as [es2 E3]; [apply le_n|].
  exists es1, es2. split; [|split].
  - rewrite <- E1. apply scan_fuel; [apply le_n|].
    rewrite length_app. lia.
  - cbn [length scan]. unfold is_question_line in Q. rewrite Q. exact E3.
  - rewrite (E2 (length l2) (le_n _)).
    rewrite <- (app_nil_r es1) at 1. rewrite scan_prefix.
    now rewrite E3.
Qed.

(** *** Line ends *)

Lemma splitlines_from_lf (x line : str) :
  splitlines_from (0x0A :: x) line = rev line :: splitlines_from x [].
Proof. cbn [splitlines_from]. destruct x; reflexivity. Qed.

Lemma splitlines_from_other (c : char) (x line : str) :
  c <> 0x0D ->
  splitlines_from (c :: x) line
  = if islinebreak c then rev line :: splitlines_from x []
    else splitlines_from x (c :: line).
Proof.
  intro N. cbn [splitlines_from].
  destruct (islinebreak c); [|reflexivity].
  apply Z.eqb_neq in N. rewrite N. destruct x; reflexivity.
Qed.

Lemma splitlines_from_translate :
  forall n (s line : str),
    (length s <= n)%nat ->
    splitlines_from (translate_newlines s) line = splitlines_from s line.
Proof.
  induction n as [|n IH]; intros [|c s'] line L; try reflexivity;
    cbn [length] in L; [lia|].
  cbn [translate_newlines]. destruct (c =? 0x0D) eqn:C.
  - apply Z.eqb_eq in C. subst c. rewrite splitlines_from_lf.
    cbn [splitlines_from]. change (islinebreak 13) with true. cbv iota.
    f_equal. destruct s' as [|c' s'']; [reflexivity|].
    change (13 =? 13) with true. cbn [andb length] in *.
    destruct (c' =? 0x0A); apply IH; cbn [length]; lia.
  - apply Z.eqb_neq in C. rewrite !splitlines_from_other by exact C.
    destruct (islinebreak c); [f_equal|]; apply IH; lia.
Qed.

Lemma parse_blocks_translate (s : str) :
  parse_blocks (translate_newlines s) = parse_blocks s.
Proof.
  unfold parse_blocks, lines_of, splitlines.
  now rewrite (splitlines_from_translate (length s) s []) by apply le_n.
Qed.

(** X6. Reading a file in text mode turns "\r\n" and "\r" into "\n"; that
    changes neither the lines nor the entries: [main] parses a file to the
    entries of its decoded bytes, whatever line ends it uses. *)
Theorem line_ends_do_not_matter :
  (forall s : str, splitlines (translate_newlines s) = splitlines s)
  /\ (forall encoding content,
        parse_blocks (read_text encoding content)
        = parse_blocks match encoding with
                       | UTF_8 => utf8_decode content
                       | UTF_8_SIG => utf8_sig_decode content
                       end).
Proof.
  split.
  - intro s. unfold splitlines.
    apply (splitlines_from_translate (length s)). apply le_n.
  - intros encoding content. unfold read_text. apply parse_blocks_translate.
Qed.

(** X7. The two entry points agree on an uploaded file: when the upload
    handler imports a file into a chapter, the stand-alone importer run with
    [--encoding utf-8-sig] on the same bytes, for a path that resolves to
    that chapter and with the same source label, returns the same store and
    the same counters. *)
Theorem upload_agrees_with_importer :
  forall now s chapter chapter_arg f data label result,
    determine_chapter f chapter_arg = Some chapter ->
    import_questions now s chapter (UploadedFile data label) = Some result ->
    import_file now UTF_8_SIG chapter_arg s f label data = Some result.
Proof.
  intros now s chapter chapter_arg f data label result D H.
  unfold import_file. rewrite D. unfold read_text.
  rewrite parse_blocks_translate.
  unfold import_questions, submitted_content in H.
  destruct (truthy (utf8_sig_decode data)); [|discriminate].
  destruct (parse_blocks (utf8_sig_decode data)) as [[|e es]|];
    try discriminate.
  exact H.
Qed.

(** *** [upsert_entries]: the counters *)

Lemma upsert_entry_accounts :
  forall now chapter source_file s c e,
    let st' := upsert_entry now chapter source_file (s, c) e in
    inserted_questions (snd st') + duplicates_skipped (snd st')
      + skipped_unanswered (snd st')
    = inserted_questions c + duplicates_skipped c + skipped_unanswered c + 1
    /\ skipped_unanswered (snd st')
       = skipped_unanswered c + (if survives e then 0 else 1)
    /\ Z.of_nat (length (questions (fst st')))
       = Z.of_nat (length (questions s))
         + (inserted_questions (snd st') - inserted_questions c)
    /\ Z.of_nat (length (answers (fst st')))
       = Z.of_nat (length (answers s))
         + (inserted_answers (snd st') - inserted_answers c)
    /\ inserted_questions c <= inserted_questions (snd st')
    /\ duplicates_skipped c <= duplicates_skipped (snd st')
    /\ inserted_answers c <= inserted_answers (snd st').
Proof.
  clear isalnum.
  intros now chapter source_file s c e. cbv zeta. unfold survives.
  destruct (upsert_entry_cases now chapter source_file s c e)
    as [[U ->] | [(U & F & ->) | (U & row & F & ->)]]; rewrite U;
    cbn [negb fst snd].
  - cbn [count_unanswered inserted_questions duplicates_skipped
         skipped_unanswered inserted_answers]. lia.
  - match goal with
    | |- context [insert_answers ?n ?q ?i ?cs (?s1, ?c1)] =>
        destruct (insert_answers_frame cs n q i s1 c1)
          as (Hq & _ & H1 & H2 & H3 & rows & Ha & _ & Hn)
    end.
    rewrite Hq, Ha, H1, H2, H3, Hn.
    cbn [with_question questions answers count_inserted_q
         inserted_questions duplicates_skipped skipped_unanswered
         inserted_answers].
    rewrite !length_app. cbn [length]. lia.
  - match goal with
    | |- context [insert_answers ?n ?q ?i ?cs (?s1, ?c1)] =>
        destruct (insert_answers_frame cs n q i s1 c1)
          as (Hq & _ & H1 & H2 & H3 & rows & Ha & _ & Hn)
    end.
    rewrite Hq, Ha, H1, H2, H3, Hn.
    cbn [after_ignored_question questions answers count_skipped_q
         inserted_questions duplicates_skipped skipped_unanswered
         inserted_answers].
    rewrite !length_app. lia.
Qed.

Lemma fold_upsert_accounts :
  forall now chapter source_file entries s c,
    let st' := fold_left (upsert_entry now chapter source_file) entries (s, c) in
    inserted_questions (snd st') + duplicates_skipped (snd st')
      + skipped_unanswered (snd st')
    = inserted_questions c + duplicates_skipped c + skipped_unanswered c
      + Z.of_nat (length entries)
    /\ skipped_unanswered (snd st')
       = skipped_unanswered c
         + Z.of_nat (length (filter (fun e => negb (survives e)) entries))
    /\ Z.of_nat (length (questions (fst st')))
       = Z.of_nat (length (questions s))
         + (inserted_questions (snd st') - inserted_questions c)
    /\ Z.of_nat (length (answers (fst st')))
       = Z.of_nat (length (answers s))
         + (inserted_answers (snd st') - inserted_answers c)
    /\ inserted_questions c <= inserted_questions (snd st')
    /\ duplicates_skipped c <= duplicates_skipped (snd st')
    /\ inserted_answers c <= inserted_answers (snd st').
Proof.
  clear isalnum.
  induction entries as [|e es IH]; intros s c; cbv zeta; cbn [fold_left].
  - cbn [fst snd length filter]. lia.
  - pose proof (upsert_entry_accounts now chapter source_file s c e) as A.
    cbv zeta in A.
    destruct (upsert_entry now chapter source_file (s, c) e) as [s1 c1].
    cbn [fst snd] in A. specialize (IH s1 c1). cbv zeta in IH.
    cbn [length filter]. destruct (survives e); cbn [negb length]; lia.
Qed.

(** X8. The counters of a batch account for every entry and for every row:
    inserted, duplicate and unanswered questions add up to the number of
    entries; the unanswered ones are those the filter drops; the two tables
    grow by exactly the inserted questions and the inserted answers. *)
Theorem counters_account_for_the_batch :
  forall now s entries chapter source_file,
    let result := upsert_entries now s entries chapter source_file in
    let stats := snd result in
    inserted_questions stats + duplicates_skipped stats
      + skipped_unanswered stats
    = Z.of_nat (length entries)
    /\ skipped_unanswered stats
       = Z.of_nat (length (filter (fun e => negb (survives e)) entries))
    /\ Z.of_nat (length (questions (fst result)))
       = Z.of_nat (length (questions s)) + inserted_questions stats
    /\ Z.of_nat (length (answers (fst result)))
       = Z.of_nat (length (answers s)) + inserted_answers stats
    /\ 0 <= inserted_questions stats
    /\ 0 <= duplicates_skipped stats
    /\ 0 <= inserted_answers stats.
Proof.
  clear isalnum.
  intros now s entries chapter source_file. cbv zeta. unfold upsert_entries.
  pose proof (fold_upsert_accounts now chapter source_file entries s no_stats)
    as A.
  cbv zeta in A. cbn [no_stats inserted_questions duplicates_skipped
                      skipped_unanswered inserted_answers] in A.
  lia.
Qed.

(** *** [upsert_entries]: a batch in two parts *)

Lemma add_stats_none (c : Stats) : add_stats c no_stats = c.
Proof.
  clear.
  destruct c. unfold add_stats, no_stats.
  cbn [inserted_questions duplicates_skipped skipped_unanswered
       inserted_answers].
  now rewrite !Z.add_0_r.
Qed.

Lemma insert_answers_shift :
  forall cs now qid idx s c d,
    insert_answers now qid idx cs (s, add_stats c d)
    = (fst (insert_answers now qid idx cs (s, d)),
       add_stats c (snd (insert_answers now qid idx cs (s, d)))).
Proof.
  induction cs as [|ans cs IH]; intros now qid idx s c d; [reflexivity|].
  rewrite !insert_answers_cons.
  destruct (snd (insert_answer now s qid idx ans)); [|apply IH].
  rewrite <- IH. do 2 f_equal.
  unfold count_inserted_a, add_stats.
  cbn [inserted_questions duplicates_skipped skipped_unanswered
       inserted_answers].
  now rewrite Z.add_assoc.
Qed.

Lemma upsert_entry_shift :
  forall now chapter source_file s c d e,
    upsert_entry now chapter source_file (s, add_stats c d) e
    = (fst (upsert_entry now chapter source_file (s, d) e),
       add_stats c (snd (upsert_entry now chapter source_file (s, d) e))).
Proof.
  intros now chapter source_file s c d e.
  assert (count_unanswered (add_stats c d) = add_stats c (count_unanswered d))
    as E1 by (unfold count_unanswered, add_stats; cbn; now rewrite Z.add_assoc).
  assert (count_inserted_q (add_stats c d) = add_stats c (count_inserted_q d))
    as E2 by (unfold count_inserted_q, add_stats; cbn; now rewrite Z.add_assoc).
  assert (count_skipped_q (add_stats c d) = add_stats c (count_skipped_q d))
    as E3 by (unfold count_skipped_q, add_stats; cbn; now rewrite Z.add_assoc).
  unfold upsert_entry.
  destruct (unanswered (clean_correct e)); [now rewrite E1|].
  destruct (insert_question now s chapter (strip (question e))
              (normalize_text (strip (question e)))
              (detect_type (strip (question e))) source_file)
    as [s1 [qid|]].
  - rewrite E2. apply insert_answers_shift.
  - destruct (select_question_id s1 chapter
                (normalize_text (strip (question e)))) as [qid|].
    + rewrite E3. apply insert_answers_shift.
    + now rewrite E3.
Qed.

Lemma fold_upsert_shift :
  forall now chapter source_file entries s c d,
    fold_left (upsert_entry now chapter source_file) entries
      (s, add_stats c d)
    = (fst (fold_left (upsert_entry now chapter source_file) entries (s, d)),
       add_stats c
         (snd (fold_left (upsert_entry now chapter source_file) entries
                 (s, d)))).
Proof.
  induction entries as [|e es IH]; intros s c d; [reflexivity|].
  cbn [fold_left]. rewrite upsert_entry_shift.
  destruct (upsert_entry now chapter source_file (s, d) e) as [s1 d1].
  apply IH.
Qed.

(** X9. A batch can be cut in two: running the first part and then the
    second part on the store the first left gives the store of the whole
    batch, and the counters of the whole batch are the sums of the counters
    of the parts. *)
Theorem batch_in_two_parts :
  forall now s es1 es2 chapter source_file,
    let part1 := upsert_entries now s es1 chapter source_file in
    let part2 := upsert_entries now (fst part1) es2 chapter source_file in
    upsert_entries now s (es1 ++ es2) chapter source_file
    = (fst part2, add_stats (snd part1) (snd part2)).
Proof.
  intros now s es1 es2 chapter source_file. cbv zeta. unfold upsert_entries.
  rewrite fold_left_app.
  destruct (fold_left (upsert_entry now chapter source_file) es1
              (s, no_stats)) as [s1 c1].
  cbn [fst snd]. rewrite <- (add_stats_none c1) at 1.
  apply fold_upsert_shift.
Qed.

(** *** [upsert_entries]: the unique index of the answers *)

Lemma same_answer_key (qid idx : Z) (ans : str) (l : list AnswerRow) :
  existsb (same_answer qid idx ans) l = false ->
  ~ In (qid, idx, ans)
      (map (fun a => (a_question_id a, a_position a, a_answer_text a)) l).
Proof.
  intros E H. apply in_map_iff in H. destruct H as (a & K & Ha).
  assert (existsb (same_answer qid idx ans) l = true) as T.
  { apply existsb_exists. exists a. split; [exact Ha|].
    inversion K; subst. unfold same_answer.
    now rewrite !Z.eqb_refl, str_eqb_refl. }
  congruence.
Qed.

Lemma insert_answers_unique :
  forall cs now qid idx s c,
    answers_unique s ->
    answers_unique (fst (insert_answers now qid idx cs (s, c))).
Proof.
  induction cs as [|ans cs IH]; intros now qid idx s c U; [exact U|].
  rewrite insert_answers_cons. apply IH.
  unfold insert_answer.
  destruct (existsb (same_answer qid idx ans) (answers s)) eqn:E;
    cbn [negb fst]; [exact U|].
  unfold answers_unique, answer_keys in *. cbn [answers].
  rewrite map_app. apply NoDup_app; [exact U | |].
  - repeat constructor. intros [].
  - cbn [map a_question_id a_position a_answer_text].
    intros k Hk [<- | []]. revert Hk. now apply same_answer_key.
Qed.

Lemma upsert_entry_answers_unique :
  forall now chapter source_file s c e,
    answers_unique s ->
    answers_unique (fst (upsert_entry now chapter source_file (s, c) e)).
Proof.
  intros now chapter source_file s c e U.
  destruct (upsert_entry_cases now chapter source_file s c e)
    as [[_ ->] | [(_ & _ & ->) | (_ & row & _ & ->)]];
    [exact U | |]; apply insert_answers_unique; exact U.
Qed.

Lemma fold_upsert_answers_unique :
  forall now chapter source_file entries st,
    answers_unique (fst st) ->
    answers_unique
      (fst (fold_left (upsert_entry now chapter source_file) entries st)).
Proof.
  induction entries as [|e es IH]; intros [s c] U; cbn [fold_left];
    [exact U|].
  apply IH. now apply upsert_entry_answers_unique.
Qed.

(** X10. A batch keeps the constraints of the schema: if no two question
    rows share a chapter and key or an id, no two answer rows share a
    question, position and text, and every answer row belongs to a question
    row, then the same holds after the batch. *)
Theorem batch_keeps_the_schema :
  forall now s entries chapter source_file,
    questions_unique s ->
    question_ids_unique s ->
    answers_owned s ->
    answers_unique s ->
    let s' := fst (upsert_entries now s entries chapter source_file) in
    questions_unique s'
    /\ question_ids_unique s'
    /\ answers_owned s'
    /\ answers_unique s'.
Proof.
  intros now s entries chapter source_file K I O U. cbv zeta.
  unfold upsert_entries.
  destruct (fold_upsert_keeps_store now chapter source_file entries
              (s, no_stats)) as (K' & I' & O'); [now repeat split|].
  repeat split; try assumption.
  now apply fold_upsert_answers_unique.
Qed.

(** *** [upsert_entries]: the rows it writes *)

Lemma clean_correct_clean (e : Entry) :
  Forall clean_answer (clean_correct e).
Proof.
  unfold clean_correct. induction (correct e) as [|a l IH]; [constructor|].
  cbn [filter]. destruct (str_eqb (strip a) []) eqn:E; [exact IH|].
  cbn [negb map]. constructor; [|exact IH].
  split; [now apply str_eqb_neq | apply strip_idem].
Qed.

Lemma insert_answers_rows :
  forall cs now qid idx s c,
    exists rows,
      answers (fst (insert_answers now qid idx cs (s, c)))
      = answers s ++ rows
      /\ Forall (fun r => idx <= a_position r
                          /\ In (a_answer_text r) cs) rows.
Proof.
  induction cs as [|ans cs IH]; intros now qid idx s c.
  - exists []. cbn [insert_answers fst]. now rewrite app_nil_r.
  - rewrite insert_answers_cons.
    match goal with
    | |- context [insert_answers _ _ _ _ (?s1, ?c1)] =>
        destruct (IH now qid (idx + 1) s1 c1) as (rows & Ha & F)
    end.
    assert (Forall (fun r => idx <= a_position r
                             /\ In (a_answer_text r) (ans :: cs)) rows) as F'.
    { eapply Forall_impl; [|exact F]. cbv beta.
      intros r (H1 & H2). split; [lia | now right]. }
    rewrite Ha. unfold insert_answer.
    destruct (existsb (same_answer qid idx ans) (answers s));
      cbn [negb fst answers].
    + exists rows. auto.
    + eexists (_ :: rows). rewrite <- app_assoc. split; [reflexivity|].
      constructor; [|exact F'].
      cbn [a_position a_answer_text].
      split; [lia | now left].
Qed.

Lemma upsert_entry_writes :
  forall now chapter source_file s c e,
    exists qs rows,
      questions (fst (upsert_entry now chapter source_file (s, c) e))
      = questions s ++ qs
      /\ answers (fst (upsert_entry now chapter source_file (s, c) e))
         = answers s ++ rows
      /\ Forall (question_row_written chapter source_file) qs
      /\ Forall answer_row_written rows.
Proof.
  intros now chapter source_file s c e.
  assert (forall rows,
             Forall (fun r => 1 <= a_position r
                              /\ In (a_answer_text r) (clean_correct e))
               rows ->
             Forall answer_row_written rows) as W.
  { intros rows F. eapply Forall_impl; [|exact F]. cbv beta.
    intros r (H1 & H2). split; [exact H1|].
    pose proof (clean_correct_clean e) as C. rewrite Forall_forall in C.
    now apply C. }
  destruct (upsert_entry_cases now chapter source_file s c e)
    as [[_ ->] | [(_ & _ & ->) | (_ & row & _ & ->)]].
  - exists [], []. cbn [fst]. rewrite !app_nil_r. auto.
  - match goal with
    | |- context [insert_answers ?n ?q ?i ?cs (?s1, ?c1)] =>
        destruct (insert_answers_frame cs n q i s1 c1) as (Hq & _);
        destruct (insert_answers_rows cs n q i s1 c1) as (rows & Ha & F)
    end.
    eexists [_], rows. rewrite Hq, Ha. cbn [with_question questions answers].
    split; [reflexivity|]. split; [reflexivity|].
    split; [|now apply W].
    constructor; [|constructor]. unfold question_row_written.
    cbn [q_chapter q_source_file q_text q_text_norm q_type].
    rewrite strip_idem, detect_type_checked. auto 10.
  - match goal with
    | |- context [insert_answers ?n ?q ?i ?cs (?s1, ?c1)] =>
        destruct (insert_answers_frame cs n q i s1 c1) as (Hq & _);
        destruct (insert_answers_rows cs n q i s1 c1) as (rows & Ha & F)
    end.
    exists [], rows. rewrite Hq, Ha.
    cbn [after_ignored_question questions answers]. rewrite app_nil_r.
    split; [reflexivity|]. split; [reflexivity|].
    split; [constructor | now apply W].
Qed.

Lemma fold_upsert_writes :
  forall now chapter source_file entries s c,
    exists qs rows,
      questions
        (fst (fold_left (upsert_entry now chapter source_file) entries (s, c)))
      = questions s ++ qs
      /\ answers
           (fst (fold_left (upsert_entry now chapter source_file) entries
                   (s, c)))
         = answers s ++ rows
      /\ Forall (question_row_written chapter source_file) qs
      /\ Forall answer_row_written rows.
Proof.
  induction entries as [|e es IH]; intros s c; cbn [fold_left].
  - exists [], []. cbn [fst]. rewrite !app_nil_r. auto.
  - destruct (upsert_entry_writes now chapter source_file s c e)
      as (qs1 & rows1 & Hq1 & Ha1 & Fq1 & Fa1).
    destruct (upsert_entry now chapter source_file (s, c) e) as [s1 c1].
    cbn [fst] in Hq1, Ha1.
    destruct (IH s1 c1) as (qs2 & rows2 & Hq2 & Ha2 & Fq2 & Fa2).
    exists (qs1 ++ qs2), (rows1 ++ rows2).
    rewrite Hq2, Ha2, Hq1, Ha1, <- !app_assoc.
    repeat split; try reflexivity; apply Forall_app; auto.
Qed.

(** X11. A batch only adds rows, at the end of the two tables.  Each
    question row it adds carries the chapter and the source label of the
    batch, a trimmed text stored verbatim, the key and the type computed
    from that text, and a type the CHECK constraint accepts; each answer row
    it adds has a position from 1 on and a trimmed, non-empty text. *)
Theorem batch_writes_well_formed_rows :
  forall now s entries chapter source_file,
    let s' := fst (upsert_entries now s entries chapter source_file) in
    exists qs rows,
      questions s' = questions s ++ qs
      /\ answers s' = answers s ++ rows
      /\ Forall (question_row_written chapter source_file) qs
      /\ Forall answer_row_written rows.
Proof.
  intros now s entries chapter source_file. cbv zeta.
  apply fold_upsert_writes.
Qed.

(** *** [main] *)

Lemma import_file_returns :
  forall now encoding chapter_arg s f,
    exists chapter entries,
      determine_chapter (f_path f) chapter_arg = Some chapter
      /\ file_entries encoding f = Some entries
      /\ import_file now encoding chapter_arg s (f_path f) (f_str f)
           (f_content f)
         = Some (upsert_entries now s entries chapter (f_str f)).
Proof.
  intros now encoding chapter_arg s f.
  destruct (parse_blocks_returns (read_text encoding (f_content f)))
    as [entries E].
  eexists _, entries. split; [apply determine_chapter_resolved|].
  split; [exact E|].
  unfold import_file. now rewrite determine_chapter_resolved, E.
Qed.

Lemma main_loop_accounts :
  forall clock encoding chapter_arg files i s gt,
    exists s' gt',
      main_loop clock i encoding chapter_arg files s gt = Some (s', gt')
      /\ inserted_questions gt' + duplicates_skipped gt'
           + skipped_unanswered gt'
         = inserted_questions gt + duplicates_skipped gt
           + skipped_unanswered gt
           + Z.of_nat (total_entries encoding files)
      /\ Z.of_nat (length (questions s'))
         = Z.of_nat (length (questions s))
           + (inserted_questions gt' - inserted_questions gt)
      /\ Z.of_nat (length (answers s'))
         = Z.of_nat (length (answers s))
           + (inserted_answers gt' - inserted_answers gt).
Proof.
  induction files as [|f files IH]; intros i s gt.
  - exists s, gt. cbn [main_loop total_entries fold_right].
    split; [reflexivity | lia].
  - cbn [main_loop total_entries fold_right].
    destruct (import_file_returns (clock i) encoding chapter_arg s f)
      as (chapter & entries & _ & E & ->).
    rewrite E. unfold upsert_entries.
    pose proof (fold_upsert_accounts (clock i) chapter (f_str f) entries s
                  no_stats) as A.
    cbv zeta in A.
    destruct (fold_left (upsert_entry (clock i) chapter (f_str f)) entries
                (s, no_stats)) as [s1 stats].
    cbn [fst snd no_stats inserted_questions duplicates_skipped
         skipped_unanswered inserted_answers] in A.
    destruct (IH (S i) s1 (add_stats gt stats))
      as (s' & gt' & -> & H1 & H2 & H3).
    exists s', gt'. split; [reflexivity|].
    fold (total_entries encoding files).
    unfold add_stats in H1, H2, H3.
    cbn [inserted_questions duplicates_skipped skipped_unanswered
         inserted_answers] in H1, H2, H3.
    rewrite Nat2Z.inj_add. lia.
Qed.

(** X12. With no file [main] exits with status 1.  With files it runs to
    the end; its grand totals account for every entry of every file
    (inserted, duplicate and unanswered questions add up to their number),
    and the two tables grow by exactly the inserted questions and answers
    of the grand totals. *)
Theorem main_totals_account_for_all_files :
  forall clock encoding chapter_arg s files,
    main clock encoding chapter_arg s [] = Exit 1
    /\ (files <> [] ->
        exists s' gt,
          main clock encoding chapter_arg s files = Done s' gt
          /\ inserted_questions gt + duplicates_skipped gt
               + skipped_unanswered gt
             = Z.of_nat (total_entries encoding files)
          /\ Z.of_nat (length (questions s'))
             = Z.of_nat (length (questions s)) + inserted_questions gt
          /\ Z.of_nat (length (answers s'))
             = Z.of_nat (length (answers s)) + inserted_answers gt).
Proof.
  intros clock encoding chapter_arg s files. split; [reflexivity|].
  intro N. unfold main.
  destruct (main_loop_accounts clock encoding chapter_arg files 0%nat s
              no_stats) as (s' & gt & E & H1 & H2 & H3).
  destruct files as [|f files]; [congruence|].
  rewrite E. exists s', gt. split; [reflexivity|].
  cbn [no_stats inserted_questions duplicates_skipped skipped_unanswered
       inserted_answers] in H1, H2, H3.
  lia.
Qed.

Lemma file_settled_grows (encoding : Encoding) (chapter_arg : option str)
  (s s' : Store) (f : InputFile) :
  grows s s' ->
  file_settled encoding chapter_arg s f ->
  file_settled encoding chapter_arg s' f.
Proof.
  intros G (chapter & entries & D & E & F).
  exists chapter, entries. split; [exact D|]. split; [exact E|].
  eapply Forall_impl; [|exact F]. intro e. now apply settled_grows.
Qed.

Lemma file_settled_same_tables (encoding : Encoding)
  (chapter_arg : option str) (s s' : Store) (f : InputFile) :
  same_tables s s' ->
  file_settled encoding chapter_arg s f ->
  file_settled encoding chapter_arg s' f.
Proof.
  intros T (chapter & entries & D & E & F).
  exists chapter, entries. split; [exact D|]. split; [exact E|].
  eapply Forall_impl; [|exact F]. intro e. now apply settled_same_tables.
Qed.

(** After the loop, every file it went through is settled. *)
Lemma main_loop_settles :
  forall clock encoding chapter_arg files i s gt s' gt',
    main_loop clock i encoding chapter_arg files s gt = Some (s', gt') ->
    grows s s' /\ Forall (file_settled encoding chapter_arg s') files.
Proof.
  induction files as [|f files IH]; intros i s gt s' gt' H;
    cbn [main_loop] in H.
  - injection H as <- <-. split; [apply grows_refl | constructor].
  - destruct (import_file_returns (clock i) encoding chapter_arg s f)
      as (chapter & entries & D & E & R).
    rewrite R in H.
    pose proof (fold_upsert_grows (clock i) chapter (f_str f) entries
                  (s, no_stats)) as G1.
    pose proof (fold_upsert_settles (clock i) chapter (f_str f) entries
                  (s, no_stats)) as S1.
    unfold upsert_entries in H.
    destruct (fold_left (upsert_entry (clock i) chapter (f_str f)) entries
                (s, no_stats)) as [s1 stats].
    cbn [fst] in G1, S1.
    destruct (IH _ _ _ _ _ H) as [G F].
    split; [eapply grows_trans; eassumption|].
    constructor; [|exact F].
    apply (file_settled_grows encoding chapter_arg s1 s' f G).
    exists chapter, entries. auto.
Qed.

(** Over settled files the loop changes no table and inserts nothing. *)
Lemma main_loop_settled :
  forall clock encoding chapter_arg files i s gt,
    Forall (file_settled encoding chapter_arg s) files ->
    exists s' gt',
      main_loop clock i encoding chapter_arg files s gt = Some (s', gt')
      /\ same_tables s s'
      /\ inserted_questions gt' = inserted_questions gt
      /\ inserted_answers gt' = inserted_answers gt.
Proof.
  induction files as [|f files IH]; intros i s gt F.
  - exists s, gt. cbn [main_loop]. unfold same_tables. auto.
  - inversion F as [|? ? (chapter & entries & D & E & Fe) Ff]; subst.
    cbn [main_loop]. unfold import_file. rewrite D.
    unfold file_entries in E. rewrite E. unfold upsert_entries.
    destruct (fold_upsert_settled (clock i) chapter (f_str f) entries s
                no_stats Fe) as (T & H1 & H2 & _).
    destruct (fold_left (upsert_entry (clock i) chapter (f_str f)) entries
                (s, no_stats)) as [s1 stats].
    cbn [fst snd] in T, H1, H2.
    destruct (IH (S i) s1 (add_stats gt stats)) as (s' & gt' & -> & T' & H3 & H4).
    { eapply Forall_impl; [|exact Ff]. intro f'.
      now apply file_settled_same_tables. }
    exists s', gt'. split; [reflexivity|].
    destruct T as [Tq Ta], T' as [Tq' Ta'].
    unfold same_tables. rewrite Tq', Ta', Tq, Ta, H3, H4.
    unfold add_stats. cbn [inserted_questions inserted_answers].
    rewrite H1, H2. cbn [no_stats inserted_questions inserted_answers].
    repeat split; lia.
Qed.

(** X13. Running [main] a second time over the same files, on the store the
    first run left, changes neither table and reports no inserted question
    and no inserted answer in its grand totals, also when the files go to
    several chapters or repeat each other. *)
Theorem main_twice_inserts_nothing :
  forall clock1 clock2 encoding chapter_arg s files s1 gt1,
    main clock1 encoding chapter_arg s files = Done s1 gt1 ->
    exists s2 gt2,
      main clock2 encoding chapter_arg s1 files = Done s2 gt2
      /\ questions s2 = questions s1
      /\ answers s2 = answers s1
      /\ inserted_questions gt2 = 0
      /\ inserted_answers gt2 = 0.
Proof.
  intros clock1 clock2 encoding chapter_arg s files s1 gt1 H.
  unfold main in *. destruct files as [|f files]; [discriminate|].
  destruct (main_loop clock1 0 encoding chapter_arg (f :: files) s no_stats)
    as [[s1' gt1']|] eqn:E; [|discriminate].
  injection H as -> ->.
  destruct (main_loop_settles _ _ _ _ _ _ _ _ _ E) as [_ F].
  destruct (main_loop_settled clock2 encoding chapter_arg (f :: files) 0%nat
              s1 no_stats F) as (s2 & gt2 & -> & [Tq Ta] & H1 & H2).
  exists s2, gt2. auto.
Qed.

(** *** [api_import_preview] *)

Lemma parse_blocks_questions (text : str) (entries : list Entry) :
  parse_blocks text = Some entries ->
  map question entries
  = map question_of (filter is_question_line (lines_of text)).
Proof.
  intro H. apply scan_questions in H. exact H.
Qed.

(** X14. The preview announces what the import will count.  Whenever the
    request carries content, [api_import_preview] answers; its total is the
    number of question lines of the content, its items are the first five
    questions in order, each with the type [detect_type] gives it; and when
    the same submission is imported, the inserted, duplicate and unanswered
    questions add up to that total: the preview also counts the entries the
    import will skip. *)
Theorem preview_announces_the_import :
  forall m content,
    preview_content m = Some content ->
    exists preview,
      let headings :=
        map question_of (filter is_question_line (lines_of content)) in
      api_import_preview m = Some (length headings, preview)
      /\ map p_question preview = firstn 5 headings
      /\ Forall (fun item => p_type item = detect_type (p_question item))
           preview
      /\ forall now s chapter result,
           import_questions now s chapter m = Some result ->
           inserted_questions (snd result) + duplicates_skipped (snd result)
             + skipped_unanswered (snd result)
           = Z.of_nat (length headings).
Proof.
  intros m content P. cbv zeta. unfold api_import_preview. rewrite P.
  destruct (parse_blocks_returns content) as [entries E]. rewrite E.
  pose proof (parse_blocks_questions content entries E) as Q.
  eexists. split; [now rewrite <- Q, length_map|].
  split; [rewrite map_map; cbn [p_question]; now rewrite <- Q, firstn_map|].
  split.
  { apply Forall_forall. intros item H. apply in_map_iff in H.
    destruct H as (e & <- & _). reflexivity. }
  intros now s chapter result H.
  assert (exists label, submitted_content m = Some (content, label)) as [label S].
  { unfold preview_content, submitted_content in *. destruct m.
    - destruct (truthy (strip text_content)); [|discriminate].
      injection P as <-. eauto.
    - injection P as <-. eauto. }
  unfold import_questions in H. rewrite S, E in H.
  destruct (truthy content); [|discriminate].
  destruct entries as [|e es]; [discriminate|].
  injection H as <-. rewrite web_loop_is_upsert_entries.
  rewrite <- Q, length_map. unfold upsert_entries.
  pose proof (fold_upsert_accounts now chapter label (e :: es) s no_stats)
    as A.
  cbv zeta in A. cbn [no_stats inserted_questions duplicates_skipped
                      skipped_unanswered inserted_answers] in A.
  lia.
Qed.

(** *** Sorting *)

Lemma str_leb_refl (a : str) : str_leb a a = true.
Proof.
  induction a as [|x a IH]; [reflexivity|].
  cbn [str_leb]. now rewrite Z.ltb_irrefl.
Qed.

Lemma str_leb_total : is_total str_leb.
Proof.
  intro a. induction a as [|x a IH]; intros [|y b]; cbn [str_leb]; auto.
  destruct (Z.ltb_spec x y), (Z.ltb_spec y x); auto; lia.
Qed.

Lemma str_leb_trans : is_transitive str_leb.
Proof.
  intro a. induction a as [|x a IH]; intros [|y b] [|z c]; cbn [str_leb];
    auto; try discriminate.
  destruct (Z.ltb_spec x y), (Z.ltb_spec y x), (Z.ltb_spec y z),
    (Z.ltb_spec z y), (Z.ltb_spec x z), (Z.ltb_spec z x);
    auto; try discriminate; try lia.
  apply IH.
Qed.

Lemma str_leb_antisym (a b : str) :
  str_leb a b = true -> str_leb b a = true -> a = b.
Proof.
  revert b. induction a as [|x a IH]; intros [|y b]; cbn [str_leb];
    auto; try discriminate.
  destruct (Z.ltb_spec x y), (Z.ltb_spec y x); try discriminate; try lia.
  intros H1 H2. f_equal; [lia | now apply IH].
Qed.

Lemma by_id_total : is_total by_id.
Proof. intros a b. unfold by_id. rewrite !Z.leb_le. lia. Qed.

Lemma by_id_trans : is_transitive by_id.
Proof. intros a b c. unfold by_id. rewrite !Z.leb_le. lia. Qed.

Lemma by_position_total : is_total by_position.
Proof. intros a b. unfold by_position. rewrite !Z.leb_le. lia. Qed.

Lemma by_position_trans : is_transitive by_position.
Proof. intros a b c. unfold by_position. rewrite !Z.leb_le. lia. Qed.

(** A list in order and a rearrangement of it in strict order are the same
    list. *)
Lemma sorted_perm_eq {A : Type} (le : A -> A -> bool) :
  forall l' l : list A,
    Permutation l l' ->
    StronglySorted (fun a b => le a b = true) l ->
    StronglySorted (fun a b => le b a = false) l' ->
    l = l'.
Proof.
  induction l' as [|x t IH]; intros l P S S'.
  - now apply Permutation_nil, Permutation_sym.
  - destruct l as [|y t0];
      [apply Permutation_nil in P; discriminate|].
    apply StronglySorted_inv in S. destruct S as [S F].
    apply StronglySorted_inv in S'. destruct S' as [S' F'].
    rewrite Forall_forall in F, F'.
    assert (y = x) as ->.
    { assert (In y (x :: t)) as Hy
          by (eapply Permutation_in; [exact P | now left]).
      assert (In x (y :: t0)) as Hx
          by (eapply Permutation_in;
              [apply Permutation_sym; exact P | now left]).
      destruct Hy as [Hy | Hy]; [now symmetry|].
      destruct Hx as [Hx | Hx]; [exact Hx|].
      specialize (F x Hx). specialize (F' y Hy). congruence. }
    f_equal. apply IH; auto. now apply Permutation_cons_inv in P.
Qed.

Lemma sorted_snoc {A : Type} (R : A -> A -> Prop) (l : list A) (x : A) :
  StronglySorted R l -> Forall (fun a => R a x) l ->
  StronglySorted R (l ++ [x]).
Proof.
  induction 1 as [|a l S IH F]; intro H; cbn [app].
  - repeat constructor.
  - inversion H; subst. constructor; [now apply IH|].
    apply Forall_app. split; [exact F | now constructor].
Qed.

Lemma sorted_weaken {A : Type} (R R' : A -> A -> Prop) (l : list A) :
  (forall a b, In a l -> In b l -> R a b -> R' a b) ->
  StronglySorted R l -> StronglySorted R' l.
Proof.
  intros W S. induction S as [|a l S IH F]; constructor.
  - apply IH. intros x y Hx Hy. apply W; now right.
  - rewrite Forall_forall in *. intros b Hb.
    apply W; [now left | now right | now apply F].
Qed.

(** In a list in order whose keys are all different, the order is strict. *)
Lemma sorted_strict {A B : Type} (le : A -> A -> bool) (key : A -> B)
  (l : list A) :
  (forall a b, le a b = true -> le b a = true -> key a = key b) ->
  NoDup (map key l) ->
  StronglySorted (fun a b => le a b = true) l ->
  StronglySorted (fun a b => le b a = false) l.
Proof.
  intros K N S. induction S as [|a l S IH F]; constructor.
  - apply IH. now inversion N.
  - rewrite Forall_forall in *. intros b Hb.
    destruct (le b a) eqn:E; [|reflexivity].
    inversion N as [|? ? Ha _]; subst. exfalso. apply Ha.
    rewrite (K a b (F b Hb) E). now apply in_map.
Qed.

Lemma order_by_perm {A : Type} (le : A -> A -> bool) (l : list A) :
  Permutation (order_by A le l) l.
Proof using order_by_sorts. apply order_by_sorts. Qed.

Lemma order_by_in {A : Type} (le : A -> A -> bool) (l : list A) (x : A) :
  In x (order_by A le l) <-> In x l.
Proof using order_by_sorts.
  split; apply Permutation_in;
    [|apply Permutation_sym]; apply order_by_perm.
Qed.

Lemma order_by_sorted {A : Type} (le : A -> A -> bool) (l : list A) :
  is_total le -> is_transitive le ->
  StronglySorted (fun a b => le a b = true) (order_by A le l).
Proof using order_by_sorts. apply order_by_sorts. Qed.

(** Rows that are in strict order already come back as they are. *)
Lemma order_by_fixed {A : Type} (le : A -> A -> bool) (l : list A) :
  is_total le -> is_transitive le ->
  StronglySorted (fun a b => le b a = false) l ->
  order_by A le l = l.
Proof using order_by_sorts.
  intros T R S. apply (sorted_perm_eq le); auto.
  - apply order_by_perm.
  - now apply order_by_sorted.
Qed.

Lemma insert_sorted_perm {A : Type} (le : A -> A -> bool) (x : A) :
  forall l, Permutation (insert_sorted le x l) (x :: l).
Proof.
  induction l as [|y l IH]; cbn [insert_sorted]; [reflexivity|].
  destruct (le x y); [reflexivity|].
  rewrite IH. apply perm_swap.
Qed.

Lemma insert_sorted_sorted {A : Type} (le : A -> A -> bool) (x : A) :
  is_total le -> is_transitive le ->
  forall l,
    StronglySorted (fun a b => le a b = true) l ->
    StronglySorted (fun a b => le a b = true) (insert_sorted le x l).
Proof.
  intros T R. induction 1 as [|y l S IH F]; cbn [insert_sorted].
  - repeat constructor.
  - destruct (le x y) eqn:E.
    + constructor; [now constructor|]. constructor; [exact E|].
      eapply Forall_impl; [|exact F]. cbv beta. intros b. now apply R.
    + constructor; [exact IH|].
      assert (le y x = true) as E' by (destruct (T x y); congruence).
      rewrite Forall_forall in *. intros b Hb.
      apply (Permutation_in _ (insert_sorted_perm le x l)) in Hb.
      destruct Hb as [<- | Hb]; auto.
Qed.

Lemma insertion_sort_sorts : sorts insertion_sort.
Proof.
  intros A le l. split.
  - induction l as [|x l IH]; [reflexivity|].
    unfold insertion_sort in *. cbn [fold_right].
    rewrite insert_sorted_perm. now constructor.
  - intros T R. induction l as [|x l IH]; [constructor|].
    unfold insertion_sort in *. cbn [fold_right].
    now apply insert_sorted_sorted.
Defined.

(** *** [get_chapters] *)

Lemma distinct_in (l : list str) (x : str) : In x (distinct l) <-> In x l.
Proof. apply nodup_In. Qed.

Lemma distinct_nodup (l : list str) : NoDup (distinct l).
Proof. apply NoDup_nodup. Qed.

Lemma get_chapters_in (s : Store) (c : str) :
  In c (get_chapters s) <-> exists r, In r (questions s) /\ q_chapter r = c.
Proof using order_by_sorts.
  unfold get_chapters. rewrite order_by_in, distinct_in, in_map_iff.
  split; intros (r & H1 & H2); exists r; auto.
Qed.

Lemma get_chapters_strict (s : Store) :
  StronglySorted (fun a b => str_leb b a = false) (get_chapters s).
Proof using order_by_sorts.
  unfold get_chapters.
  apply (sorted_strict str_leb (fun c => c)).
  - intros a b H1 H2. now apply str_leb_antisym.
  - rewrite map_id.
    eapply Permutation_NoDup;
      [apply Permutation_sym, order_by_perm | apply distinct_nodup].
  - apply order_by_sorted; [exact str_leb_total | exact str_leb_trans].
Qed.

(** What a batch adds to the table of questions: as many rows as it counts,
    all of its chapter. *)
Lemma fold_upsert_questions :
  forall now chapter source_file entries s,
    exists qs,
      questions
        (fst (fold_left (upsert_entry now chapter source_file) entries
                (s, no_stats)))
      = questions s ++ qs
      /\ Forall (fun r => q_chapter r = chapter) qs
      /\ inserted_questions
           (snd (fold_left (upsert_entry now chapter source_file) entries
                   (s, no_stats)))
         = Z.of_nat (length qs).
Proof.
  intros now chapter source_file entries s.
  destruct (fold_upsert_writes now chapter source_file entries s no_stats)
    as (qs & rows & Hq & _ & Fq & _).
  pose proof (fold_upsert_accounts now chapter source_file entries s no_stats)
    as A.
  cbv zeta in A. destruct A as (_ & _ & A & _).
  exists qs. split; [exact Hq|]. split.
  - eapply Forall_impl; [|exact Fq]. intros r H. apply H.
  - rewrite Hq, length_app in A.
    cbn [no_stats inserted_questions] in A. lia.
Qed.

(** X15. The chapter list names exactly the chapters that hold a question,
    each once, in increasing order.  After a batch it names the chapters it
    named before, and the chapter of the batch as soon as the batch inserted
    a question (or the chapter was there). *)
Theorem chapters_are_those_with_questions :
  forall s,
    (forall c,
        In c (get_chapters s)
        <-> exists r, In r (questions s) /\ q_chapter r = c)
    /\ StronglySorted (fun a b => str_leb a b = true /\ a <> b)
         (get_chapters s)
    /\ forall now entries chapter source_file c,
        let result := upsert_entries now s entries chapter source_file in
        In c (get_chapters (fst result))
        <-> In c (get_chapters s)
            \/ (c = chapter /\ 0 < inserted_questions (snd result)).
Proof using order_by_sorts.
  intro s. split; [apply get_chapters_in|]. split.
  - pose proof (get_chapters_strict s) as S.
    eapply sorted_weaken; [|exact S]. cbv beta. intros a b _ _ H.
    destruct (str_leb_total a b) as [E | E]; [|congruence].
    split; [exact E|]. intros ->. rewrite str_leb_refl in H. discriminate.
  - intros now entries chapter source_file c. cbv zeta.
    unfold upsert_entries.
    destruct (fold_upsert_questions now chapter source_file entries s)
      as (qs & Hq & Fq & Hn).
    rewrite !get_chapters_in, Hq, Hn. rewrite Forall_forall in Fq. split.
    + intros (r & Hr & <-). apply in_app_or in Hr. destruct Hr as [Hr | Hr].
      * left. eauto.
      * right. split; [now apply Fq|]. destruct qs; [destruct Hr|].
        cbn [length]. lia.
    + intros [(r & Hr & <-) | [-> Hpos]].
      * exists r. split; [apply in_or_app; now left | reflexivity].
      * destruct qs as [|r qs]; [cbn [length] in Hpos; lia|].
        exists r. split; [apply in_or_app; right; now left|].
        apply Fq. now left.
Qed.

(** *** [get_questions_by_chapter] after an import *)

Lemma filter_app_none {A : Type} (p : A -> bool) (l l' : list A) :
  Forall (fun x => p x = false) l' -> filter p (l ++ l') = filter p l.
Proof.
  intro F. rewrite filter_app.
  replace (filter p l') with (@nil A); [apply app_nil_r|].
  symmetry. induction F as [|x l0 Hx _ IH]; [reflexivity|].
  cbn [filter]. now rewrite Hx.
Qed.

(** The answers of a question do not change when rows of other questions
    are added. *)
Lemma answers_of_more (s s' : Store) (rows : list AnswerRow) (qid : Z) :
  answers s' = answers s ++ rows ->
  Forall (fun a => a_question_id a <> qid) rows ->
  answers_of s' qid = answers_of s qid.
Proof.
  intros Ha F. unfold answers_of. rewrite Ha, filter_app_none; [reflexivity|].
  eapply Forall_impl; [|exact F]. cbv beta. intros a H.
  now apply Z.eqb_neq.
Qed.

Lemma positions_strict (rows : list AnswerRow) :
  forall i k,
    map a_position rows = map Z.of_nat (seq i k) ->
    StronglySorted (fun a b => by_position b a = false) rows.
Proof.
  induction rows as [|a rows IH]; intros i [|k] H; try discriminate;
    constructor.
  - cbn [seq map] in H. injection H as _ H. now apply (IH (S i) k).
  - cbn [seq map] in H. injection H as Ha H.
    apply Forall_forall. intros b Hb.
    assert (In (a_position b) (map Z.of_nat (seq (S i) k))) as P
        by (rewrite <- H; now apply in_map).
    apply in_map_iff in P. destruct P as (n & Hn & P).
    apply in_seq in P. unfold by_position. apply Z.leb_gt. lia.
Qed.

(** X16. A new question shows at the end of its chapter page.  When an
    entry that passes the filter is imported and its chapter has no row for
    its key, the chapter page is the page as it was, followed by one item:
    the new id, the trimmed question text, its type, the source label, the
    time of the import, and the trimmed answers in source order. *)
Theorem new_question_ends_its_chapter_page :
  forall now chapter source_file s e,
    store_ok s ->
    survives e = true ->
    question_row s chapter (entry_key e) = None ->
    let s' := fst (upsert_entries now s [e] chapter source_file) in
    get_questions_by_chapter s' chapter
    = get_questions_by_chapter s chapter
      ++ [{| v_id := next_rowid (map q_id (questions s)) (seq_questions s);
             v_chapter := None;
             v_question := strip (question e);
             v_type := detect_type (strip (question e));
             v_source_file := source_file;
             v_created_at := now;
             v_answers := trimmed_answers e |}].
Proof using order_by_sorts.
  intros now chapter source_file s e (K & I & O) U F. cbv zeta.
  unfold upsert_entries. cbn [fold_left].
  unfold survives in U. apply negb_true_iff in U.
  destruct (upsert_entry_cases now chapter source_file s no_stats e)
    as [[U' _] | [(_ & _ & ->) | (_ & row & F' & _)]]; try congruence.
  set (qid := next_rowid (map q_id (questions s)) (seq_questions s)).
  match goal with
  | |- context [insert_answers ?n ?q ?i ?cs (?s1, ?c1)] =>
      destruct (insert_answers_frame cs n q i s1 c1)
        as (Hq & _ & _ & _ & _ & rows & Ha & Hf & _);
      destruct (insert_answers_new cs n q i s1 c1)
        as (rows' & Ha' & Ht & Hp);
      set (s' := fst (insert_answers n q i cs (s1, c1))) in *
  end.
  { cbn [with_question answers]. intros r Hr E.
    pose proof (fresh_question_id s r O Hr). lia. }
  rewrite Ha in Ha'. apply app_inv_head in Ha'. subst rows'.
  cbn [with_question questions answers] in Hq, Ha.
  fold qid in Hq.
  set (qrow := {| q_id := qid; q_chapter := chapter;
                  q_text := strip (question e);
                  q_text_norm := normalize_text (strip (question e));
                  q_type := detect_type (strip (question e));
                  q_source_file := source_file; q_created_at := now |}) in *.
  set (old := filter (fun r => str_eqb (q_chapter r) chapter) (questions s)).
  assert (forall r, In r old -> q_id r < qid) as Hold.
  { intros r Hr. apply filter_In in Hr. destruct Hr as [Hr _].
    apply next_rowid_above. now apply in_map. }
  unfold get_questions_by_chapter. rewrite Hq, filter_app. fold old.
  cbn [filter q_chapter qrow]. rewrite str_eqb_refl.
  assert (order_by QuestionRow by_id (old ++ [qrow])
          = order_by QuestionRow by_id old ++ [qrow]) as ->.
  { apply (sorted_perm_eq by_id).
    - rewrite order_by_perm. apply Permutation_app_tail.
      apply Permutation_sym, order_by_perm.
    - apply order_by_sorted; [exact by_id_total | exact by_id_trans].
    - apply sorted_snoc.
      + apply (sorted_strict by_id q_id).
        * intros a b. unfold by_id. rewrite !Z.leb_le. lia.
        * eapply Permutation_NoDup;
            [apply Permutation_map, Permutation_sym, order_by_perm|].
          unfold old. clear - I. unfold question_ids_unique in I.
          induction (questions s) as [|r l IH]; [constructor|].
          cbn [map] in I. inversion I as [|? ? Hr Hl]; subst.
          cbn [filter]. destruct (str_eqb (q_chapter r) chapter); auto.
          cbn [map]. constructor; auto. intro H. apply Hr.
          apply in_map_iff in H. destruct H as (x & E & Hx).
          apply filter_In in Hx. rewrite <- E. apply in_map, Hx.
        * apply order_by_sorted; [exact by_id_total | exact by_id_trans].
      + apply Forall_forall. intros r Hr. apply order_by_in in Hr.
        unfold by_id. cbn [q_id qrow]. apply Z.leb_gt. now apply Hold. }
  rewrite map_app. cbn [map]. f_equal.
  - apply map_ext_in. intros r Hr. apply order_by_in in Hr.
    unfold question_view. f_equal.
    apply (answers_of_more s s' rows); [exact Ha|].
    eapply Forall_impl; [|exact Hf]. cbv beta. intros a ->.
    specialize (Hold r Hr). lia.
  - f_equal. unfold question_view. cbn [q_id q_text q_type q_source_file
                                        q_created_at qrow].
    f_equal. unfold answers_of. rewrite Ha, filter_app.
    rewrite (filter_none _ (answers s)), (filter_all _ rows).
    + cbn [app]. rewrite order_by_fixed.
      * rewrite Ht. apply clean_correct_trimmed.
      * exact by_position_total.
      * exact by_position_trans.
      * apply (positions_strict rows 1 (length (clean_correct e))).
        rewrite Hp, <- seq_shift, map_map. apply map_ext. intro i. lia.
    + rewrite Forall_forall in Hf. intros a Hin. rewrite (Hf a Hin).
      apply Z.eqb_refl.
    + intros a Hin. apply Z.eqb_neq.
      pose proof (fresh_question_id s a O Hin) as L. fold qid in L. lia.
Qed.

(** The answer rows an entry adds belong to questions of its chapter. *)
Lemma upsert_entry_owner :
  forall now chapter source_file s c e,
    let s' := fst (upsert_entry now chapter source_file (s, c) e) in
    exists rows,
      answers s' = answers s ++ rows
      /\ Forall (fun a => exists r, In r (questions s')
                                    /\ q_id r = a_question_id a
                                    /\ q_chapter r = chapter) rows.
Proof.
  intros now chapter source_file s c e. cbv zeta.
  destruct (upsert_entry_cases now chapter source_file s c e)
    as [[_ ->] | [(_ & _ & ->) | (_ & row & F & ->)]].
  - exists []. cbn [fst]. now rewrite app_nil_r.
  - match goal with
    | |- context [insert_answers ?n ?q ?i ?cs (?s1, ?c1)] =>
        destruct (insert_answers_frame cs n q i s1 c1)
          as (Hq & _ & _ & _ & _ & rows & Ha & Hf & _)
    end.
    exists rows. rewrite Hq. split; [exact Ha|].
    eapply Forall_impl; [|exact Hf]. cbv beta. intros a ->.
    eexists. cbn [with_question questions].
    split; [apply in_or_app; right; left; reflexivity|].
    split; reflexivity.
  - match goal with
    | |- context [insert_answers ?n ?q ?i ?cs (?s1, ?c1)] =>
        destruct (insert_answers_frame cs n q i s1 c1)
          as (Hq & _ & _ & _ & _ & rows & Ha & Hf & _)
    end.
    exists rows. rewrite Hq. split; [exact Ha|].
    apply question_row_facts in F. destruct F as (Hin & Hc & _).
    eapply Forall_impl; [|exact Hf]. cbv beta. intros a ->.
    exists row. cbn [after_ignored_question questions]. auto.
Qed.

Lemma fold_upsert_owner :
  forall now chapter source_file entries s c,
    let s' :=
      fst (fold_left (upsert_entry now chapter source_file) entries (s, c)) in
    exists rows,
      answers s' = answers s ++ rows
      /\ Forall (fun a => exists r, In r (questions s')
                                    /\ q_id r = a_question_id a
                                    /\ q_chapter r = chapter) rows.
Proof.
  induction entries as [|e es IH]; intros s c; cbv zeta; cbn [fold_left].
  - exists []. cbn [fst]. now rewrite app_nil_r.
  - destruct (upsert_entry_owner now chapter source_file s c e)
      as (rows1 & Ha1 & F1).
    pose proof (fold_upsert_grows now chapter source_file es
                  (upsert_entry now chapter source_file (s, c) e)) as G.
    destruct (upsert_entry now chapter source_file (s, c) e) as [s1 c1].
    cbn [fst] in Ha1, F1, G.
    destruct (IH s1 c1) as (rows2 & Ha2 & F2).
    exists (rows1 ++ rows2). rewrite Ha2, Ha1, <- app_assoc.
    split; [reflexivity|]. apply Forall_app. split; [|exact F2].
    destruct G as [[qs Hq] _].
    eapply Forall_impl; [|exact F1]. cbv beta.
    intros a (r & Hin & E). exists r. rewrite Hq.
    split; [apply in_or_app; now left | exact E].
Qed.

(** X17. An import into one chapter leaves the pages of the other chapters
    as they were: the same questions, in the same order, each with the same
    answers. *)
Theorem other_chapter_pages_unchanged :
  forall now s entries chapter source_file other,
    store_ok s ->
    other <> chapter ->
    get_questions_by_chapter
      (fst (upsert_entries now s entries chapter source_file)) other
    = get_questions_by_chapter s other.
Proof using order_by_sorts.
  intros now s entries chapter source_file other OK N.
  pose proof (upsert_entries_keeps_store now s entries chapter source_file OK)
    as (_ & I' & _).
  unfold upsert_entries in *.
  destruct (fold_upsert_questions now chapter source_file entries s)
    as (qs & Hq & Fq & _).
  destruct (fold_upsert_owner now chapter source_file entries s no_stats)
    as (rows & Ha & Fa).
  set (s' := fst (fold_left (upsert_entry now chapter source_file) entries
                    (s, no_stats))) in *.
  unfold get_questions_by_chapter. rewrite Hq, filter_app.
  rewrite (filter_none _ qs), app_nil_r.
  - apply map_ext_in. intros r Hr. apply order_by_in in Hr.
    apply filter_In in Hr. destruct Hr as [Hr Hc]. apply str_eqb_eq in Hc.
    unfold question_view. f_equal.
    apply (answers_of_more s s' rows); [exact Ha|].
    eapply Forall_impl; [|exact Fa]. cbv beta.
    intros a (r' & Hin' & E & Hc') Eq. apply N.
    assert (r' = r) as ->; [|congruence].
    apply (NoDup_map_same q_id (questions s')); auto; [|congruence].
    rewrite Hq. apply in_or_app. now left.
  - rewrite Forall_forall in Fq. intros r Hr. apply str_eqb_neq.
    rewrite (Fq r Hr). congruence.
Qed.

Lemma all_present_in (rows : list AnswerRow) (qid : Z) :
  forall cs idx,
    all_present rows qid idx cs = true ->
    forall ans, In ans cs ->
      exists a, In a rows /\ a_question_id a = qid /\ a_answer_text a = ans.
Proof.
  induction cs as [|c cs IH]; intros idx H ans Hin; [destruct Hin|].
  cbn [all_present] in H. apply andb_true_iff in H. destruct H as [H1 H2].
  destruct Hin as [<- | Hin]; [|now apply (IH (idx + 1))].
  apply existsb_exists in H1. destruct H1 as (a & Ha & E).
  unfold same_answer in E. rewrite !andb_true_iff in E.
  destruct E as [[E1 _] E3]. apply Z.eqb_eq in E1. apply str_eqb_eq in E3.
  eauto.
Qed.

(** X18. What was imported is on the page.  After a batch, every entry of
    it that passes the filter has an item on the page of the chapter: the
    item of the question row that holds the entry's key, and its answers
    include every trimmed answer of the entry. *)
Theorem imported_entries_are_on_the_page :
  forall now s entries chapter source_file e,
    In e entries ->
    survives e = true ->
    let s' := fst (upsert_entries now s entries chapter source_file) in
    exists row,
      question_row s' chapter (entry_key e) = Some row
      /\ In (question_view false s' row) (get_questions_by_chapter s' chapter)
      /\ incl (trimmed_answers e) (v_answers (question_view false s' row)).
Proof using order_by_sorts.
  intros now s entries chapter source_file e Hin U. cbv zeta.
  unfold upsert_entries.
  pose proof (fold_upsert_settles now chapter source_file entries
                (s, no_stats)) as S.
  rewrite Forall_forall in S. specialize (S e Hin).
  set (s' := fst (fold_left (upsert_entry now chapter source_file) entries
                    (s, no_stats))) in *.
  unfold survives in U. apply negb_true_iff in U.
  destruct S as [S | (row & F & P)]; [congruence|].
  exists row. split; [exact F|].
  apply question_row_facts in F. destruct F as (Hr & Hc & _).
  split.
  - unfold get_questions_by_chapter. apply in_map. apply order_by_in.
    apply filter_In. split; [exact Hr | now apply str_eqb_eq].
  - intros ans Hans. rewrite <- clean_correct_trimmed in Hans.
    destruct (all_present_in _ _ _ _ P ans Hans) as (a & Ha & E1 & E2).
    cbn [question_view v_answers]. unfold answers_of.
    rewrite <- E2. apply in_map. apply order_by_in. apply filter_In.
    split; [exact Ha | now apply Z.eqb_eq].
Qed.

(** *** [get_statistics] *)

Lemma sum_indicator (k0 : str) (keys : list str) :
  NoDup keys -> In k0 keys ->
  fold_right Z.add 0 (map (fun k => if str_eqb k0 k then 1 else 0) keys) = 1.
Proof.
  induction 1 as [|k keys Hk N IH]; intro Hin; [destruct Hin|].
  cbn [map fold_right]. destruct (str_eqb k0 k) eqn:E.
  - apply str_eqb_eq in E. subst k.
    assert (fold_right Z.add 0
              (map (fun k => if str_eqb k0 k then 1 else 0) keys) = 0) as ->;
      [|reflexivity].
    clear - Hk. induction keys as [|k keys IH]; [reflexivity|].
    cbn [map fold_right].
    destruct (str_eqb k0 k) eqn:E;
      [apply str_eqb_eq in E; subst; elim Hk; now left|].
    rewrite IH; [reflexivity|]. intro H. apply Hk. now right.
  - apply str_eqb_neq in E. destruct Hin as [-> | Hin]; [congruence|].
    rewrite IH by exact Hin. reflexivity.
Qed.

(** Groups that cover the rows, each key once, count every row once. *)
Lemma groups_add_up (column : QuestionRow -> str) (keys : list str) :
  NoDup keys ->
  forall rows,
    (forall r, In r rows -> In (column r) keys) ->
    fold_right Z.add 0
      (map (fun k =>
              Z.of_nat
                (length (filter (fun r => str_eqb (column r) k) rows)))
         keys)
    = Z.of_nat (length rows).
Proof.
  intros N. induction rows as [|x rows IH]; intro C.
  - cbn [filter length]. clear. induction keys as [|k keys IH];
      [reflexivity|]. cbn [map fold_right]. now rewrite IH.
  - specialize (IH (fun r H => C r (or_intror H))).
    pose proof (sum_indicator (column x) keys N (C x (or_introl eq_refl)))
      as S.
    cbn [length]. rewrite Nat2Z.inj_succ, <- IH, <- Z.add_1_l, <- S.
    clear. induction keys as [|k keys IHk]; [reflexivity|].
    cbn [map fold_right]. rewrite IHk. cbn [filter].
    destruct (str_eqb (column x) k); cbn [length]; lia.
Qed.

Lemma sum_counts_map (f : str -> Z) (keys : list str) :
  sum_counts (map (fun k => (k, f k)) keys) = fold_right Z.add 0 (map f keys).
Proof. unfold sum_counts. now rewrite map_map. Qed.

Lemma stats_add_up (column : QuestionRow -> str) (le : str -> str -> bool)
  (s : Store) :
  sum_counts
    (map (fun k => (k, group_count column s k))
       (order_by str le (distinct (map column (questions s)))))
  = Z.of_nat (length (questions s)).
Proof using order_by_sorts.
  rewrite sum_counts_map. unfold group_count. apply groups_add_up.
  - eapply Permutation_NoDup;
      [apply Permutation_sym, order_by_perm | apply distinct_nodup].
  - intros r Hr. apply order_by_in, distinct_in. now apply in_map.
Qed.

Lemma stats_positive (column : QuestionRow -> str) (le : str -> str -> bool)
  (s : Store) :
  Forall (fun kv => 1 <= snd kv)
    (map (fun k => (k, group_count column s k))
       (order_by str le (distinct (map column (questions s))))).
Proof using order_by_sorts.
  apply Forall_forall. intros kv H. apply in_map_iff in H.
  destruct H as (k & <- & H). apply order_by_in in H.
  apply (proj1 (distinct_in _ _)) in H. apply in_map_iff in H. destruct H as (r & E & Hr).
  cbn [snd]. unfold group_count.
  assert (In r (filter (fun r => str_eqb (column r) k) (questions s))) as F
      by (apply filter_In; split; [exact Hr | now apply str_eqb_eq]).
  destruct (filter _ (questions s)); [destruct F|]. cbn [length]. lia.
Qed.

(** X19. The statistics add up.  The chapter counts are listed for the
    chapters of the chapter list, in its order, and each is the length of
    that chapter's page; the chapter counts and the type counts each add up
    to the total; no listed count is zero and no type is listed twice; and a
    batch raises the total by the questions it reports as inserted. *)
Theorem statistics_add_up :
  forall s,
    let stats := get_statistics s in
    map fst (chapter_stats stats) = get_chapters s
    /\ Forall (fun kv =>
                 snd kv
                 = Z.of_nat (length (get_questions_by_chapter s (fst kv))))
         (chapter_stats stats)
    /\ sum_counts (chapter_stats stats) = total_questions stats
    /\ sum_counts (type_stats stats) = total_questions stats
    /\ Forall (fun kv => 1 <= snd kv) (chapter_stats stats ++ type_stats stats)
    /\ NoDup (map fst (type_stats stats))
    /\ forall now entries chapter source_file,
        let result := upsert_entries now s entries chapter source_file in
        total_questions (get_statistics (fst result))
        = total_questions stats + inserted_questions (snd result).
Proof using order_by_sorts.
  intro s. cbv zeta.
  unfold get_statistics. cbn [chapter_stats type_stats total_questions].
  split; [rewrite map_map; cbn [fst]; apply map_id|].
  split.
  { apply Forall_forall. intros kv H. apply in_map_iff in H.
    destruct H as (k & <- & _). cbn [fst snd].
    unfold group_count, get_questions_by_chapter.
    rewrite length_map. f_equal. symmetry.
    apply Permutation_length, order_by_perm. }
  split; [apply stats_add_up|]. split; [apply stats_add_up|].
  split; [apply Forall_app; split; apply stats_positive|].
  split.
  { rewrite map_map. cbn [fst]. rewrite map_id.
    eapply Permutation_NoDup;
      [apply Permutation_sym, order_by_perm | apply distinct_nodup]. }
  intros now entries chapter source_file. unfold upsert_entries.
  destruct (fold_upsert_questions now chapter source_file entries s)
    as (qs & Hq & _ & Hn).
  rewrite Hq, Hn, length_app. lia.
Qed.

(** *** [get_all_questions] *)

Lemma by_chapter_and_id_total : is_total by_chapter_and_id.
Proof.
  intros a b. unfold by_chapter_and_id.
  destruct (str_eqb (q_chapter a) (q_chapter b)) eqn:E.
  - apply str_eqb_eq in E. rewrite E, str_eqb_refl, !Z.leb_le. lia.
  - apply str_eqb_neq in E.
    assert (str_eqb (q_chapter b) (q_chapter a) = false) as ->
        by (apply str_eqb_neq; congruence).
    apply str_leb_total.
Qed.

Lemma by_chapter_and_id_trans : is_transitive by_chapter_and_id.
Proof.
  intros a b c. unfold by_chapter_and_id.
  destruct (str_eqb (q_chapter a) (q_chapter b)) eqn:E1;
    destruct (str_eqb (q_chapter b) (q_chapter c)) eqn:E2;
    rewrite ?str_eqb_eq, ?str_eqb_neq in *.
  - rewrite E1, E2, str_eqb_refl, !Z.leb_le. lia.
  - rewrite E1. apply str_eqb_neq in E2. rewrite E2. auto.
  - rewrite <- E2. apply str_eqb_neq in E1. rewrite E1. auto.
  - intros H1 H2.
    destruct (str_eqb (q_chapter a) (q_chapter c)) eqn:E3.
    + apply str_eqb_eq in E3. rewrite <- E3 in H2. elim E1.
      now apply str_leb_antisym.
    + now apply (str_leb_trans _ (q_chapter b)).
Qed.

(** The rows a WHERE clause keeps have different ids when all rows have. *)
Lemma ids_unique_where (rows : list QuestionRow) (keep : QuestionRow -> bool) :
  NoDup (map q_id rows) -> NoDup (map q_id (filter keep rows)).
Proof.
  intro N. induction rows as [|r rows IH]; [constructor|].
  cbn [map] in N. inversion N as [|? ? Hr Hrows]; subst.
  cbn [filter]. destruct (keep r); auto.
  cbn [map]. constructor; auto. intro H. apply Hr.
  apply in_map_iff in H. destruct H as (y & E & Hy).
  apply filter_In in Hy. rewrite <- E. apply in_map, Hy.
Qed.

Lemma sorted_app {A : Type} (R : A -> A -> Prop) (l1 l2 : list A) :
  StronglySorted R l1 -> StronglySorted R l2 ->
  (forall a b, In a l1 -> In b l2 -> R a b) ->
  StronglySorted R (l1 ++ l2).
Proof.
  induction 1 as [|a l S IH F]; intros S2 H; cbn [app]; [exact S2|].
  constructor.
  - apply IH; auto. intros x y Hx. apply H. now right.
  - apply Forall_app. split; [exact F|].
    apply Forall_forall. intros b Hb. apply H; [now left | exact Hb].
Qed.

Lemma flat_map_perm {A B : Type} (f g : A -> list B) (l : list A) :
  (forall x, Permutation (f x) (g x)) ->
  Permutation (flat_map f l) (flat_map g l).
Proof.
  intro H. induction l as [|x l IH]; [constructor|].
  cbn [flat_map]. now apply Permutation_app.
Qed.

Lemma flat_map_of_map {A B C : Type} (f : A -> list B) (g : B -> C)
  (l : list A) :
  flat_map (fun x => map g (f x)) l = map g (flat_map f l).
Proof.
  induction l as [|x l IH]; [reflexivity|].
  cbn [flat_map]. now rewrite map_app, IH.
Qed.

Lemma flat_map_same {A B : Type} (f g : A -> list B) (l : list A) :
  (forall x, In x l -> f x = g x) -> flat_map f l = flat_map g l.
Proof.
  induction l as [|x l IH]; intro H; [reflexivity|].
  cbn [flat_map]. rewrite (H x) by now left.
  f_equal. apply IH. intros y Hy. apply H. now right.
Qed.

(** The groups of a table, one after the other, are the table rearranged. *)
Lemma groups_perm (keys : list str) :
  NoDup keys ->
  forall rows : list QuestionRow,
    (forall r, In r rows -> In (q_chapter r) keys) ->
    Permutation
      (flat_map (fun k => filter (fun r => str_eqb (q_chapter r) k) rows) keys)
      rows.
Proof.
  intros N. induction rows as [|x rows IH]; intro C.
  - cbn [filter]. clear. induction keys as [|k keys IH]; [constructor|].
    exact IH.
  - specialize (IH (fun r H => C r (or_intror H))).
    apply Permutation_trans
      with (x :: flat_map
                   (fun k => filter (fun r => str_eqb (q_chapter r) k) rows)
                   keys);
      [|now constructor].
    clear IH.
    pose proof (C x (or_introl eq_refl)) as Hx. clear C.
    induction N as [|k keys Hk N IH]; [destruct Hx|].
    cbn [flat_map].
    replace (filter (fun r => str_eqb (q_chapter r) k) (x :: rows))
      with (if str_eqb (q_chapter x) k
            then x :: filter (fun r => str_eqb (q_chapter r) k) rows
            else filter (fun r => str_eqb (q_chapter r) k) rows)
      by reflexivity.
    destruct (str_eqb (q_chapter x) k) eqn:E.
    + apply str_eqb_eq in E. subst k. cbn [app]. constructor.
      apply Permutation_app_head.
      assert (flat_map
                (fun k => filter (fun r => str_eqb (q_chapter r) k)
                            (x :: rows)) keys
              = flat_map
                  (fun k => filter (fun r => str_eqb (q_chapter r) k) rows)
                  keys) as ->; [|reflexivity].
      apply flat_map_same. intros k Hin. cbn [filter].
      destruct (str_eqb (q_chapter x) k) eqn:E; [|reflexivity].
      apply str_eqb_eq in E. subst k. contradiction.
    + apply str_eqb_neq in E. destruct Hx as [-> | Hx]; [congruence|].
      rewrite (IH Hx). apply Permutation_sym, Permutation_middle.
Qed.

(** X20. The page of all questions is the chapter pages one after the
    other, in the order of the chapter list, each item with its chapter
    added (in a table whose ids are all different, as the primary key
    has it). *)
Theorem all_questions_is_the_chapter_pages :
  forall s,
    question_ids_unique s ->
    get_all_questions s
    = flat_map
        (fun chapter =>
           map (with_chapter chapter) (get_questions_by_chapter s chapter))
        (get_chapters s).
Proof using order_by_sorts.
  intros s I.
  set (page := fun chapter =>
         order_by QuestionRow by_id
           (filter (fun r => str_eqb (q_chapter r) chapter) (questions s))).
  assert (forall chapter r, In r (page chapter) ->
            In r (questions s) /\ q_chapter r = chapter) as Hpage.
  { intros chapter r Hr. apply order_by_in, filter_In in Hr.
    destruct Hr as [Hr E]. apply str_eqb_eq in E. auto. }
  assert (flat_map
            (fun chapter =>
               map (with_chapter chapter)
                 (get_questions_by_chapter s chapter))
            (get_chapters s)
          = map (question_view true s) (flat_map page (get_chapters s))) as ->.
  { rewrite <- flat_map_of_map. apply flat_map_ext. intro chapter.
    unfold get_questions_by_chapter. fold (page chapter). rewrite map_map.
    apply map_ext_in. intros r Hr. apply Hpage in Hr. destruct Hr as [_ <-].
    reflexivity. }
  unfold get_all_questions. f_equal.
  apply (sorted_perm_eq by_chapter_and_id).
  - rewrite order_by_perm. apply Permutation_sym.
    rewrite (flat_map_perm page
               (fun k => filter (fun r => str_eqb (q_chapter r) k)
                           (questions s)))
      by (intro k; apply order_by_perm).
    apply groups_perm.
    + unfold get_chapters. eapply Permutation_NoDup;
        [apply Permutation_sym, order_by_perm | apply distinct_nodup].
    + intros r Hr. apply get_chapters_in. eauto.
  - apply order_by_sorted;
      [exact by_chapter_and_id_total | exact by_chapter_and_id_trans].
  - pose proof (get_chapters_strict s) as S.
    induction S as [|c cs S IH F]; [constructor|].
    cbn [flat_map]. apply sorted_app; [|exact IH|].
    + assert (StronglySorted (fun a b => by_id b a = false) (page c)) as P.
      { apply (sorted_strict by_id q_id).
        - intros a b. unfold by_id. rewrite !Z.leb_le. lia.
        - eapply Permutation_NoDup;
            [apply Permutation_map, Permutation_sym, order_by_perm|].
          now apply ids_unique_where.
        - apply order_by_sorted; [exact by_id_total | exact by_id_trans]. }
      eapply sorted_weaken; [|exact P]. cbv beta. intros a b Ha Hb H.
      apply Hpage in Ha, Hb. destruct Ha as [_ Ha], Hb as [_ Hb].
      unfold by_chapter_and_id. rewrite Ha, Hb, str_eqb_refl. exact H.
    + intros a b Ha Hb. apply Hpage in Ha. destruct Ha as [_ Ha].
      apply in_flat_map in Hb. destruct Hb as (c' & Hc' & Hb).
      apply Hpage in Hb. destruct Hb as [_ Hb].
      rewrite Forall_forall in F. specialize (F c' Hc'). cbv beta in F.
      unfold by_chapter_and_id. rewrite Ha, Hb.
      destruct (str_eqb c' c) eqn:E; [|exact F].
      apply str_eqb_eq in E. rewrite E, str_leb_refl in F. discriminate.
Qed.

(** *** [search_questions] *)

Lemma like_from_percent (p t : str) :
  like_from (0x25 :: p) t
  = like_from p t
    || match t with [] => false | _ :: t' => like_from (0x25 :: p) t' end.
Proof. destruct t; reflexivity. Qed.

Lemma like_from_any (p : str) :
  forall t,
    like_from (0x25 :: p) t = true
    <-> exists pre post : str, t = pre ++ post /\ like_from p post = true.
Proof.
  induction t as [|c t IH]; rewrite like_from_percent, orb_true_iff.
  - split.
    + intros [H | H]; [|discriminate]. now exists [], [].
    + intros (pre & post & E & H). left.
      symmetry in E. apply app_eq_nil in E. destruct E as [_ ->]. exact H.
  - rewrite IH. split.
    + intros [H | (pre & post & -> & H)].
      * now exists [], (c :: t).
      * now exists (c :: pre), post.
    + intros ([|x pre] & post & E & H).
      * left. cbn [app] in E. now subst post.
      * right. cbn [app] in E. injection E as _ ->. eauto.
Qed.

Lemma like_from_letter (c : char) (p t : str) :
  c <> 0x25 -> c <> 0x5F ->
  like_from (c :: p) t
  = match t with
    | [] => false
    | x :: t' => like_char c x && like_from p t'
    end.
Proof.
  intros H1 H2. cbn [like_from].
  apply Z.eqb_neq in H1, H2. rewrite H1. destruct t; [reflexivity|].
  now rewrite H2.
Qed.

Lemma like_from_plain (k : str) :
  plain_keyword k ->
  forall t,
    like_from (k ++ [0x25]) t = true
    <-> exists mid post : str,
          t = mid ++ post
          /\ Forall2 (fun k c => like_char k c = true) k mid.
Proof.
  induction 1 as [|c k (H1 & H2 & _) _ IH]; intro t.
  - cbn [app]. rewrite like_from_any. split.
    + intros _. exists [], t. split; [reflexivity | constructor].
    + intros _. exists t, []. now rewrite app_nil_r.
  - rewrite <- app_comm_cons, like_from_letter by assumption.
    destruct t as [|x t].
    + split; [discriminate|]. intros (mid & post & E & F).
      inversion F; subst. discriminate.
    + rewrite andb_true_iff, IH. split.
      * intros [L (mid & post & -> & F)]. exists (x :: mid), post.
        split; [reflexivity | now constructor].
      * intros (mid & post & E & F). inversion F as [|? y ? mid' L F']; subst.
        cbn [app] in E. injection E as -> ->. split; [exact L|]. eauto.
Qed.

Lemma until_nul_plain (k rest : str) :
  plain_keyword k -> until_nul (k ++ rest) = k ++ until_nul rest.
Proof.
  induction 1 as [|c k (_ & _ & H) _ IH]; [reflexivity|].
  cbn [app until_nul]. apply Z.eqb_neq in H. now rewrite H, IH.
Qed.

Lemma sql_like_plain (keyword text : str) :
  plain_keyword keyword ->
  sql_like text (search_pattern keyword) = true
  <-> occurs_in keyword (until_nul text).
Proof.
  intro P. unfold sql_like, search_pattern, occurs_in.
  cbn [app until_nul]. change (0x25 =? 0) with false. cbv iota.
  rewrite until_nul_plain by exact P. cbn [until_nul].
  change (0x25 =? 0) with false. cbv iota.
  rewrite like_from_any. split.
  - intros (pre & post & E & H). apply like_from_plain in H; [|exact P].
    destruct H as (mid & post' & -> & F). eauto.
  - intros (pre & mid & post & E & F). exists pre, (mid ++ post).
    split; [exact E|]. apply like_from_plain; eauto.
Qed.

Lemma like_from_wild (p : str) :
  p <> [] -> Forall (fun c => c = 0x25) p -> forall t, like_from p t = true.
Proof.
  induction p as [|c p IH]; intros N F t; [congruence|].
  inversion F as [|? ? -> F']; subst.
  destruct p as [|c' p].
  - apply like_from_any. exists t, []. now rewrite app_nil_r.
  - rewrite like_from_percent, IH; [reflexivity | discriminate | exact F'].
Qed.

Lemma utf8_length_app (a b : str) :
  utf8_length (a ++ b) = utf8_length a + utf8_length b.
Proof.
  unfold utf8_length. induction a as [|c a IH]; [reflexivity|].
  cbn [app fold_right]. rewrite IH. lia.
Qed.

Lemma filter_perm {A : Type} (p : A -> bool) (l l' : list A) :
  Permutation l l' -> Permutation (filter p l) (filter p l').
Proof.
  induction 1 as [|x l l' _ IH|x y l|l1 l2 l3 _ IH1 _ IH2]; cbn [filter].
  - constructor.
  - destruct (p x); [now constructor | exact IH].
  - destruct (p x), (p y); try reflexivity. apply perm_swap.
  - now transitivity (filter p l2).
Qed.

Lemma sorted_filter {A : Type} (R : A -> A -> Prop) (p : A -> bool)
  (l : list A) :
  StronglySorted R l -> StronglySorted R (filter p l).
Proof.
  induction 1 as [|a l S IH F]; cbn [filter]; [constructor|].
  destruct (p a); [|exact IH]. constructor; [exact IH|].
  rewrite Forall_forall in *. intros b Hb. apply filter_In in Hb.
  now apply F.
Qed.

Lemma filter_of_map {A B : Type} (f : A -> B) (p : B -> bool) (l : list A) :
  filter p (map f l) = map f (filter (fun x => p (f x)) l).
Proof.
  induction l as [|x l IH]; [reflexivity|].
  cbn [map filter]. destruct (p (f x)); cbn [map]; now rewrite IH.
Qed.

(** When no two rows share a key, to sort the rows a filter keeps is to
    keep the sorted rows that pass the filter. *)
Lemma order_by_filter {A B : Type} (le : A -> A -> bool) (key : A -> B)
  (p : A -> bool) (l : list A) :
  is_total le -> is_transitive le ->
  (forall a b, le a b = true -> le b a = true -> key a = key b) ->
  NoDup (map key l) ->
  order_by A le (filter p l) = filter p (order_by A le l).
Proof using order_by_sorts.
  intros T R K N. apply (sorted_perm_eq le).
  - rewrite order_by_perm. apply filter_perm, Permutation_sym, order_by_perm.
  - now apply order_by_sorted.
  - apply sorted_filter. apply (sorted_strict le key); auto.
    + eapply Permutation_NoDup;
        [apply Permutation_map, Permutation_sym, order_by_perm | exact N].
    + now apply order_by_sorted.
Qed.

Lemma by_chapter_and_id_key (a b : QuestionRow) :
  by_chapter_and_id a b = true -> by_chapter_and_id b a = true ->
  q_id a = q_id b.
Proof.
  unfold by_chapter_and_id.
  destruct (str_eqb (q_chapter a) (q_chapter b)) eqn:E.
  - apply str_eqb_eq in E. rewrite E, str_eqb_refl, !Z.leb_le. lia.
  - apply str_eqb_neq in E.
    assert (str_eqb (q_chapter b) (q_chapter a) = false) as ->
        by (apply str_eqb_neq; congruence).
    intros H1 H2. elim E. now apply str_leb_antisym.
Qed.

(** X21. What a search finds.  In a table whose ids are all different, a
    search whose pattern (the keyword between two [%]) has at most 50000
    bytes in UTF-8 returns the items of the page of all questions whose
    question text or chapter matches the pattern, in the order of that
    page; on a table that is not empty, a longer keyword ends in the
    engine's error.  For a keyword with no [%], no [_] and no NUL, a text
    matches exactly when the keyword occurs in it (up to its first NUL), the
    letters of ASCII in either case.  The keyword is not escaped: one made
    of [%] alone finds every question. *)
Theorem search_finds_the_keyword :
  forall s keyword,
    question_ids_unique s ->
    (utf8_length keyword + 2 <= LIKE_PATTERN_LENGTH \/ questions s = [] ->
     search_questions s keyword
     = Some (filter (hit keyword) (get_all_questions s)))
    /\ (LIKE_PATTERN_LENGTH < utf8_length keyword + 2 -> questions s <> [] ->
        search_questions s keyword = None)
    /\ (plain_keyword keyword ->
        forall text,
          sql_like text (search_pattern keyword) = true
          <-> occurs_in keyword (until_nul text))
    /\ (Forall (fun c => c = 0x25) keyword ->
        forall v, hit keyword v = true).
Proof using order_by_sorts.
  intros s keyword I.
  assert (utf8_length ([0x25] ++ keyword ++ [0x25]) = utf8_length keyword + 2)
    as L.
  { rewrite !utf8_length_app. change (utf8_length [0x25]) with 1. lia. }
  split; [|split; [|split]].
  - intro H. unfold search_questions. cbv zeta. rewrite L.
    destruct (questions s) as [|r rows] eqn:Q.
    + unfold get_all_questions. rewrite Q.
      pose proof (order_by_perm by_chapter_and_id (@nil QuestionRow)) as P.
      apply Permutation_sym, Permutation_nil in P. rewrite P. reflexivity.
    + destruct H as [H | H]; [|discriminate].
      apply Z.ltb_ge in H. rewrite H. f_equal.
      unfold get_all_questions. rewrite Q, filter_of_map. f_equal.
      apply (order_by_filter by_chapter_and_id q_id).
      * exact by_chapter_and_id_total.
      * exact by_chapter_and_id_trans.
      * exact by_chapter_and_id_key.
      * unfold question_ids_unique in I. now rewrite Q in I.
  - intros H N. unfold search_questions. cbv zeta. rewrite L.
    destruct (questions s) as [|r rows]; [congruence|].
    apply Z.ltb_lt in H. now rewrite H.
  - intros P text. now apply sql_like_plain.
  - intros W v. unfold hit. apply orb_true_iff. left.
    unfold sql_like, search_pattern.
    assert (Forall (fun c => c = 0x25) ([0x25] ++ keyword ++ [0x25])) as W'.
    { apply Forall_app. split; [now constructor|].
      apply Forall_app. split; [exact W | now constructor]. }
    assert (forall p, Forall (fun c => c = 0x25) p -> until_nul p = p) as U.
    { induction 1 as [|c p -> _ IH]; [reflexivity|].
      cbn [until_nul]. change (0x25 =? 0) with false. cbv iota.
      now rewrite IH. }
    rewrite (U _ W'). apply like_from_wild; [discriminate | exact W'].
Qed.

End Importer.

(** ** Results that depend on the Unicode tables only through ASCII and
    through the digits being alphanumeric *)

Section Ascii.

Variable decimal_value : char -> option Z.
Variable isalnum : char -> bool.
Hypothesis tables : ascii_like decimal_value isalnum.
Hypothesis digits : digits_are_alnum decimal_value isalnum.

Local Set Default Proof Using "Type".

Lemma is_ascii_cons (c : char) (s : str) :
  is_ascii (c :: s) = true -> 0 <= c < 128 /\ is_ascii s = true.
Proof.
  unfold is_ascii. simpl. rewrite !andb_true_iff, Z.leb_le, Z.ltb_lt. tauto.
Qed.

Lemma is_ascii_app (a b : str) :
  is_ascii (a ++ b) = true -> is_ascii a = true /\ is_ascii b = true.
Proof.
  unfold is_ascii. rewrite forallb_app. apply andb_true_iff.
Qed.

Ltac ascii_bounds :=
  repeat match goal with
         | H : is_ascii (_ :: _) = true |- _ =>
             apply is_ascii_cons in H; destruct H as [? H]
         end.

Ltac use_tables :=
  repeat match goal with
         | B : 0 <= ?c < 128 |- _ =>
             let E1 := fresh in
             let E2 := fresh in
             destruct (tables c B) as [E1 E2]; rewrite ?E1, ?E2;
             clear B E1 E2
         end.

Lemma match_ch_ascii (prev : option char) (s : str) :
  match prev with Some p => 0 <= p < 128 | None => True end ->
  is_ascii s = true ->
  match_ch decimal_value isalnum prev s
  = match_ch ascii_decimal ascii_alnum prev s.
Proof using tables.
  intros Hp Hs.
  destruct s as [|c [|h [|d1 [|d2 [|z rest]]]]]; try reflexivity;
    ascii_bounds; unfold match_ch, boundary, is_word_opt, is_word, is_decimal,
    hd_error; destruct prev; use_tables; reflexivity.
Qed.

Lemma search_ch_from_ascii :
  forall (s : str) (prev : option char),
    match prev with Some p => 0 <= p < 128 | None => True end ->
    is_ascii s = true ->
    search_ch_from decimal_value isalnum prev s
    = search_ch_from ascii_decimal ascii_alnum prev s.
Proof using tables.
  induction s as [|x s IH]; intros prev Hp Hs; cbn [search_ch_from];
    rewrite (match_ch_ascii prev _ Hp Hs); [reflexivity|].
  apply is_ascii_cons in Hs. destruct Hs as [Hx Hs].
  now rewrite (IH (Some x) Hx Hs).
Qed.

Lemma int_from_ascii :
  forall g acc,
    is_ascii g = true ->
    int_from decimal_value acc g = int_from ascii_decimal acc g.
Proof using tables.
  induction g as [|d g IH]; intros acc H; [reflexivity|].
  apply is_ascii_cons in H. destruct H as [Hd Hg]. simpl.
  rewrite (proj1 (tables d Hd)).
  destruct (ascii_decimal d); [now apply IH | reflexivity].
Qed.

Lemma segment_number_ascii (part : str) :
  is_ascii part = true ->
  segment_number decimal_value isalnum part
  = segment_number ascii_decimal ascii_alnum part.
Proof using tables.
  intro H. unfold segment_number, search_ch.
  rewrite (search_ch_from_ascii part None I H).
  destruct (search_ch_from ascii_decimal ascii_alnum None part) as [g|] eqn:S;
    [|reflexivity].
  apply search_ch_from_sound in S.
  destruct S as (pre & c & h & post & E & _). rewrite E in H.
  apply is_ascii_app in H. destruct H as [_ H]. ascii_bounds.
  apply is_ascii_app in H. destruct H as [H _].
  unfold int_of_str. destruct g; [reflexivity|]. now apply int_from_ascii.
Qed.

Lemma yields_chapter_ascii (part : str) :
  is_ascii part = true ->
  yields_chapter decimal_value isalnum part
  = yields_chapter ascii_decimal ascii_alnum part.
Proof using tables.
  intro H. unfold yields_chapter. now rewrite segment_number_ascii.
Qed.

(** *** The search of the code finds the leftmost token *)

Lemma word_c (c : char) :
  c = 0x63 \/ c = 0x43 -> is_word isalnum c = true.
Proof using tables.
  unfold is_word. intros [-> | ->].
  - rewrite (proj2 (tables 0x63 ltac:(lia))). reflexivity.
  - rewrite (proj2 (tables 0x43 ltac:(lia))). reflexivity.
Qed.

Lemma word_digit (d : char) :
  is_decimal decimal_value d = true -> is_word isalnum d = true.
Proof using digits.
  intro H. unfold is_word. now rewrite (digits d H).
Qed.

Lemma no_word_char_iff (c : option char) :
  no_word_char isalnum c <-> is_word_opt isalnum c = false.
Proof.
  destruct c as [c|]; cbn [no_word_char is_word_opt]; [|tauto].
  unfold is_word. rewrite orb_false_iff, Z.eqb_neq. tauto.
Qed.

Lemma boundary_before (prev : option char) (c : char) :
  is_word isalnum c = true ->
  boundary isalnum prev (Some c) = true <-> no_word_char isalnum prev.
Proof.
  intro W. rewrite no_word_char_iff. unfold boundary. cbn [is_word_opt].
  rewrite W. destruct (is_word_opt isalnum prev); cbn; split; congruence.
Qed.

Lemma boundary_after (d : char) (next : option char) :
  is_word isalnum d = true ->
  boundary isalnum (Some d) next = true <-> no_word_char isalnum next.
Proof.
  intro W. rewrite no_word_char_iff. unfold boundary. cbn [is_word_opt].
  rewrite W. destruct (is_word_opt isalnum next); cbn; split; congruence.
Qed.

(** A match at the head of a string is a token at its head, and the only
    one. *)
Lemma match_ch_token (prev : option char) (s g : str) :
  match_ch decimal_value isalnum prev s = Some g
  <-> exists post, ch_token_in decimal_value isalnum prev s [] g post.
Proof using tables digits.
  split.
  - intro M. apply match_ch_sound in M.
    destruct M as (c & h & post & E & Hc & Hh & L & D & B & B').
    exists post, c, h. cbn [app char_before].
    split; [exact E|]. split; [exact Hc|]. split; [exact Hh|].
    split; [exact L|]. split; [exact D|].
    split; [apply (boundary_before prev c); auto using word_c|].
    destruct g as [|d1 [|d2 [|d3 g]]]; cbn [length] in L; try lia.
    + inversion D; subst. apply (boundary_after d1); auto using word_digit.
    + inversion D as [|? ? _ D2]; subst. inversion D2; subst.
      apply (boundary_after d2); auto using word_digit.
  - intros (post & c & h & E & Hc & Hh & L & D & B & B').
    cbn [app char_before] in E, B. subst s.
    apply (boundary_before prev c) in B; [|auto using word_c].
    assert (((c =? 0x63) || (c =? 0x43)) = true) as Tc
        by (rewrite orb_true_iff, !Z.eqb_eq; exact Hc).
    assert (((h =? 0x68) || (h =? 0x48)) = true) as Th
        by (rewrite orb_true_iff, !Z.eqb_eq; exact Hh).
    destruct g as [|d1 [|d2 [|d3 g]]]; cbn [length] in L; try lia.
    + inversion D as [|? ? D1 _]; subst. cbn [app]. unfold match_ch.
      rewrite B, Tc, Th, D1. cbn [andb].
      destruct post as [|d2 rest'].
      * rewrite (proj2 (boundary_after d1 None (word_digit d1 D1)) B').
        reflexivity.
      * cbn [hd_error] in B'.
        assert (is_decimal decimal_value d2 = false) as N.
        { destruct (is_decimal decimal_value d2) eqn:D2; [|reflexivity].
          apply no_word_char_iff in B'. cbn [is_word_opt] in B'.
          rewrite (word_digit d2 D2) in B'. discriminate. }
        rewrite N. cbn [andb].
        rewrite (proj2 (boundary_after d1 (Some d2) (word_digit d1 D1)) B').
        reflexivity.
    + inversion D as [|? ? D1 D']; subst. inversion D' as [|? ? D2 _]; subst.
      cbn [app]. unfold match_ch. rewrite B, Tc, Th, D1, D2. cbn [andb].
      rewrite (proj2 (boundary_after d2 (hd_error post) (word_digit d2 D2))
                 B').
      reflexivity.
Qed.

Lemma last_char_cons (x : char) (p : str) :
  last_char (x :: p) = char_before (Some x) p.
Proof. destruct p; reflexivity. Qed.

(** A token of [x :: s] that is not at the head is a token of [s]. *)
Lemma ch_token_in_cons (prev : option char) (x : char) (s p g post : str) :
  ch_token_in decimal_value isalnum prev (x :: s) (x :: p) g post
  <-> ch_token_in decimal_value isalnum (Some x) s p g post.
Proof.
  unfold ch_token_in. cbn [char_before]. rewrite last_char_cons.
  split; intros (c & h & E & H); exists c, h; (split; [|exact H]).
  - cbn [app] in E. now injection E.
  - cbn [app]. now rewrite E.
Qed.

Lemma ch_token_in_head (prev : option char) (x : char) (s pre g post : str) :
  ch_token_in decimal_value isalnum prev (x :: s) pre g post ->
  pre = [] \/ exists p, pre = x :: p.
Proof.
  intros (c & h & E & _). destruct pre as [|y p]; [now left | right].
  cbn [app] in E. injection E as -> _. now exists p.
Qed.

(** [re.search] returns the leftmost token, and a string without a token
    has no match. *)
Lemma search_ch_from_spec :
  forall s prev,
    match search_ch_from decimal_value isalnum prev s with
    | Some g =>
        exists pre post,
          ch_token_in decimal_value isalnum prev s pre g post
          /\ forall pre' g' post',
               ch_token_in decimal_value isalnum prev s pre' g' post' ->
               (length pre < length pre')%nat \/ (pre' = pre /\ g' = g)
    | None =>
        forall pre g post,
          ~ ch_token_in decimal_value isalnum prev s pre g post
    end.
Proof using tables digits.
  induction s as [|x s IH]; intro prev.
  - cbn. intros pre g post (c & h & E & _). now destruct pre.
  - cbn [search_ch_from].
    destruct (match_ch decimal_value isalnum prev (x :: s)) as [g|] eqn:M.
    + destruct (proj1 (match_ch_token prev (x :: s) g) M) as [post T].
      exists [], post. split; [exact T|].
      intros pre' g' post' T'.
      destruct (ch_token_in_head _ _ _ _ _ _ T') as [-> | [p ->]].
      * right. split; [reflexivity|].
        assert (match_ch decimal_value isalnum prev (x :: s) = Some g') as M'
            by (apply match_ch_token; eauto).
        congruence.
      * left. cbn [length]. lia.
    + assert (forall pre g post,
                 ch_token_in decimal_value isalnum prev (x :: s) pre g post ->
                 exists p, pre = x :: p
                           /\ ch_token_in decimal_value isalnum (Some x) s
                                p g post) as Shift.
      { intros pre g post T.
        destruct (ch_token_in_head _ _ _ _ _ _ T) as [-> | [p ->]].
        - assert (match_ch decimal_value isalnum prev (x :: s) = Some g) as M'
              by (apply match_ch_token; eauto).
          congruence.
        - exists p. split; [reflexivity|]. now apply ch_token_in_cons in T. }
      specialize (IH (Some x)).
      destruct (search_ch_from decimal_value isalnum (Some x) s) as [g|].
      * destruct IH as (pre & post & T & Least).
        exists (x :: pre), post. split; [now apply ch_token_in_cons|].
        intros pre' g' post' T'.
        destruct (Shift _ _ _ T') as (p & -> & T'').
        destruct (Least _ _ _ T'') as [L | [-> ->]];
          [left; cbn [length]; lia | now right].
      * intros pre g post T. destruct (Shift _ _ _ T) as (p & _ & T').
        exact (IH _ _ _ T').
Qed.

Lemma search_ch_first (part g : str) :
  search_ch decimal_value isalnum part = Some g
  <-> first_ch_token decimal_value isalnum part g.
Proof using tables digits.
  unfold search_ch, first_ch_token, ch_token_at.
  pose proof (search_ch_from_spec part None) as S.
  destruct (search_ch_from decimal_value isalnum None part) as [g0|].
  - destruct S as (pre0 & post0 & T0 & Least). split.
    + intros [= <-]. exists pre0, post0. split; [exact T0|].
      intros pre' g' post' T'.
      destruct (Least _ _ _ T') as [L | [-> _]]; lia.
    + intros (pre & post & T & Least').
      destruct (Least _ _ _ T) as [L | [_ ->]]; [|reflexivity].
      specialize (Least' _ _ _ T0). lia.
  - split; [discriminate|]. intros (pre & post & T & _).
    elim (S _ _ _ T).
Qed.

Lemma search_ch_none (part : str) :
  search_ch decimal_value isalnum part = None
  <-> has_no_token decimal_value isalnum part.
Proof using tables digits.
  unfold search_ch, has_no_token, ch_token_at.
  pose proof (search_ch_from_spec part None) as S.
  destruct (search_ch_from decimal_value isalnum None part) as [g0|].
  - destruct S as (pre0 & post0 & T0 & _). split; [discriminate|].
    intro N. elim (N _ _ _ T0).
  - split; [intros _; exact S | reflexivity].
Qed.

(** *** The loop of the code and the specification *)

Lemma segment_number_matches (part : str) (n : Z) :
  segment_number decimal_value isalnum part = Some n
  <-> segment_matches decimal_value isalnum part n.
Proof using tables digits.
  unfold segment_number, segment_matches. split.
  - destruct (search_ch decimal_value isalnum part) as [g|] eqn:S;
      [|discriminate].
    intro N. exists g. split; [now apply search_ch_first | exact N].
  - intros (g & F & N). apply search_ch_first in F. now rewrite F.
Qed.

Lemma segment_number_none (part : str) :
  segment_number decimal_value isalnum part = None
  <-> has_no_token decimal_value isalnum part.
Proof using tables digits.
  rewrite <- search_ch_none. unfold segment_number.
  destruct (search_ch decimal_value isalnum part) as [g|] eqn:S;
    [|tauto].
  destruct (search_ch_number decimal_value isalnum part g S) as [n N].
  rewrite N. split; discriminate.
Qed.

Lemma yields_chapter_true (part : str) :
  yields_chapter decimal_value isalnum part = true
  <-> exists n, segment_matches decimal_value isalnum part n
                /\ in_range n = true.
Proof using tables digits.
  unfold yields_chapter. split.
  - destruct (segment_number decimal_value isalnum part) as [n|] eqn:N;
      [|discriminate].
    intro R. exists n. split; [now apply segment_number_matches | exact R].
  - intros (n & M & R). apply segment_number_matches in M. now rewrite M.
Qed.

Lemma yields_chapter_false (part : str) :
  yields_chapter decimal_value isalnum part = false
  <-> passed_over decimal_value isalnum part.
Proof using tables digits.
  unfold yields_chapter, passed_over. split.
  - destruct (segment_number decimal_value isalnum part) as [n|] eqn:N.
    + intro R. right. exists n. split; [now apply segment_number_matches|].
      exact R.
    + intros _. left. now apply segment_number_none.
  - intros [H | (n & M & R)].
    + apply segment_number_none in H. now rewrite H.
    + apply segment_number_matches in M. now rewrite M.
Qed.

Lemma find_first {A : Type} (p : A -> bool) (l : list A) (x : A) :
  find p l = Some x
  <-> exists before after,
        l = before ++ x :: after
        /\ Forall (fun y => p y = false) before /\ p x = true.
Proof.
  split.
  - induction l as [|y l IH]; [discriminate|]. cbn [find].
    destruct (p y) eqn:Y.
    + intros [= ->]. exists [], l. auto.
    + intro H. destruct (IH H) as (before & after & -> & F & X).
      exists (y :: before), after. auto.
  - intros (before & after & -> & F & X).
    induction F as [|y before Y _ IH]; cbn [app find].
    + now rewrite X.
    + now rewrite Y.
Qed.

Lemma find_nothing {A : Type} (p : A -> bool) (l : list A) :
  find p l = None <-> Forall (fun y => p y = false) l.
Proof.
  induction l as [|y l IH]; cbn [find]; [split; auto|].
  destruct (p y) eqn:Y.
  - split; [discriminate|]. intro F. inversion F; congruence.
  - rewrite IH. split; [now constructor | intro F; now inversion F].
Qed.

Lemma passed_over_all (l : list str) :
  Forall (fun y => yields_chapter decimal_value isalnum y = false) l
  <-> Forall (passed_over decimal_value isalnum) l.
Proof using tables digits.
  split; intro F; (eapply Forall_impl; [|exact F]); cbv beta; intro part;
    apply yields_chapter_false.
Qed.

(** The search over the segments gives the chapter of the specification, and
    no other. *)
Lemma chapter_by_find_resolves (path : Path) (override : option str)
  (chapter : str) :
  chapter_by_find decimal_value isalnum path override = chapter
  <-> resolves_to decimal_value isalnum path (default_as_claimed override)
        chapter.
Proof using tables digits.
  unfold chapter_by_find, resolves_to. split.
  - destruct (find (yields_chapter decimal_value isalnum) (segments path))
      as [part|] eqn:F.
    + apply find_first in F. destruct F as (before & after & E & B & Y).
      apply yields_chapter_true in Y. destruct Y as (n & M & R).
      rewrite (proj2 (segment_number_matches part n) M).
      intros <-. left. exists before, part, after, n.
      rewrite <- passed_over_all. auto.
    + apply find_nothing in F. intros <-. right.
      rewrite <- passed_over_all. split; [exact F|].
      now destruct override.
  - intros [(before & part & after & n & E & B & M & R & ->) | [B ->]].
    + assert (find (yields_chapter decimal_value isalnum) (segments path)
              = Some part) as ->.
      { apply find_first. exists before, after. rewrite passed_over_all.
        split; [exact E|]. split; [exact B|].
        apply yields_chapter_true. eauto. }
      now rewrite (proj2 (segment_number_matches part n) M).
    + apply passed_over_all, find_nothing in B. rewrite B.
      now destruct override.
Qed.


End Ascii.

(** ** The byte-order mark *)

Lemma utf8_decode_bom (bs : list Z) :
  utf8_decode (0xEF :: 0xBB :: 0xBF :: bs) = 0xFEFF :: utf8_decode bs.
Proof. reflexivity. Qed.

Lemma utf8_sig_decode_bom (bs : list Z) :
  utf8_sig_decode (0xEF :: 0xBB :: 0xBF :: bs) = utf8_decode bs.
Proof. reflexivity. Qed.

Lemma strip_bom (l : str) : strip (0xFEFF :: l) = 0xFEFF :: rstrip l.
Proof.
  unfold strip, lstrip, rstrip. cbn [dropwhile]. 
  change (isspace 0xFEFF) with false. cbn iota. cbn [rstrip_by].
  destruct (rstrip_by isspace l); reflexivity.
Qed.

(** C8 fails on the code.  [main] decodes a file as "utf-8" unless told
    otherwise, which keeps a leading byte-order mark as U+FEFF, and
    [str.strip] does not remove that character from pasted text; a line that
    starts with it is no question line.  So a one-entry file behind a
    byte-order mark imports nothing through [main], while the same bytes
    without the mark, or with it through the upload handler (which decodes
    as "utf-8-sig"), bring one question and one answer; pasted text that
    starts with the mark is turned down as holding no question. *)
Theorem bom_is_kept_by_the_importer :
  forall burn now,
    (forall bs, read_text UTF_8 (0xEF :: 0xBB :: 0xBF :: bs)
                = 0xFEFF :: read_text UTF_8 bs)
    /\ (forall l, is_question_line (0xFEFF :: l) = false)
    /\ import_file ascii_decimal ascii_alnum burn now UTF_8 (Some (lit "ch1"))
         empty_store notes_path (lit "notes.txt") bom_file
       = Some (empty_store, no_stats)
    /\ option_map snd
         (import_file ascii_decimal ascii_alnum burn now UTF_8
            (Some (lit "ch1")) empty_store notes_path (lit "notes.txt")
            plain_file)
       = Some {| inserted_questions := 1; duplicates_skipped := 0;
                 skipped_unanswered := 0; inserted_answers := 1 |}
    /\ option_map snd
         (import_questions ascii_decimal burn now empty_store (lit "ch1")
            (UploadedFile bom_file (lit "notes.txt")))
       = Some {| inserted_questions := 1; duplicates_skipped := 0;
                 skipped_unanswered := 0; inserted_answers := 1 |}
    /\ import_questions ascii_decimal burn now empty_store (lit "ch1")
         (PastedText (utf8_decode bom_file))
       = None
    /\ option_map snd
         (import_questions ascii_decimal burn now empty_store (lit "ch1")
            (PastedText (utf8_decode plain_file)))
       = Some {| inserted_questions := 1; duplicates_skipped := 0;
                 skipped_unanswered := 0; inserted_answers := 1 |}.
Proof.
  intros burn now.
  split; [intro bs; unfold read_text; now rewrite utf8_decode_bom|].
  split.
  { intro l. unfold is_question_line. now rewrite strip_bom. }
  repeat split; vm_compute; reflexivity.
Qed.

(** ** The properties at sample inputs *)

(** The ASCII tables are, trivially, the usual ones on ASCII. *)
Lemma ascii_tables_ascii_like : ascii_like ascii_decimal ascii_alnum.
Proof. intros c _. split; reflexivity. Defined.

(** The example transcript imported into the empty store: the first run
    inserts a question, hence an answer. *)
Lemma import_twice_witness :
  store_ok empty_store
  /\ exists entries,
      parse_blocks example_text = Some entries
      /\ let run1 := upsert_entries ascii_decimal false 0 empty_store
                       entries (lit "ch1") (lit "a.txt") in
         0 < inserted_questions (snd run1) <= inserted_answers (snd run1).
Proof.
  split; [exact empty_store_ok|].
  destruct (import_twice_inserts_nothing ascii_decimal false
              example_text 0 1 (lit "ch1") (lit "a.txt") (lit "b.txt")
              empty_store)
    as (entries & E & _ & _ & _ & _ & _ & _ & H).
  exists entries. split; [exact E|].
  apply H; [exact empty_store_ok|].
  vm_compute in E. injection E as <-. vm_compute. reflexivity.
Defined.

(** The sample entry on the empty store: a new question row and its two
    answers at positions 1 and 2. *)
Lemma answer_positions_witness :
  let st' := upsert_entry ascii_decimal false 0 (lit "ch1") (lit "a.txt")
               (empty_store, no_stats) sample_entry in
  answers_owned empty_store
  /\ questions (fst st') <> questions empty_store
  /\ exists qrow rows,
      questions (fst st') = questions empty_store ++ [qrow]
      /\ answers (fst st') = answers empty_store ++ rows
      /\ filter (fun r => a_question_id r =? q_id qrow) (answers (fst st'))
         = rows
      /\ length rows = length (trimmed_answers sample_entry)
      /\ map a_position rows
         = map Z.of_nat (seq 1 (length (trimmed_answers sample_entry)))
      /\ map a_answer_text rows = trimmed_answers sample_entry
      /\ inserted_answers (snd st')
         = inserted_answers no_stats + Z.of_nat (length rows).
Proof.
  cbv zeta.
  split; [intros a []|].
  split; [vm_compute; discriminate|].
  apply (answer_positions_follow_source ascii_decimal false 0
           (lit "ch1") (lit "a.txt") empty_store no_stats sample_entry).
  - intros a [].
  - vm_compute. discriminate.
Defined.

(** The sample entry and its variant have the same words, hence the same
    key. *)
Lemma layout_variants_witness :
  split (question sample_entry) = split (question sample_variant)
  /\ normalize_text (question sample_entry)
     = normalize_text (question sample_variant)
  /\ entry_key sample_entry = entry_key sample_variant.
Proof.
  assert (split (question sample_entry) = split (question sample_variant))
    as W by (vm_compute; reflexivity).
  assert (survives sample_entry = true) as V1 by (vm_compute; reflexivity).
  assert (survives sample_variant = true) as V2 by (vm_compute; reflexivity).
  destruct (layout_variants_collide ascii_decimal false
              (question sample_entry) (question sample_variant) W)
    as [N H].
  split; [exact W|]. split; [exact N|].
  exact (proj1 (H 0 (lit "ch1") (lit "ch2") (lit "a.txt") empty_store
                  no_stats sample_entry sample_variant eq_refl eq_refl
                  V1 V2 empty_store_ok)).
Defined.

(** An entry whose only answer is the sentinel, with white space around. *)
Lemma unanswered_entry_witness :
  let st' := upsert_entry ascii_decimal false 0 (lit "ch1") (lit "a.txt")
               (sample_store, no_stats) sample_unanswered in
  (trimmed_answers sample_unanswered = []
   \/ trimmed_answers sample_unanswered = [UNANSWERED])
  /\ fst st' = sample_store
  /\ skipped_unanswered (snd st') = skipped_unanswered no_stats + 1
  /\ inserted_questions (snd st') = inserted_questions no_stats
  /\ inserted_answers (snd st') = inserted_answers no_stats
  /\ duplicates_skipped (snd st') = duplicates_skipped no_stats.
Proof.
  cbv zeta.
  assert (trimmed_answers sample_unanswered = []
          \/ trimmed_answers sample_unanswered = [UNANSWERED]) as H
      by (right; vm_compute; reflexivity).
  split; [exact H|].
  exact (unanswered_entry_skipped ascii_decimal false 0 (lit "ch1")
           (lit "a.txt") sample_store no_stats sample_unanswered H).
Defined.

(** The sample store holds one question row. *)
Lemma sample_store_unique : questions_unique sample_store.
Proof.
  unfold questions_unique, question_keys. cbn [sample_store questions map].
  constructor; [intros [] | constructor].
Defined.

(** The variant imported where the sample row is: the row stays, the
    duplicate counter moves, and the two answers go under the id of the
    row. *)
Lemma duplicate_question_witness :
  let st' := upsert_entry ascii_decimal false 5 (lit "ch1") (lit "b.txt")
               (sample_store, no_stats) sample_variant in
  questions_unique sample_store
  /\ In sample_row (questions sample_store)
  /\ q_chapter sample_row = lit "ch1"
  /\ q_text_norm sample_row = entry_key sample_variant
  /\ survives sample_variant = true
  /\ questions (fst st') = questions sample_store
  /\ duplicates_skipped (snd st') = duplicates_skipped no_stats + 1
  /\ exists rows,
      answers (fst st') = answers sample_store ++ rows
      /\ map answer_key rows = [(1, 1, lit "A"); (1, 2, lit "a scheme")].
Proof.
  cbv zeta.
  assert (In sample_row (questions sample_store)) as Hin
      by (left; reflexivity).
  assert (q_chapter sample_row = lit "ch1") as Hc
      by (vm_compute; reflexivity).
  assert (q_text_norm sample_row = entry_key sample_variant) as Hk
      by (vm_compute; reflexivity).
  assert (survives sample_variant = true) as V by (vm_compute; reflexivity).
  split; [exact sample_store_unique|].
  split; [exact Hin|]. split; [exact Hc|]. split; [exact Hk|].
  split; [exact V|].
  destruct (duplicate_question_untouched ascii_decimal false 5 (lit "ch1")
              (lit "b.txt") sample_store no_stats sample_variant sample_row
              sample_store_unique Hin Hc Hk V)
    as (H1 & H2 & _ & _ & _ & _ & (rows & Ha & Hr & _) & _).
  split; [exact H1|]. split; [exact H2|].
  exists rows. split; [exact Ha|]. rewrite Hr. vm_compute. reflexivity.
Defined.

Lemma ascii_digits_are_alnum : digits_are_alnum ascii_decimal ascii_alnum.
Proof.
  intros c. unfold is_decimal, ascii_decimal, ascii_alnum.
  destruct ((0x30 <=? c) && (c <=? 0x39)); [reflexivity | discriminate].
Qed.


(** A stray first line changes nothing. *)
Lemma parser_is_permissive_witness :
  (length [lit "stray"; lit "題目：Q"] <= 2)%nat
  /\ is_question_line (lit "stray") = false
  /\ has_marker (lit "stray") = false
  /\ scan 2 [lit "stray"; lit "題目：Q"] None []
     = scan 2 [lit "題目：Q"] None [].
Proof.
  assert (is_question_line (lit "stray") = false) as Q
      by (vm_compute; reflexivity).
  assert (has_marker (lit "stray") = false) as M by (vm_compute; reflexivity).
  split; [apply le_n|]. split; [exact Q|]. split; [exact M|].
  exact (proj1 (proj2 parser_is_permissive) 2%nat (lit "stray")
           [lit "題目：Q"] None [] (le_n 2) Q (or_introl M)).
Defined.

(** The sample entry with and without user answers. *)
Lemma your_answers_witness :
  Forall2 same_but_your [sample_entry] [sample_variant_your]
  /\ upsert_entries ascii_decimal false 0 empty_store [sample_entry]
       (lit "ch1") (lit "a.txt")
     = upsert_entries ascii_decimal false 0 empty_store [sample_variant_your]
         (lit "ch1") (lit "a.txt").
Proof.
  assert (same_but_your sample_entry sample_variant_your) as H1
      by (split; vm_compute; reflexivity).
  pose proof (Forall2_cons sample_entry sample_variant_your H1
                (Forall2_nil same_but_your)) as H.
  split; [exact H|].
  exact (proj1 (your_answers_do_not_matter ascii_decimal false 0 empty_store
                  (lit "ch1") (lit "a.txt") _ _ H)).
Defined.

(** A line of spaces between a question and its answer. *)
Lemma blank_lines_witness :
  strip (lit "  ") = []
  /\ parse_lines ([lit "題目：Q"] ++ lit "  " :: [lit "正確答案：A"])
     = parse_lines ([lit "題目：Q"] ++ [lit "正確答案：A"]).
Proof.
  assert (strip (lit "  ") = []) as H by (vm_compute; reflexivity).
  split; [exact H|].
  exact (blank_lines_do_not_matter (lit "  ") [lit "題目：Q"]
           [lit "正確答案：A"] H).
Defined.

(** Two entries, split at the second question line. *)
Lemma parse_splits_witness :
  is_question_line (lit "題目：Q2") = true
  /\ exists es1 es2,
      parse_lines [lit "題目：Q"; lit "正確答案：A"] = Some es1
      /\ parse_lines (lit "題目：Q2" :: [lit "正確答案：B"]) = Some es2
      /\ parse_lines ([lit "題目：Q"; lit "正確答案：A"]
                        ++ lit "題目：Q2" :: [lit "正確答案：B"])
         = Some (es1 ++ es2).
Proof.
  assert (is_question_line (lit "題目：Q2") = true) as H
      by (vm_compute; reflexivity).
  split; [exact H|].
  exact (parse_splits_at_question_lines (lit "題目：Q2")
           [lit "題目：Q"; lit "正確答案：A"] [lit "正確答案：B"] H).
Defined.

(** The transcript behind a byte-order mark, uploaded and imported. *)
Lemma upload_agrees_witness :
  exists result,
    determine_chapter ascii_decimal ascii_alnum notes_path (Some (lit "ch1"))
    = Some (lit "ch1")
    /\ import_questions ascii_decimal false 0 empty_store (lit "ch1")
         (UploadedFile bom_file (lit "notes.txt"))
       = Some result
    /\ import_file ascii_decimal ascii_alnum false 0 UTF_8_SIG
         (Some (lit "ch1")) empty_store notes_path (lit "notes.txt") bom_file
       = Some result.
Proof.
  assert (determine_chapter ascii_decimal ascii_alnum notes_path
            (Some (lit "ch1")) = Some (lit "ch1")) as D
      by (vm_compute; reflexivity).
  destruct (import_questions ascii_decimal false 0 empty_store (lit "ch1")
              (UploadedFile bom_file (lit "notes.txt")))
    as [result|] eqn:E; [|vm_compute in E; discriminate].
  exists result. split; [exact D|]. split; [reflexivity|].
  exact (upload_agrees_with_importer ascii_decimal ascii_alnum false 0
           empty_store (lit "ch1") (Some (lit "ch1")) notes_path bom_file
           (lit "notes.txt") result D E).
Defined.

(** The sample entry and its layout variant, into the empty store. *)
Lemma batch_keeps_the_schema_witness :
  questions_unique empty_store
  /\ question_ids_unique empty_store
  /\ answers_owned empty_store
  /\ answers_unique empty_store
  /\ let s' := fst (upsert_entries ascii_decimal false 0 empty_store
                      [sample_entry; sample_variant] (lit "ch1")
                      (lit "a.txt")) in
     questions_unique s' /\ question_ids_unique s'
     /\ answers_owned s' /\ answers_unique s'.
Proof.
  destruct empty_store_ok as (K & I & O).
  assert (answers_unique empty_store) as U by constructor.
  split; [exact K|]. split; [exact I|]. split; [exact O|].
  split; [exact U|].
  exact (batch_keeps_the_schema ascii_decimal false 0 empty_store
           [sample_entry; sample_variant] (lit "ch1") (lit "a.txt")
           K I O U).
Defined.

(** One file, with [--chapter ch1]. *)
Lemma main_totals_witness :
  [sample_file] <> []
  /\ exists s' gt,
      main ascii_decimal ascii_alnum false (fun _ => 0) UTF_8
        (Some (lit "ch1")) empty_store [sample_file]
      = Done s' gt
      /\ inserted_questions gt + duplicates_skipped gt + skipped_unanswered gt
         = Z.of_nat (total_entries UTF_8 [sample_file]).
Proof.
  assert ([sample_file] <> []) as N by discriminate.
  split; [exact N|].
  destruct (proj2 (main_totals_account_for_all_files ascii_decimal
                     ascii_alnum false (fun _ => 0) UTF_8 (Some (lit "ch1"))
                     empty_store [sample_file]) N)
    as (s' & gt & H1 & H2 & _).
  exists s', gt. split; [exact H1 | exact H2].
Defined.

(** The same file, imported twice. *)
Lemma main_twice_witness :
  exists s1 gt1,
    main ascii_decimal ascii_alnum false (fun _ => 0) UTF_8
      (Some (lit "ch1")) empty_store [sample_file]
    = Done s1 gt1
    /\ exists s2 gt2,
        main ascii_decimal ascii_alnum false (fun _ => 1) UTF_8
          (Some (lit "ch1")) s1 [sample_file]
        = Done s2 gt2
        /\ questions s2 = questions s1
        /\ answers s2 = answers s1
        /\ inserted_questions gt2 = 0
        /\ inserted_answers gt2 = 0.
Proof.
  destruct (main ascii_decimal ascii_alnum false (fun _ => 0) UTF_8
              (Some (lit "ch1")) empty_store [sample_file])
    as [code | s1 gt1 |] eqn:E;
    [vm_compute in E; discriminate | | vm_compute in E; discriminate].
  exists s1, gt1. split; [reflexivity|].
  exact (main_twice_inserts_nothing ascii_decimal ascii_alnum false
           (fun _ => 0) (fun _ => 1) UTF_8 (Some (lit "ch1")) empty_store
           [sample_file] s1 gt1 E).
Defined.

(** The example transcript, pasted into the form. *)
Lemma preview_witness :
  exists content,
    preview_content (PastedText example_text) = Some content
    /\ exists preview,
        api_import_preview ascii_decimal (PastedText example_text)
        = Some (length (map question_of
                          (filter is_question_line (lines_of content))),
                preview).
Proof.
  destruct (preview_content (PastedText example_text)) as [content|] eqn:P;
    [|vm_compute in P; discriminate].
  exists content. split; [reflexivity|].
  destruct (preview_announces_the_import ascii_decimal false
              (PastedText example_text) content P) as (preview & H & _).
  exists preview. exact H.
Defined.

Lemma sample_store_ok : store_ok sample_store.
Proof.
  split; [exact sample_store_unique|]. split.
  - repeat constructor. simpl. tauto.
  - intros a [].
Qed.

(** The chapter list of the sample store, with insertion sort for the
    engine's sort. *)
Lemma chapters_witness :
  sorts insertion_sort
  /\ forall c,
      In c (get_chapters insertion_sort sample_store)
      <-> exists r, In r (questions sample_store) /\ q_chapter r = c.
Proof.
  split; [exact insertion_sort_sorts|].
  exact (proj1 (chapters_are_those_with_questions ascii_decimal false
                  insertion_sort insertion_sort_sorts sample_store)).
Defined.

(** The sample entry, new in the empty store. *)
Lemma new_question_witness :
  sorts insertion_sort
  /\ store_ok empty_store
  /\ survives sample_entry = true
  /\ question_row empty_store (lit "ch1") (entry_key sample_entry) = None
  /\ get_questions_by_chapter insertion_sort
       (fst (upsert_entries ascii_decimal false 0 empty_store [sample_entry]
               (lit "ch1") (lit "a.txt")))
       (lit "ch1")
     = get_questions_by_chapter insertion_sort empty_store (lit "ch1")
       ++ [{| v_id := next_rowid (map q_id (questions empty_store))
                        (seq_questions empty_store);
              v_chapter := None;
              v_question := strip (question sample_entry);
              v_type := detect_type ascii_decimal
                          (strip (question sample_entry));
              v_source_file := lit "a.txt";
              v_created_at := 0;
              v_answers := trimmed_answers sample_entry |}].
Proof.
  assert (survives sample_entry = true) as U by (vm_compute; reflexivity).
  assert (question_row empty_store (lit "ch1") (entry_key sample_entry)
          = None) as F by reflexivity.
  split; [exact insertion_sort_sorts|]. split; [exact empty_store_ok|].
  split; [exact U|]. split; [exact F|].
  exact (new_question_ends_its_chapter_page ascii_decimal false
           insertion_sort insertion_sort_sorts 0 (lit "ch1") (lit "a.txt")
           empty_store sample_entry empty_store_ok U F).
Defined.

(** The page of ch1 when the sample entry goes into ch2. *)
Lemma other_chapter_witness :
  sorts insertion_sort
  /\ store_ok sample_store
  /\ lit "ch1" <> lit "ch2"
  /\ get_questions_by_chapter insertion_sort
       (fst (upsert_entries ascii_decimal false 0 sample_store
               [sample_entry] (lit "ch2") (lit "b.txt")))
       (lit "ch1")
     = get_questions_by_chapter insertion_sort sample_store (lit "ch1").
Proof.
  assert (lit "ch1" <> lit "ch2") as N
      by (intro H; vm_compute in H; discriminate).
  split; [exact insertion_sort_sorts|]. split; [exact sample_store_ok|].
  split; [exact N|].
  exact (other_chapter_pages_unchanged ascii_decimal false insertion_sort
           insertion_sort_sorts 0 sample_store [sample_entry] (lit "ch2")
           (lit "b.txt") (lit "ch1") sample_store_ok N).
Defined.

(** The sample entry after its own batch. *)
Lemma imported_entries_witness :
  sorts insertion_sort
  /\ In sample_entry [sample_unanswered; sample_entry]
  /\ survives sample_entry = true
  /\ let s' := fst (upsert_entries ascii_decimal false 0 empty_store
                      [sample_unanswered; sample_entry] (lit "ch1")
                      (lit "a.txt")) in
     exists row,
       question_row s' (lit "ch1") (entry_key sample_entry) = Some row
       /\ In (question_view insertion_sort false s' row)
            (get_questions_by_chapter insertion_sort s' (lit "ch1"))
       /\ incl (trimmed_answers sample_entry)
            (v_answers (question_view insertion_sort false s' row)).
Proof.
  assert (In sample_entry [sample_unanswered; sample_entry]) as H
      by (right; left; reflexivity).
  assert (survives sample_entry = true) as U by (vm_compute; reflexivity).
  split; [exact insertion_sort_sorts|]. split; [exact H|]. split; [exact U|].
  exact (imported_entries_are_on_the_page ascii_decimal false insertion_sort
           insertion_sort_sorts 0 empty_store
           [sample_unanswered; sample_entry] (lit "ch1") (lit "a.txt")
           sample_entry H U).
Defined.

(** The statistics of the sample store. *)
Lemma statistics_witness :
  sorts insertion_sort
  /\ sum_counts (chapter_stats (get_statistics insertion_sort sample_store))
     = total_questions (get_statistics insertion_sort sample_store).
Proof.
  split; [exact insertion_sort_sorts|].
  exact (proj1 (proj2 (proj2 (statistics_add_up ascii_decimal false
                                insertion_sort insertion_sort_sorts
                                sample_store)))).
Defined.

(** The page of all questions of the sample store. *)
Lemma all_questions_witness :
  sorts insertion_sort
  /\ question_ids_unique sample_store
  /\ get_all_questions insertion_sort sample_store
     = flat_map
         (fun chapter =>
            map (with_chapter chapter)
              (get_questions_by_chapter insertion_sort sample_store chapter))
         (get_chapters insertion_sort sample_store).
Proof.
  pose proof (proj1 (proj2 sample_store_ok)) as I.
  split; [exact insertion_sort_sorts|]. split; [exact I|].
  exact (all_questions_is_the_chapter_pages insertion_sort
           insertion_sort_sorts sample_store I).
Defined.

(** A search of the sample store for "PAG". *)
Lemma search_witness :
  sorts insertion_sort
  /\ question_ids_unique sample_store
  /\ utf8_length (lit "PAG") + 2 <= LIKE_PATTERN_LENGTH
  /\ search_questions insertion_sort sample_store (lit "PAG")
     = Some (filter (hit (lit "PAG"))
               (get_all_questions insertion_sort sample_store)).
Proof.
  pose proof (proj1 (proj2 sample_store_ok)) as I.
  assert (utf8_length (lit "PAG") + 2 <= LIKE_PATTERN_LENGTH) as L
      by (apply Z.leb_le; vm_compute; reflexivity).
  split; [exact insertion_sort_sorts|]. split; [exact I|]. split; [exact L|].
  exact (proj1 (search_finds_the_keyword insertion_sort insertion_sort_sorts
                  sample_store (lit "PAG") I) (or_introl L)).
Defined.

(** ** Where the specification and the code part *)


(** C9 as stated fails: a line that begins with no marker is not ignored
    when it follows a correct-answer line; it becomes one more answer. *)
Lemma stray_line_becomes_answer :
  has_marker (lit "stray") = false
  /\ parse_lines ([lit "題目：Q"; lit "正確答案：A"] ++ lit "stray" :: [])
     <> parse_lines ([lit "題目：Q"; lit "正確答案：A"] ++ [])
  /\ parse_lines [lit "題目：Q"; lit "正確答案：A"; lit "stray"]
     = Some [{| question := lit "Q"; your := [];
                correct := [lit "A"; lit "stray"] |}].
Proof.
  split; [vm_compute; reflexivity|].
  split; [vm_compute; discriminate | vm_compute; reflexivity].
Qed.
